(** * Render job orchestrator and multi-view capture pipeline

    A shallow embedding of the two JavaScript classes that make up the core
    of the GLB render service, and of one handler of its server:

    - [PuppeteerRenderer] (renderer/puppeteer-renderer.js): [expandViews],
      [renderImages], [renderVideo], [renderGIF], [renderGLB];
    - [JobQueue] (queue/job-queue.js): [start], [stop], [addJob], [getJob],
      [getStats], [processQueue], [processJob], [processRenderJob],
      [processBatchJob], [cancelJob], [cleanup];
    - the handler of [GET /api/download/:id] of server.js.

    Modelling choices:

    - JavaScript numbers are exact rationals ([Q]); every concrete value
      used below (2, 10, 3/4, 18, 160, ...) is a double that the JavaScript
      operations involved compute exactly.
    - The browser page, the file system and ffmpeg are an explicit [World]
      driven by an oracle ([Env]) that decides which external call succeeds
      and what [Date.now()] reads.
    - Exceptions are a result type ([res]); [try], [catch] and [finally]
      are combinators on it.
    - Job objects are shared by reference between [this.jobs] and
      [this.queue]: they live in a heap and both containers hold
      references.
    - [async] methods are cut at their [await] points; the suspended
      activations are part of the state, and an event resumes one of them.
      What happens between two suspension points is one transition. *)

From Stdlib Require Import QArith Qround.
From Stdlib Require Import Lqa.
From stdpp Require Import gmap strings list pretty sorting.
From Equations Require Import Equations.

Set Warnings "-register-all,-clear-no-such-hyp".
Local Open Scope string_scope.

(** ** JavaScript values *)

Inductive value : Type :=
| VUndefined
| VNull
| VBool (b : bool)
| VNum (q : Q)
| VStr (s : string)
| VArr (items : list value)
| VObj (fields : list (string * value)).

(** Property read [o.k]: [undefined] when the property is absent or when
    [o] is not an object. *)
Fixpoint assoc (k : string) (fields : list (string * value)) : option value :=
  match fields with
  | [] => None
  | (k', v) :: rest => if String.eqb k k' then Some v else assoc k rest
  end.

Definition getField (k : string) (o : value) : value :=
  match o with
  | VObj fields => default VUndefined (assoc k fields)
  | _ => VUndefined
  end.

(** [a.length] of an array value; [None] when the value is not an array
    (JavaScript would answer [undefined] or throw). *)
Definition arrayLength (v : value) : option nat :=
  match v with
  | VArr items => Some (length items)
  | _ => None
  end.

Definition VStrs (l : list string) : value := VArr (VStr <$> l).
Definition VNat (n : nat) : value := VNum (inject_Z (Z.of_nat n)).

(** ** Numbers *)

Definition Qltb (x y : Q) : bool := negb (Qle_bool y x).
Definition Qofnat (n : nat) : Q := inject_Z (Z.of_nat n).

(** [Math.min] on two numbers. *)
Definition Math_min (x y : Q) : Q := if Qle_bool x y then x else y.

(** [Math.floor], as a number. *)
Definition Math_floor (x : Q) : Q := inject_Z (Qfloor x).

(** [s.padStart(width, '0')]. *)
Fixpoint zeros (n : nat) : string :=
  match n with
  | O => ""
  | S k => "0" +:+ zeros k
  end.

Definition padStart (width : nat) (s : string) : string :=
  zeros (width - String.length s) +:+ s.

(** ** The outside world of the renderer *)

(** External calls made by the renderer: Puppeteer page operations, fs-extra
    and ffmpeg. *)
Inductive Call : Type :=
| NewPage
| SetViewport (width height : Q)
| Goto (url : string)
| WaitForThree
| LoadGLBModel (glbPath : string)
| WaitForModelLoaded
| ApplyRenderSettings
| SetCameraView (view : string)
| RotateCameraToAngle (angle : Q)
| WaitForTimeout (ms : nat)
| Screenshot (type : string) (quality : option Q) (omitBackground : bool)
| PostProcess
| WriteFile (path : string)
| EnsureDir (path : string)
| Remove (path : string)
| ConvertFramesToVideo (frameDir outputPath : string) (fps : Q)
| ConvertFramesToGIF (frameDir outputPath : string) (fps : Q)
| Stat (path : string)
| ClosePage.

(** What the outside answers: success with a payload (the byte length of a
    screenshot or of a file) or a thrown error with its message. *)
Inductive Reply : Type :=
| Ok (n : nat)
| Fail (msg : string).

(** The host environment: the answer to the [t]-th external call, the value
    of [Date.now()] at that moment, and the pieces of Node's [path] module
    the renderer relies on. *)
Record Env : Type := {
  reply : nat -> Call -> Reply;
  clock : nat -> nat;
  path_name : string -> string;   (* path.parse(f).name *)
  storage_temp : string;          (* path.join(__dirname, '../../storage/temp') *)
  storage_renders : string        (* path.join(__dirname, '../../storage/renders') *)
}.

Record World : Type := {
  tick : nat;                (* number of external calls made so far *)
  calls : list Call;         (* the calls, oldest first *)
  dirs : gset string         (* directories that exist under storage/temp *)
}.

Definition path_join (d f : string) : string := d +:+ "/" +:+ f.

(** Effect of a call on the set of directories: [fs.ensureDir] creates,
    [fs.remove] deletes; both only when they succeed. *)
Definition fsEffect (c : Call) (r : Reply) (d : gset string) : gset string :=
  match c, r with
  | EnsureDir p, Ok _ => {[p]} ∪ d
  | Remove p, Ok _ => d ∖ {[p]}
  | _, _ => d
  end.

(** ** Exceptions and state *)

Inductive res (A : Type) : Type :=
| Ret (a : A)
| Throw (msg : string).
Arguments Ret {A} a.
Arguments Throw {A} msg.

Definition M (A : Type) : Type := World -> res A * World.

Definition ret {A} (a : A) : M A := fun w => (Ret a, w).
Definition throw {A} (msg : string) : M A := fun w => (Throw msg, w).

Definition bind {A B} (m : M A) (k : A -> M B) : M B :=
  fun w =>
    match m w with
    | (Ret a, w1) => k a w1
    | (Throw msg, w1) => (Throw msg, w1)
    end.

(** [try { m } catch (error) { h error }]. *)
Definition tryCatch {A} (m : M A) (h : string -> M A) : M A :=
  fun w =>
    match m w with
    | (Ret a, w1) => (Ret a, w1)
    | (Throw msg, w1) => h msg w1
    end.

(** [try { m } finally { f }]: an exception of [f] replaces the outcome of
    [m]. *)
Definition tryFinally {A} (m : M A) (f : M unit) : M A :=
  fun w =>
    match m w with
    | (r, w1) =>
        match f w1 with
        | (Ret _, w2) => (r, w2)
        | (Throw msg, w2) => (Throw msg, w2)
        end
    end.

(** [p.catch(() => {})]. *)
Definition swallow (m : M nat) : M unit :=
  fun w => (Ret tt, snd (m w)).

Declare Scope js_scope.
Delimit Scope js_scope with js.
Notation "x <- m ;; k" := (bind m (fun x => k))
  (at level 62, m at next level, right associativity) : js_scope.
Notation "m ;;; k" := (bind m (fun _ => k))
  (at level 62, right associativity) : js_scope.
Local Open Scope js_scope.

Definition call (env : Env) (c : Call) : M nat :=
  fun w =>
    let r := reply env (tick w) c in
    let w' := {| tick := S (tick w);
                 calls := calls w ++ [c];
                 dirs := fsEffect c r (dirs w) |} in
    match r with
    | Ok n => (Ret n, w')
    | Fail msg => (Throw msg, w')
    end.

Definition dateNow (env : Env) : M nat :=
  fun w => (Ret (clock env (tick w)), w).

(** ** Render options, as server.js resolves them *)

Record RenderOptions : Type := {
  width : Q;
  height : Q;
  format : string;
  quality : Q;
  views : list string;
  transparent : bool;
  turntable : bool;
  duration : Q;
  fps : Q;
  preset : string;
  postProcessing : bool
}.

Definition optionsValue (o : RenderOptions) : value :=
  VObj [("width", VNum (width o)); ("height", VNum (height o));
        ("format", VStr (format o)); ("quality", VNum (quality o));
        ("views", VStrs (views o)); ("transparent", VBool (transparent o));
        ("turntable", VBool (turntable o)); ("duration", VNum (duration o));
        ("fps", VNum (fps o)); ("preset", VStr (preset o));
        ("postProcessing", VBool (postProcessing o))].

(** ** PuppeteerRenderer *)

Record Renderer : Type := {
  isInitialized : bool;
  browser : bool             (* [this.browser] is not null *)
}.

(** [expandViews(views)] *)
Definition expandViews (views : list string) : list string :=
  if bool_decide ("all" ∈ views)
  then ["front"; "side"; "top"; "perspective"; "back"; "bottom"]
  else views.

(** [getViewportFromPreset(preset, width, height)] *)
Definition getViewportFromPreset (preset : string) (width height : Q) : Q * Q :=
  if String.eqb preset "ultra" then (width * 2, height * 2)%Q
  else if String.eqb preset "medium"
       then (Math_floor (width * (3 # 4)), Math_floor (height * (3 # 4)))
  else if String.eqb preset "low"
       then (Math_floor (width * (1 # 2)), Math_floor (height * (1 # 2)))
  else (width, height).

Section Capture.
Context (env : Env).

(** Body of the [try] block of [renderImages] for one view. *)
Definition renderView (fileName : string) (options : RenderOptions)
    (view : string) : M value :=
  call env (SetCameraView view) ;;;
  call env (WaitForTimeout 500) ;;;
  let jpg := String.eqb (format options) "jpg" in
  screenshot <- call env (Screenshot (if jpg then "jpeg" else "png")
                                     (if jpg then Some (quality options) else None)
                                     (transparent options)) ;;
  processedImage <- (if postProcessing options
                     then call env PostProcess
                     else ret screenshot) ;;
  let outputFileName :=
    path_name env fileName +:+ "_" +:+ view +:+ "." +:+ format options in
  let outputPath := path_join (storage_renders env) outputFileName in
  call env (WriteFile outputPath) ;;;
  ret (VObj [("view", VStr view); ("fileName", VStr outputFileName);
             ("path", VStr outputPath); ("size", VNat processedImage)]).

(** The [for (const view of views)] loop of [renderImages]: a failing view
    is caught, written to the console only, and the loop goes on. *)
Fixpoint renderImagesLoop (fileName : string) (options : RenderOptions)
    (views : list string) (results : list value) : M (list value) :=
  match views with
  | [] => ret results
  | view :: rest =>
      fun w =>
        match renderView fileName options view w with
        | (Ret artifact, w1) =>
            renderImagesLoop fileName options rest (results ++ [artifact]) w1
        | (Throw _, w1) =>
            renderImagesLoop fileName options rest results w1
        end
  end.

(** [renderImages(page, fileName, options)] *)
Definition renderImages (fileName : string) (options : RenderOptions)
    : M (list value) :=
  renderImagesLoop fileName options (expandViews (views options)) [].

(** One iteration of the frame loop shared by [renderVideo] ([settle] = 50,
    [pad] = 6, [omit] = options.transparent) and [renderGIF]
    ([settle] = 100, [pad] = 4, [omit] = false). *)
Definition captureFrame (settle pad : nat) (omit : bool)
    (frameDir : string) (angleStep : Q) (frame : nat) : M unit :=
  let angle := (Qofnat frame * angleStep)%Q in
  call env (RotateCameraToAngle angle) ;;;
  call env (WaitForTimeout settle) ;;;
  call env (Screenshot "png" None omit) ;;;
  let framePath :=
    path_join frameDir ("frame_" +:+ padStart pad (pretty frame) +:+ ".png") in
  call env (WriteFile framePath) ;;;
  ret tt.
End Capture.

(** Iterations left in [for (frame; frame < totalFrames; frame++)]. *)
Definition framesLeft (totalFrames : Q) (frame : nat) : nat :=
  Z.to_nat (Qceiling totalFrames) - frame.

(** The frame loop [for (let frame = ...; frame < totalFrames; frame++)]:
    the first failing frame aborts the sequence. *)
Equations captureFrames (env : Env) (settle pad : nat) (omit : bool)
    (frameDir : string) (totalFrames angleStep : Q) (frame : nat) (w : World)
    : res unit * World
    by wf (framesLeft totalFrames frame) lt :=
  captureFrames env settle pad omit frameDir totalFrames angleStep frame w
    with Qlt_le_dec (Qofnat frame) totalFrames := {
    | left Hlt
        with captureFrame env settle pad omit frameDir angleStep frame w := {
        | (Ret _, w1) =>
            captureFrames env settle pad omit frameDir totalFrames angleStep
                          (S frame) w1
        | (Throw msg, w1) => (Throw msg, w1) }
    | right _ => (Ret tt, w) }.
Next Obligation.
  intros. unfold framesLeft, Qofnat in *.
  assert (Hc : (totalFrames <= inject_Z (Qceiling totalFrames))%Q)
    by apply Qle_ceiling.
  assert (Hz : (Z.of_nat frame < Qceiling totalFrames)%Z).
  { rewrite Zlt_Qlt. eapply Qlt_le_trans; eassumption. }
  lia.
Qed.

Section Render.
Context (env : Env).

(** [renderVideo(page, fileName, options)] *)
Definition renderVideo (fileName : string) (options : RenderOptions)
    : M value :=
  now <- dateNow env ;;
  let frameDir := path_join (storage_temp env) ("frames_" +:+ pretty now) in
  call env (EnsureDir frameDir) ;;;
  tryCatch
    (let totalFrames := (duration options * fps options)%Q in
     let angleStep := (360 / totalFrames)%Q in
     captureFrames env 50 6 (transparent options) frameDir
                   totalFrames angleStep 0 ;;;
     let outputFileName := path_name env fileName +:+ "_turntable.mp4" in
     let outputPath := path_join (storage_renders env) outputFileName in
     call env (ConvertFramesToVideo frameDir outputPath (fps options)) ;;;
     call env (Remove frameDir) ;;;
     size <- call env (Stat outputPath) ;;
     ret (VObj [("type", VStr "video"); ("fileName", VStr outputFileName);
                ("path", VStr outputPath); ("size", VNat size);
                ("duration", VNum (duration options));
                ("fps", VNum (fps options));
                ("frames", VNum totalFrames)]))
    (fun error =>
       swallow (call env (Remove frameDir)) ;;;
       throw error).

(** The clamped options of a GIF job: at most 3 s at 15 fps. *)
Definition gifOptions (options : RenderOptions) : RenderOptions :=
  {| width := width options; height := height options;
     format := format options; quality := quality options;
     views := views options; transparent := transparent options;
     turntable := turntable options;
     duration := Math_min (duration options) 3;
     fps := Math_min (fps options) 15;
     preset := preset options;
     postProcessing := postProcessing options |}.

(** [renderGIF(page, fileName, options)] *)
Definition renderGIF (fileName : string) (options : RenderOptions)
    : M value :=
  let gifOptions := gifOptions options in
  now <- dateNow env ;;
  let frameDir := path_join (storage_temp env) ("gif_frames_" +:+ pretty now) in
  call env (EnsureDir frameDir) ;;;
  tryCatch
    (let totalFrames := (duration gifOptions * fps gifOptions)%Q in
     let angleStep := (360 / totalFrames)%Q in
     captureFrames env 100 4 false frameDir totalFrames angleStep 0 ;;;
     let outputFileName := path_name env fileName +:+ "_animated.gif" in
     let outputPath := path_join (storage_renders env) outputFileName in
     call env (ConvertFramesToGIF frameDir outputPath (fps gifOptions)) ;;;
     call env (Remove frameDir) ;;;
     size <- call env (Stat outputPath) ;;
     ret (VObj [("type", VStr "gif"); ("fileName", VStr outputFileName);
                ("path", VStr outputPath); ("size", VNat size);
                ("duration", VNum (duration gifOptions));
                ("fps", VNum (fps gifOptions));
                ("frames", VNum totalFrames)]))
    (fun error =>
       swallow (call env (Remove frameDir)) ;;;
       throw error).

(** The three rendering modes of [renderGLB]. *)
Inductive Mode : Type := VideoMode | GifMode | StillMode.

Definition modeOf (options : RenderOptions) : Mode :=
  if String.eqb (format options) "mp4" || turntable options then VideoMode
  else if String.eqb (format options) "gif"
          || bool_decide ("animated" ∈ views options) then GifMode
  else StillMode.

(** Everything [renderGLB] does with the fresh page before it captures:
    viewport, viewer page, model, render settings. *)
Definition preparePage (fileName : string) (options : RenderOptions)
    : M unit :=
  let '(vw, vh) :=
    getViewportFromPreset (preset options) (width options) (height options) in
  call env (SetViewport vw vh) ;;;
  call env (Goto "http://localhost:3000/viewer/glb-viewer.html") ;;;
  call env WaitForThree ;;;
  call env (LoadGLBModel ("/storage/uploads/" +:+ fileName)) ;;;
  call env WaitForModelLoaded ;;;
  call env ApplyRenderSettings ;;;
  ret tt.

(** The mode switch of [renderGLB]; the value is the [results] array. *)
Definition capture (fileName : string) (options : RenderOptions)
    : M (list value) :=
  match modeOf options with
  | VideoMode =>
      videoResult <- renderVideo fileName options ;; ret [videoResult]
  | GifMode =>
      gifResult <- renderGIF fileName options ;; ret [gifResult]
  | StillMode => renderImages env fileName options
  end.

(** [renderGLB(fileName, options)].  [page] stays [null] when
    [browser.newPage()] throws, and then [finally] closes nothing. *)
Definition renderGLB (r : Renderer) (fileName : string)
    (options : RenderOptions) : M value :=
  if negb (isInitialized r) || negb (browser r)
  then throw "Puppeteer not initialized"
  else
    startTime <- dateNow env ;;
    call env NewPage ;;;
    tryFinally
      (preparePage fileName options ;;;
       results <- capture fileName options ;;
       endTime <- dateNow env ;;
       ret (VObj [("success", VBool true);
                  ("results", VArr results);
                  ("duration", VNum (inject_Z (Z.of_nat endTime - Z.of_nat startTime)));
                  ("options", optionsValue options)]))
      (call env ClosePage ;;; ret tt).
End Render.

(** ** JobQueue: jobs *)

Inductive Status : Type := pending | processing | completed | failed | cancelled.

Global Instance Status_eq_dec : EqDecision Status.
Proof. solve_decision. Defined.

(** What the server hands to [addJob]: [{ type, fileName, options }] for a
    render job, [{ type, files, options }] for a batch job. *)
Record JobData : Type := {
  data_type : string;
  data_fileName : string;
  data_files : list string;
  data_options : RenderOptions
}.

Module Job.
Record t : Type := {
  id : string;
  type : string;
  fileName : string;
  files : list string;
  options : RenderOptions;
  status : Status;
  createdAt : nat;
  startedAt : option nat;
  completedAt : option nat;
  progress : Q;
  result : value;
  error : value
}.

Definition with_status (st : Status) (j : t) : t :=
  {| id := id j; type := type j; fileName := fileName j; files := files j;
     options := options j; status := st; createdAt := createdAt j;
     startedAt := startedAt j; completedAt := completedAt j;
     progress := progress j; result := result j; error := error j |}.

Definition with_startedAt (d : nat) (j : t) : t :=
  {| id := id j; type := type j; fileName := fileName j; files := files j;
     options := options j; status := status j; createdAt := createdAt j;
     startedAt := Some d; completedAt := completedAt j;
     progress := progress j; result := result j; error := error j |}.

Definition with_completedAt (d : nat) (j : t) : t :=
  {| id := id j; type := type j; fileName := fileName j; files := files j;
     options := options j; status := status j; createdAt := createdAt j;
     startedAt := startedAt j; completedAt := Some d;
     progress := progress j; result := result j; error := error j |}.

Definition with_progress (p : Q) (j : t) : t :=
  {| id := id j; type := type j; fileName := fileName j; files := files j;
     options := options j; status := status j; createdAt := createdAt j;
     startedAt := startedAt j; completedAt := completedAt j;
     progress := p; result := result j; error := error j |}.

Definition with_result (v : value) (j : t) : t :=
  {| id := id j; type := type j; fileName := fileName j; files := files j;
     options := options j; status := status j; createdAt := createdAt j;
     startedAt := startedAt j; completedAt := completedAt j;
     progress := progress j; result := v; error := error j |}.

Definition with_error (v : value) (j : t) : t :=
  {| id := id j; type := type j; fileName := fileName j; files := files j;
     options := options j; status := status j; createdAt := createdAt j;
     startedAt := startedAt j; completedAt := completedAt j;
     progress := progress j; result := result j; error := v |}.
End Job.

(** The job object literal built by [addJob]. *)
Definition newJob (jobId : string) (now : nat) (jobData : JobData) : Job.t :=
  {| Job.id := jobId;
     Job.type := data_type jobData;
     Job.fileName := data_fileName jobData;
     Job.files := data_files jobData;
     Job.options := data_options jobData;
     Job.status := pending;
     Job.createdAt := now;
     Job.startedAt := None;
     Job.completedAt := None;
     Job.progress := 0;
     Job.result := VNull;
     Job.error := VNull |}.

(** ** JobQueue: state

    Job objects are shared between [this.jobs] and [this.queue], so they
    live in a [heap] and both containers hold references (indices into the
    heap, in order of creation).  [tasks] and [sleepers] are the suspended
    activations of the [async] methods: a [processJob] waiting for its job
    body, a [processQueue] waiting in [sleep(1000)]. *)

Inductive Task : Type :=
| TRender (job : nat)
| TBatch (job : nat) (i : nat) (results : list value).

Definition taskJob (t : Task) : nat :=
  match t with
  | TRender l => l
  | TBatch l _ _ => l
  end.

Definition isRenderTask (l : nat) (t : Task) : bool :=
  match t with
  | TRender l' => Nat.eqb l' l
  | TBatch _ _ _ => false
  end.

Inductive Emitted : Type :=
| jobAdded | jobStarted | jobProgress | jobCompleted | jobFailed | jobCancelled.

Global Instance Emitted_eq_dec : EqDecision Emitted.
Proof. solve_decision. Defined.

Record JobQueue : Type := {
  heap : list Job.t;
  jobs : gmap string nat;
  queue : list nat;
  isProcessing : bool;
  concurrency : Z;
  activeJobs : Z;
  renderer : option Renderer;
  tasks : list Task;
  sleepers : nat;
  emitted : list (Emitted * nat)
}.

(** [new JobQueue()] *)
Definition constructor : JobQueue :=
  {| heap := []; jobs := ∅; queue := []; isProcessing := false;
     concurrency := 2; activeJobs := 0; renderer := None;
     tasks := []; sleepers := 0; emitted := [] |}.

Definition set_heap (h : list Job.t) (s : JobQueue) : JobQueue :=
  {| heap := h; jobs := jobs s; queue := queue s;
     isProcessing := isProcessing s; concurrency := concurrency s;
     activeJobs := activeJobs s; renderer := renderer s; tasks := tasks s;
     sleepers := sleepers s; emitted := emitted s |}.

Definition set_jobs (m : gmap string nat) (s : JobQueue) : JobQueue :=
  {| heap := heap s; jobs := m; queue := queue s;
     isProcessing := isProcessing s; concurrency := concurrency s;
     activeJobs := activeJobs s; renderer := renderer s; tasks := tasks s;
     sleepers := sleepers s; emitted := emitted s |}.

Definition set_queue (q : list nat) (s : JobQueue) : JobQueue :=
  {| heap := heap s; jobs := jobs s; queue := q;
     isProcessing := isProcessing s; concurrency := concurrency s;
     activeJobs := activeJobs s; renderer := renderer s; tasks := tasks s;
     sleepers := sleepers s; emitted := emitted s |}.

Definition set_isProcessing (b : bool) (s : JobQueue) : JobQueue :=
  {| heap := heap s; jobs := jobs s; queue := queue s;
     isProcessing := b; concurrency := concurrency s;
     activeJobs := activeJobs s; renderer := renderer s; tasks := tasks s;
     sleepers := sleepers s; emitted := emitted s |}.

Definition set_activeJobs (n : Z) (s : JobQueue) : JobQueue :=
  {| heap := heap s; jobs := jobs s; queue := queue s;
     isProcessing := isProcessing s; concurrency := concurrency s;
     activeJobs := n; renderer := renderer s; tasks := tasks s;
     sleepers := sleepers s; emitted := emitted s |}.

Definition set_renderer (r : option Renderer) (s : JobQueue) : JobQueue :=
  {| heap := heap s; jobs := jobs s; queue := queue s;
     isProcessing := isProcessing s; concurrency := concurrency s;
     activeJobs := activeJobs s; renderer := r; tasks := tasks s;
     sleepers := sleepers s; emitted := emitted s |}.

Definition set_tasks (ts : list Task) (s : JobQueue) : JobQueue :=
  {| heap := heap s; jobs := jobs s; queue := queue s;
     isProcessing := isProcessing s; concurrency := concurrency s;
     activeJobs := activeJobs s; renderer := renderer s; tasks := ts;
     sleepers := sleepers s; emitted := emitted s |}.

Definition set_sleepers (n : nat) (s : JobQueue) : JobQueue :=
  {| heap := heap s; jobs := jobs s; queue := queue s;
     isProcessing := isProcessing s; concurrency := concurrency s;
     activeJobs := activeJobs s; renderer := renderer s; tasks := tasks s;
     sleepers := n; emitted := emitted s |}.

(** [this.emit(name, job)]: the service registers no listener, so emitting
    only leaves a trace. *)
Definition emit (e : Emitted) (l : nat) (s : JobQueue) : JobQueue :=
  {| heap := heap s; jobs := jobs s; queue := queue s;
     isProcessing := isProcessing s; concurrency := concurrency s;
     activeJobs := activeJobs s; renderer := renderer s; tasks := tasks s;
     sleepers := sleepers s; emitted := emitted s ++ [(e, l)] |}.

(** Mutation of the job object behind reference [l]. *)
Definition updateJob (l : nat) (f : Job.t -> Job.t) (s : JobQueue) : JobQueue :=
  set_heap (alter f l (heap s)) s.

(** [this.jobs.set(job.id, job)] for the job behind reference [l]. *)
Definition jobs_set (l : nat) (s : JobQueue) : JobQueue :=
  match heap s !! l with
  | Some job => set_jobs (<[Job.id job := l]> (jobs s)) s
  | None => s
  end.

(** [getJob(jobId)] *)
Definition getJob (jobId : string) (s : JobQueue) : option Job.t :=
  l ← jobs s !! jobId; heap s !! l.

(** ** JobQueue: methods, cut at their [await] points *)

(** The success path of [processJob] after its [await], with [finally]. *)
Definition jobCompletes (now l : nat) (result : value) (s : JobQueue) : JobQueue :=
  let s := updateJob l (fun job =>
             Job.with_result result
               (Job.with_progress 100
                  (Job.with_completedAt now (Job.with_status completed job)))) s in
  let s := jobs_set l s in
  let s := emit jobCompleted l s in
  set_activeJobs (activeJobs s - 1) s.

(** The [catch] block of [processJob], with [finally]. *)
Definition jobFails (now l : nat) (message : string) (s : JobQueue) : JobQueue :=
  let s := updateJob l (fun job =>
             Job.with_error (VStr message)
               (Job.with_completedAt now (Job.with_status failed job))) s in
  let s := jobs_set l s in
  let s := emit jobFailed l s in
  set_activeJobs (activeJobs s - 1) s.

(** [progressCallback(progress)] of [processRenderJob]. *)
Definition progressCallback (l : nat) (progress : Q) (s : JobQueue) : JobQueue :=
  let s := updateJob l (Job.with_progress (Math_min progress 95)) s in
  let s := jobs_set l s in
  emit jobProgress l s.

(** Top of iteration [i] of the loop of [processBatchJob], up to the
    [await] on the render of [files[i]]; past the last file the method
    returns and [processJob] waits for that value. *)
Definition batchNext (l i : nat) (results : list value) (s : JobQueue) : JobQueue :=
  match heap s !! l with
  | None => s
  | Some job =>
      let totalFiles := length (Job.files job) in
      if (i <? totalFiles)%nat then
        let s := updateJob l (Job.with_progress
                   (Math_floor (Qofnat i / Qofnat totalFiles * 95))) s in
        let s := jobs_set l s in
        let s := emit jobProgress l s in
        set_tasks (tasks s ++ [TBatch l i results]) s
      else set_tasks (tasks s ++ [TBatch l i results]) s
  end.

(** The value returned by [processBatchJob]. *)
Definition isSuccess (r : value) : bool :=
  match getField "success" r with
  | VBool true => true
  | _ => false
  end.

Definition batchResult (totalFiles : nat) (results : list value) : value :=
  VObj [("type", VStr "batch"); ("totalFiles", VNat totalFiles);
        ("results", VArr results);
        ("successful", VNat (length (filter (fun r => isSuccess r = true) results)));
        ("failed", VNat (length (filter (fun r => isSuccess r <> true) results)))].

(** [processJob(job)] up to its [await]: an unknown job type throws inside
    the [try], so that job fails before the method ever suspends. *)
Definition processJob (now l : nat) (s : JobQueue) : JobQueue :=
  let s := set_activeJobs (activeJobs s + 1) s in
  let s := updateJob l (fun job =>
             Job.with_startedAt now (Job.with_status processing job)) s in
  let s := jobs_set l s in
  let s := emit jobStarted l s in
  match heap s !! l with
  | None => s
  | Some job =>
      if String.eqb (Job.type job) "render"
      then set_tasks (tasks s ++ [TRender l]) s
      else if String.eqb (Job.type job) "batch"
      then batchNext l 0 [] s
      else jobFails now l ("Unknown job type: " +:+ Job.type job) s
  end.

Definition inspect {A : Type} (a : A) : {b : A | a = b} := exist _ a eq_refl.

(** The inner loop of [processQueue]:
    [while (this.activeJobs < this.concurrency && this.queue.length > 0)]. *)
Equations dispatch (now : nat) (s : JobQueue) : JobQueue
    by wf (length (queue s)) lt :=
  dispatch now s with Z_lt_dec (activeJobs s) (concurrency s) := {
    | left _ with inspect (queue s) := {
        | exist _ [] _ => s
        | exist _ (job :: rest) Hq =>
            dispatch now (processJob now job (set_queue rest s)) }
    | right _ => s }.
Next Obligation.
  intros.
  assert (Hsame : queue (processJob now job (set_queue rest s)) = rest).
  { unfold processJob, batchNext, jobFails, jobs_set, updateJob; simpl.
    repeat (case_match; simpl; try reflexivity). }
  rewrite Hsame, Hq. simpl. lia.
Qed.

(** [processQueue()] from the test of its outer [while] to the next
    [await this.sleep(1000)], or to its end. *)
Definition processQueueLoop (now : nat) (s : JobQueue) : JobQueue :=
  if isProcessing s
     && (bool_decide (0 < length (queue s)) || bool_decide (0 < activeJobs s)%Z)
  then
    let s := dispatch now s in
    set_sleepers (S (sleepers s)) s
  else set_isProcessing false s.

(** [processQueue()], called. *)
Definition processQueue (now : nat) (s : JobQueue) : JobQueue :=
  match renderer s with
  | None => s
  | Some _ => processQueueLoop now (set_isProcessing true s)
  end.

(** A [sleep(1000)] of [processQueue] elapses. *)
Definition wake (now : nat) (s : JobQueue) : JobQueue :=
  processQueueLoop now (set_sleepers (pred (sleepers s)) s).

(** [start(renderer)] *)
Definition start (now : nat) (r : Renderer) (s : JobQueue) : JobQueue :=
  processQueue now (set_renderer (Some r) s).

(** [stop()] *)
Definition stop (s : JobQueue) : JobQueue := set_isProcessing false s.

(** [addJob(jobData)], with the identifier drawn by [uuidv4()]. *)
Definition addJob (jobId : string) (now : nat) (jobData : JobData)
    (s : JobQueue) : string * JobQueue :=
  let job := newJob jobId now jobData in
  let l := length (heap s) in
  let s := set_heap (heap s ++ [job]) s in
  let s := set_jobs (<[jobId := l]> (jobs s)) s in
  let s := set_queue (queue s ++ [l]) s in
  let s := emit jobAdded l s in
  let s := if isProcessing s then s else processQueue now s in
  (jobId, s).

(** [this.queue.findIndex(j => j.id === jobId)] *)
Definition queueFindIndex (jobId : string) (s : JobQueue) : option nat :=
  fst <$> list_find (fun l => Job.id <$> heap s !! l = Some jobId) (queue s).

(** [cancelJob(jobId)] *)
Definition cancelJob (jobId : string) (now : nat) (s : JobQueue)
    : bool * JobQueue :=
  match jobs s !! jobId with
  | None => (false, s)
  | Some l =>
      match heap s !! l with
      | None => (false, s)
      | Some job =>
          if decide (Job.status job = pending) then
            let s := match queueFindIndex jobId s with
                     | Some queueIndex => set_queue (delete queueIndex (queue s)) s
                     | None => s
                     end in
            let s := updateJob l (fun job =>
                       Job.with_completedAt now (Job.with_status cancelled job)) s in
            let s := set_jobs (<[jobId := l]> (jobs s)) s in
            let s := emit jobCancelled l s in
            (true, s)
          else (false, s)
      end
  end.

(** [cleanup(maxAge)] *)
Definition isOld (s : JobQueue) (cutoff : Z) (l : nat) : Prop :=
  match heap s !! l with
  | Some job =>
      match Job.completedAt job with
      | Some d => (Z.of_nat d < cutoff)%Z
      | None => False
      end
  | None => False
  end.

Global Instance isOld_dec s cutoff l : Decision (isOld s cutoff l).
Proof. unfold isOld. repeat case_match; apply _. Defined.

Definition cleanup (maxAge now : nat) (s : JobQueue) : nat * JobQueue :=
  let cutoff := (Z.of_nat now - Z.of_nat maxAge)%Z in
  let kept := filter (fun kv => ~ isOld s cutoff (snd kv)) (jobs s) in
  (size (jobs s) - size kept, set_jobs kept s).

(** [this.renderer.renderGLB(fileName, options)] *)
Definition rendererRenderGLB (env : Env) (s : JobQueue) (fileName : string)
    (options : RenderOptions) : M value :=
  match renderer s with
  | Some r => renderGLB env r fileName options
  | None => throw "Cannot read properties of null (reading 'renderGLB')"
  end.

(** The continuation of the suspended [processJob] of job [l]: the awaited
    render settles, and the job either completes, fails, or (batch) moves on
    to its next file.  The render itself runs here in one piece, and for a
    render job the tail of [processRenderJob] ([job.progress = 100]) and the
    tail of [processJob] are taken together. *)
Definition resume (env : Env) (now l : nat) (sys : JobQueue * World)
    : option (JobQueue * World) :=
  let '(s, w) := sys in
  match list_find (fun t => taskJob t = l) (tasks s) with
  | None => None
  | Some (k, t) =>
      let s := set_tasks (delete k (tasks s)) s in
      match heap s !! l with
      | None => None
      | Some job =>
          match t with
          | TRender _ =>
              match rendererRenderGLB env s (Job.fileName job) (Job.options job) w with
              | (Ret result, w1) =>
                  let s := updateJob l (Job.with_progress 100) s in
                  let s := jobs_set l s in
                  Some (jobCompletes now l result s, w1)
              | (Throw message, w1) => Some (jobFails now l message s, w1)
              end
          | TBatch _ i results =>
              match Job.files job !! i with
              | Some fileName =>
                  let '(r, w1) :=
                    rendererRenderGLB env s fileName (Job.options job) w in
                  let entry :=
                    match r with
                    | Ret renderResult =>
                        VObj [("fileName", VStr fileName);
                              ("success", VBool true);
                              ("result", renderResult)]
                    | Throw message =>
                        VObj [("fileName", VStr fileName);
                              ("success", VBool false);
                              ("error", VStr message)]
                    end in
                  Some (batchNext l (S i) (results ++ [entry]) s, w1)
              | None =>
                  Some (jobCompletes now l
                          (batchResult (length (Job.files job)) results) s, w)
              end
          end
      end
  end.

(** ** The scheduler as a transition system *)

(** What can happen to the queue: the calls of the server ([start], [stop],
    [addJob], [cancelJob], [cleanup]), a [sleep(1000)] that elapses, a
    renderer that reports progress through [options.progressCallback], and
    an awaited render that settles.  [now] is what [new Date()] reads
    during that transition. *)
Inductive Event : Type :=
| EvStart (now : nat) (r : Renderer)
| EvStop
| EvAddJob (uuid : string) (now : nat) (jobData : JobData)
| EvCancelJob (jobId : string) (now : nat)
| EvCleanup (maxAge now : nat)
| EvWake (now : nat)
| EvProgress (l : nat) (progress : Q)
| EvSettle (l : nat) (now : nat).

(** [uuidv4()] never returns an identifier it has returned before. *)
Definition freshId (uuid : string) (s : JobQueue) : bool :=
  forallb (fun job => negb (String.eqb (Job.id job) uuid)) (heap s).

(** One event; [None] when the event cannot happen in that state. *)
Definition exec (env : Env) (ev : Event) (sys : JobQueue * World)
    : option (JobQueue * World) :=
  let '(s, w) := sys in
  match ev with
  | EvStart now r => Some (start now r s, w)
  | EvStop => Some (stop s, w)
  | EvAddJob uuid now jobData =>
      if freshId uuid s then Some (snd (addJob uuid now jobData s), w) else None
  | EvCancelJob jobId now => Some (snd (cancelJob jobId now s), w)
  | EvCleanup maxAge now => Some (snd (cleanup maxAge now s), w)
  | EvWake now =>
      if bool_decide (0 < sleepers s) then Some (wake now s, w) else None
  | EvProgress l progress =>
      if existsb (isRenderTask l) (tasks s)
      then Some (progressCallback l progress s, w) else None
  | EvSettle l now => resume env now l sys
  end.

Fixpoint run (env : Env) (evs : list Event) (sys : JobQueue * World)
    : option (JobQueue * World) :=
  match evs with
  | [] => Some sys
  | ev :: rest =>
      match exec env ev sys with
      | Some sys' => run env rest sys'
      | None => None
      end
  end.

Definition emptyWorld : World := {| tick := 0; calls := []; dirs := ∅ |}.

(** The states the service can be in. *)
Definition reachable (env : Env) (sys : JobQueue * World) : Prop :=
  exists evs, run env evs (constructor, emptyWorld) = Some sys.

(** ** Observations on a run *)

(** The angles handed to [window.rotateCameraToAngle], oldest first. *)
Definition rotations (cs : list Call) : list Q :=
  omap (fun c => match c with RotateCameraToAngle a => Some a | _ => None end) cs.

Definition isScreenshot (c : Call) : bool :=
  match c with Screenshot _ _ _ => true | _ => false end.

(** Number of [page.screenshot] calls. *)
Definition screenshots (cs : list Call) : nat :=
  length (List.filter isScreenshot cs).

(** The calls of one frame of the turntable loop. *)
Definition isFrameCall (c : Call) : bool :=
  match c with
  | RotateCameraToAngle _ | WaitForTimeout _ | Screenshot _ _ _ | WriteFile _ => true
  | _ => false
  end.

(** The calls of one view of [renderImages]. *)
Definition isViewCall (c : Call) : bool :=
  match c with
  | SetCameraView _ | WaitForTimeout _ | Screenshot _ _ _ | PostProcess
  | WriteFile _ => true
  | _ => false
  end.

(** [Math.round]: to the nearest integer, halves upwards. *)
Definition Math_round (x : Q) : Z := Qfloor (x + (1 # 2)).

(** Number of iterations of [for (frame = 0; frame < totalFrames; frame++)]
    and the angle of frame [i]. *)
Definition frameCount (totalFrames : Q) : nat := Z.to_nat (Qceiling totalFrames).
Definition frameAngle (totalFrames : Q) (i : nat) : Q :=
  (Qofnat i * (360 / totalFrames))%Q.

(** Number of views whose [try] block throws in a run of the loop of
    [renderImages] from world [w]. *)
Fixpoint failedViews (env : Env) (fileName : string) (options : RenderOptions)
    (views : list string) (w : World) : nat :=
  match views with
  | [] => 0
  | view :: rest =>
      match renderView env fileName options view w with
      | (Ret _, w1) => failedViews env fileName options rest w1
      | (Throw _, w1) => S (failedViews env fileName options rest w1)
      end
  end.

(** The temporary frame directories chosen by [renderVideo] and
    [renderGIF] when they start in world [w]. *)
Definition videoFrameDir (env : Env) (w : World) : string :=
  path_join (storage_temp env) ("frames_" +:+ pretty (clock env (tick w))).
Definition gifFrameDir (env : Env) (w : World) : string :=
  path_join (storage_temp env) ("gif_frames_" +:+ pretty (clock env (tick w))).

(** [fs.remove] does what it is asked to. *)
Definition removeWorks (env : Env) : Prop :=
  forall t p, exists n, reply env t (Remove p) = Ok n.

(** The [processJob] of one job from dispatch to its terminal state, with
    nothing else in between. *)
Definition processJobToEnd (env : Env) (started finished l : nat)
    (sys : JobQueue * World) : option (JobQueue * World) :=
  resume env finished l (processJob started l (fst sys), snd sys).

(** ** Concrete hosts and jobs *)

Definition initializedRenderer : Renderer :=
  {| isInitialized := true; browser := true |}.

(** A host where every external call succeeds. *)
Definition happyEnv : Env :=
  {| reply := fun _ _ => Ok 1024;
     clock := fun t => 1000 + t;
     path_name := fun f => f;
     storage_temp := "storage/temp";
     storage_renders := "storage/renders" |}.

(** A host whose viewer cannot place the camera for [top] and [bottom]. *)
Definition twoViewsDownEnv : Env :=
  {| reply := fun _ c =>
       match c with
       | SetCameraView "top" | SetCameraView "bottom" => Fail "camera failed"
       | _ => Ok 1024
       end;
     clock := fun t => 1000 + t;
     path_name := fun f => f;
     storage_temp := "storage/temp";
     storage_renders := "storage/renders" |}.

(** A host where no screenshot can be taken. *)
Definition noScreenshotEnv : Env :=
  {| reply := fun _ c =>
       match c with
       | Screenshot _ _ _ => Fail "screenshot failed"
       | _ => Ok 1024
       end;
     clock := fun t => 1000 + t;
     path_name := fun f => f;
     storage_temp := "storage/temp";
     storage_renders := "storage/renders" |}.

(** A host where the screenshot attempted as external call number [t0]
    fails; in a turntable render started in the empty world the screenshot
    of frame [i] is call number [4 * i + 3]. *)
Definition failingScreenshotEnv (t0 : nat) : Env :=
  {| reply := fun t c =>
       match c with
       | Screenshot _ _ _ =>
           if Nat.eqb t t0 then Fail "screenshot failed" else Ok 1024
       | _ => Ok 1024
       end;
     clock := fun t => 1000 + t;
     path_name := fun f => f;
     storage_temp := "storage/temp";
     storage_renders := "storage/renders" |}.

Definition stillOptions (vs : list string) : RenderOptions :=
  {| width := 1920; height := 1080; format := "png"; quality := 90;
     views := vs; transparent := false; turntable := false;
     duration := 5; fps := 30; preset := "high"; postProcessing := false |}.

Definition animatedOptions (fmt : string) (d f : Q) : RenderOptions :=
  {| width := 1920; height := 1080; format := fmt; quality := 90;
     views := ["perspective"]; transparent := false; turntable := false;
     duration := d; fps := f; preset := "high"; postProcessing := false |}.

Definition renderJobData (o : RenderOptions) : JobData :=
  {| data_type := "render"; data_fileName := "model.glb";
     data_files := []; data_options := o |}.

Local Open Scope list_scope.

(** ** Assumptions on the host used in the statements *)

(** Every call of the turntable frame loop succeeds. *)
Definition framesOk (env : Env) : Prop :=
  forall t c, isFrameCall c = true -> exists n, reply env t c = Ok n.

(** The temporary directory can be created and every frame is captured. *)
Definition captureCallsOk (env : Env) : Prop :=
  forall t c, isFrameCall c = true \/ (exists p, c = EnsureDir p) ->
              exists n, reply env t c = Ok n.

(** Everything outside the per-view loop of [renderImages] succeeds: page
    creation, preparation and close. *)
Definition othersOk (env : Env) : Prop :=
  forall t c, isViewCall c = false -> exists n, reply env t c = Ok n.

(** The world in which [renderGLB], started in [w], enters its mode switch. *)
Definition worldAtCapture (env : Env) (fileName : string)
    (options : RenderOptions) (w : World) : World :=
  snd (preparePage env fileName options (snd (call env NewPage w))).

(** The object [renderGLB] returns in still mode. *)
Definition stillResult (artifacts : list value) (d : Q) (options : RenderOptions)
    : value :=
  VObj [("success", VBool true); ("results", VArr artifacts);
        ("duration", VNum d); ("options", optionsValue options)].

(** The job object once [processJob] has marked it as started, the queue
    once [processJob] has reached its [switch], and the job object once
    [processJob] has recorded the result. *)
Definition startedJob (started : nat) (job : Job.t) : Job.t :=
  Job.with_startedAt started (Job.with_status processing job).

Definition afterStart (started l : nat) (s : JobQueue) : JobQueue :=
  emit jobStarted l
    (jobs_set l
       (updateJob l (startedJob started)
          (set_activeJobs (activeJobs s + 1) s))).

Definition completedJob (finished : nat) (result : value) (job : Job.t) : Job.t :=
  Job.with_result result
    (Job.with_progress 100
       (Job.with_completedAt finished (Job.with_status completed job))).

(** A job field holds something: neither [null] nor [undefined]. *)
Definition populated (v : value) : Prop := v <> VNull /\ v <> VUndefined.

(** ** Invariant of the scheduler *)

Definition taskJobs (s : JobQueue) : list nat := taskJob <$> tasks s.

Definition isObject (v : value) : Prop :=
  match v with VObj _ => True | _ => False end.
Definition isString (v : value) : Prop :=
  match v with VStr _ => True | _ => False end.

(** Number of job objects whose status is [processing]. *)
Definition processingCount (h : list Job.t) : nat :=
  length (filter (fun job => Job.status job = processing) h).

Definition procZ (job : Job.t) : Z :=
  if decide (Job.status job = processing) then 1%Z else 0%Z.

(** What [progress], [result] and [error] hold in each status. *)
Definition JobContent (job : Job.t) : Prop :=
  match Job.status job with
  | completed =>
      Job.progress job = 100%Q /\ isObject (Job.result job) /\ Job.error job = VNull
  | failed =>
      (Job.progress job <= 95)%Q /\ Job.result job = VNull /\ isString (Job.error job)
  | processing =>
      (Job.progress job <= 95)%Q /\ Job.result job = VNull /\ Job.error job = VNull
  | pending | cancelled =>
      Job.progress job = 0%Q /\ Job.result job = VNull /\ Job.error job = VNull
  end.

(** [this.jobs] maps identifiers to live job objects carrying that
    identifier. *)
Definition JobsOk (h : list Job.t) (m : gmap string nat) : Prop :=
  forall jobId l, m !! jobId = Some l ->
    exists job, h !! l = Some job /\ Job.id job = jobId.

Definition JOk (s : JobQueue) : Prop := JobsOk (heap s) (jobs s).

Record Inv (s : JobQueue) : Prop := {
  inv_active_le : (activeJobs s <= concurrency s)%Z;
  inv_active : activeJobs s = Z.of_nat (processingCount (heap s));
  inv_content : forall l job, heap s !! l = Some job -> JobContent job;
  inv_pending : forall l job, heap s !! l = Some job ->
      (l ∈ queue s <-> Job.status job = pending);
  inv_processing : forall l job, heap s !! l = Some job ->
      (l ∈ taskJobs s <-> Job.status job = processing);
  inv_queue_sorted : StronglySorted lt (queue s);
  inv_queue_bound : forall l, l ∈ queue s -> l < length (heap s);
  inv_tasks_nodup : NoDup (taskJobs s);
  inv_tasks_bound : forall l, l ∈ taskJobs s -> l < length (heap s);
  inv_ids : forall l l' job job',
      heap s !! l = Some job -> heap s !! l' = Some job' ->
      Job.id job = Job.id job' -> l = l';
  inv_jobs : JobsOk (heap s) (jobs s)
}.

(** ** Dispatch order, read off the emitted events *)

Definition isAdded (e : Emitted * nat) : Prop := e.1 = jobAdded.
Global Instance isAdded_dec e : Decision (isAdded e).
Proof. unfold isAdded. apply _. Defined.

(** [jobAdded A] is emitted before [jobAdded B]: job [A] was submitted
    before job [B]. *)
Definition addedBefore (A B : nat) (log : list (Emitted * nat)) : Prop :=
  exists l1 l2 l3, log = l1 ++ (jobAdded, A) :: l2 ++ (jobAdded, B) :: l3.

(** Whenever a job is started, every job created before it has already been
    started or cancelled. *)
Definition FifoLog (log : list (Emitted * nat)) : Prop :=
  forall pre post B, log = pre ++ (jobStarted, B) :: post ->
    forall A, A < B -> (jobStarted, A) ∈ pre \/ (jobCancelled, A) ∈ pre.

(** Events that neither create nor start a job. *)
Definition quiet (e : Emitted * nat) : Prop :=
  e.1 <> jobAdded /\ e.1 <> jobStarted.

Record LogInv (s : JobQueue) : Prop := {
  log_added : filter isAdded (emitted s)
              = (fun l => (jobAdded, l)) <$> seq 0 (length (heap s));
  log_fifo : FifoLog (emitted s);
  log_gone : forall l, l < length (heap s) ->
      l ∈ queue s \/ (jobStarted, l) ∈ emitted s \/ (jobCancelled, l) ∈ emitted s
}.

(** ** Scenarios *)

(** One render job submitted to a queue that has its renderer but has not
    dispatched yet. *)
Definition pendingState (o : RenderOptions) : JobQueue :=
  set_renderer (Some initializedRenderer)
    (snd (addJob "job-1" 1 (renderJobData o) constructor)).

Definition stateAfter (env : Env) (evs : list Event) : JobQueue * World :=
  default (constructor, emptyWorld) (run env evs (constructor, emptyWorld)).

Definition cancelledEvents : list Event :=
  [EvAddJob "job-1" 1 (renderJobData (stillOptions ["front"]));
   EvCancelJob "job-1" 2].

Definition failedEvents : list Event :=
  [EvStart 0 initializedRenderer;
   EvAddJob "job-1" 1 (renderJobData (animatedOptions "mp4" 2 10));
   EvSettle 0 2].

Definition busyEvents : list Event :=
  [EvStart 0 initializedRenderer;
   EvAddJob "job-1" 1 (renderJobData (stillOptions ["front"]));
   EvAddJob "job-2" 2 (renderJobData (stillOptions ["side"]));
   EvAddJob "job-3" 3 (renderJobData (stillOptions ["top"]));
   EvWake 4].

Definition fifoEvents : list Event :=
  [EvStart 0 initializedRenderer;
   EvAddJob "job-1" 1 (renderJobData (stillOptions ["front"]));
   EvAddJob "job-2" 2 (renderJobData (stillOptions ["side"]));
   EvAddJob "job-3" 3 (renderJobData (stillOptions ["top"]));
   EvAddJob "job-4" 4 (renderJobData (stillOptions ["back"]));
   EvCancelJob "job-3" 5;
   EvWake 6;
   EvSettle 0 7;
   EvWake 8].

Definition pendingEvents : list Event :=
  [EvAddJob "job-1" 1 (renderJobData (stillOptions ["front"]))].

(** ** The specification's wording of three properties the code does not
    have *)

(** Still-mode resilience as specified: [N - K] artifacts and an error list
    of [K] entries in the result. *)
Definition stillResilienceAsSpecified (env : Env) (sys : JobQueue * World)
    (l N K : nat) : Prop :=
  exists s' w' job',
    processJobToEnd env 2 3 l sys = Some (s', w')
    /\ heap s' !! l = Some job'
    /\ Job.status job' = completed
    /\ arrayLength (getField "results" (Job.result job')) = Some (N - K)
    /\ arrayLength (getField "errors" (Job.result job')) = Some K.

(** Still-mode total failure as specified: the job ends [failed]. *)
Definition stillTotalFailureAsSpecified (env : Env) (sys : JobQueue * World)
    (l : nat) : Prop :=
  exists s' w' job',
    processJobToEnd env 2 3 l sys = Some (s', w')
    /\ heap s' !! l = Some job'
    /\ Job.status job' = failed.

(** The terminal-state invariant as specified: exactly one of [result] and
    [error], and [progress = 100] exactly for [completed] and [failed]. *)
Definition terminalFieldsAsSpecified (job : Job.t) : Prop :=
  (populated (Job.result job) /\ ~ populated (Job.error job)
   \/ ~ populated (Job.result job) /\ populated (Job.error job))
  /\ ((Job.progress job == 100)%Q
      <-> Job.status job = completed \/ Job.status job = failed).

(** ** Observations on the calls of a render *)

(** The external calls made between two worlds. *)
Definition newCalls (w w' : World) : list Call :=
  drop (length (calls w)) (calls w').

(** Creation and disposal of the browser page. *)
Definition isPageCall (c : Call) : bool :=
  match c with NewPage | ClosePage => true | _ => false end.

(** Creation and removal of a directory. *)
Definition isDirCall (c : Call) : bool :=
  match c with EnsureDir _ | Remove _ => true | _ => false end.

(** The calls of [renderVideo], of [renderGIF], and of the page set-up at
    the start of [renderGLB]. *)
Definition isVideoCall (c : Call) : bool :=
  match c with
  | EnsureDir _ | Remove _ | ConvertFramesToVideo _ _ _ | Stat _ => true
  | _ => isFrameCall c
  end.

Definition isGifCall (c : Call) : bool :=
  match c with
  | EnsureDir _ | Remove _ | ConvertFramesToGIF _ _ _ | Stat _ => true
  | _ => isFrameCall c
  end.

Definition isPrepareCall (c : Call) : bool :=
  match c with
  | SetViewport _ _ | Goto _ | WaitForThree | LoadGLBModel _
  | WaitForModelLoaded | ApplyRenderSettings => true
  | _ => false
  end.

(** The calls the capture of each mode is made of. *)
Definition isModeCall (m : Mode) (c : Call) : bool :=
  match m with
  | VideoMode => isVideoCall c
  | GifMode => isGifCall c
  | StillMode => isViewCall c
  end.

(** A computation that makes only calls satisfying [P]; when none of them
    creates or removes a directory, the directories stay as they are. *)
Definition only {A} (P : Call -> bool) (m : M A) : Prop :=
  forall w, exists ext,
    calls (snd (m w)) = calls w ++ ext
    /\ forallb P ext = true
    /\ (existsb isDirCall ext = false -> dirs (snd (m w)) = dirs w).

(** Calls that no render of mode [m] makes. *)
Definition foreignCall (m : Mode) (c : Call) : bool :=
  match m, c with
  | StillMode, (EnsureDir _ | Remove _ | RotateCameraToAngle _
               | ConvertFramesToVideo _ _ _ | ConvertFramesToGIF _ _ _ | Stat _) => true
  | VideoMode, (SetCameraView _ | PostProcess | ConvertFramesToGIF _ _ _) => true
  | GifMode, (SetCameraView _ | PostProcess | ConvertFramesToVideo _ _ _) => true
  | _, _ => false
  end.

(** The two [ffmpeg] runs. *)
Definition isEncodeCall (c : Call) : bool :=
  match c with
  | ConvertFramesToVideo _ _ _ | ConvertFramesToGIF _ _ _ => true
  | _ => false
  end.

(** The four external calls of frame [i] of a turntable loop. *)
Definition frameCalls (settle pad : nat) (omit : bool) (frameDir : string)
    (angleStep : Q) (i : nat) : list Call :=
  [RotateCameraToAngle (Qofnat i * angleStep);
   WaitForTimeout settle;
   Screenshot "png" None omit;
   WriteFile (path_join frameDir
                ("frame_" +:+ padStart pad (pretty i) +:+ ".png"))].

(** The external calls of a turntable or GIF render that returns a result:
    the directory, every frame in order, the encoder, the clean-up, the
    size of the output. *)
Definition turntableCalls (settle pad : nat) (omit : bool) (frameDir : string)
    (totalFrames : Q) (encode : Call) (outputPath : string) : list Call :=
  EnsureDir frameDir
  :: concat (frameCalls settle pad omit frameDir (360 / totalFrames)
               <$> seq 0 (frameCount totalFrames))
  ++ [encode; Remove frameDir; Stat outputPath].

(** [a] is the artifact [renderImages] records for [view]. *)
Definition isArtifactOf (env : Env) (fileName : string) (options : RenderOptions)
    (view : string) (a : value) : Prop :=
  let outputFileName :=
    path_name env fileName +:+ "_" +:+ view +:+ "." +:+ format options in
  getField "view" a = VStr view
  /\ getField "fileName" a = VStr outputFileName
  /\ getField "path" a = VStr (path_join (storage_renders env) outputFileName).

(** What the [results] array of a render holds in each mode: the one
    encoded file of an animation, or the artifacts of the captured views. *)
Definition resultsOfMode (env : Env) (fileName : string)
    (options : RenderOptions) (results : list value) : Prop :=
  match modeOf options with
  | VideoMode =>
      exists e, results = [e]
        /\ getField "type" e = VStr "video"
        /\ getField "path" e
           = VStr (path_join (storage_renders env)
                     (path_name env fileName +:+ "_turntable.mp4"))
        /\ getField "frames" e = VNum (duration options * fps options)
  | GifMode =>
      exists e, results = [e]
        /\ getField "type" e = VStr "gif"
        /\ getField "path" e
           = VStr (path_join (storage_renders env)
                     (path_name env fileName +:+ "_animated.gif"))
        /\ getField "frames" e
           = VNum (Math_min (duration options) 3 * Math_min (fps options) 15)
  | StillMode =>
      exists vs, sublist vs (expandViews (views options))
        /\ Forall2 (isArtifactOf env fileName options) vs results
  end.

(** ** The life of a job *)

(** What a client can observe of the queue through [getJob], [getStats] and
    the emitted events: the job objects, the registry and the event log. *)
Definition Ledger : Type :=
  list Job.t * gmap string nat * list (Emitted * nat).

Definition ledger (s : JobQueue) : Ledger := (heap s, jobs s, emitted s).

(** What [processJob] stores in [job.result]: the object returned by
    [renderGLB], or the summary returned by [processBatchJob]. *)
Definition isJobResult (v : value) : Prop :=
  (exists results d options, v = stillResult results d options)
  \/ (exists totalFiles results, v = batchResult totalFiles results).

(** The mutations the methods of [JobQueue] apply to the job behind
    reference [l], with the events they emit. *)
Inductive JobStep (now l : nat) : Job.t -> Job.t -> list (Emitted * nat) -> Prop :=
| step_started job :
    Job.status job = pending ->
    JobStep now l job (startedJob now job) [(jobStarted, l)]
| step_progress job p :
    Job.status job = processing ->
    JobStep now l job (Job.with_progress p job) [(jobProgress, l)]
| step_final_progress job p :
    Job.status job = processing ->
    JobStep now l job (Job.with_progress p job) []
| step_completed job result :
    Job.status job = processing ->
    isJobResult result ->
    JobStep now l job (completedJob now result job) [(jobCompleted, l)]
| step_failed job message :
    Job.status job = processing ->
    JobStep now l job
      (Job.with_error (VStr message)
         (Job.with_completedAt now (Job.with_status failed job)))
      [(jobFailed, l)]
| step_cancelled job :
    Job.status job = pending ->
    JobStep now l job
      (Job.with_completedAt now (Job.with_status cancelled job))
      [(jobCancelled, l)].

(** The three kinds of change of the ledger: a job is created, a job
    object is mutated and registered again, finished jobs are dropped from
    the registry; the last one only in a [sweep]. *)
Inductive Atom (sweep : bool) (now : nat) : Ledger -> Ledger -> Prop :=
| atom_added h m es uuid jobData :
    (forall l job, h !! l = Some job -> Job.id job <> uuid) ->
    Atom sweep now (h, m, es)
      (h ++ [newJob uuid now jobData], <[uuid := length h]> m,
       es ++ [(jobAdded, length h)])
| atom_job h m es l job job' ev :
    h !! l = Some job ->
    JobStep now l job job' ev ->
    Atom sweep now (h, m, es) (<[l := job']> h, <[Job.id job := l]> m, es ++ ev)
| atom_cleaned h m m' es :
    sweep = true ->
    m' ⊆ m ->
    (forall jobId l, m !! jobId = Some l -> m' !! jobId = None ->
       exists job d, h !! l = Some job /\ Job.completedAt job = Some d) ->
    Atom sweep now (h, m, es) (h, m', es).

Definition Path (sweep : bool) (now : nat) : Ledger -> Ledger -> Prop :=
  rtc (Atom sweep now).

(** The time an event reads from the clock; [d] when it reads none. *)
Definition eventTime (d : nat) (ev : Event) : nat :=
  match ev with
  | EvStart now _ | EvAddJob _ now _ | EvCancelJob _ now | EvCleanup _ now
  | EvWake now | EvSettle _ now => now
  | EvStop | EvProgress _ _ => d
  end.

(** A job that has not reached a terminal state. *)
Definition isOpen (st : Status) : bool :=
  match st with pending | processing => true | _ => false end.

(** A job that [processJob] has taken up. *)
Definition wasStarted (st : Status) : bool :=
  match st with processing | completed | failed => true | _ => false end.

(** The events of the life of a job that has reached status [st], in the
    order of their emission; progress events apart. *)
Definition lifecycle (st : Status) : list Emitted :=
  match st with
  | pending => [jobAdded]
  | processing => [jobAdded; jobStarted]
  | completed => [jobAdded; jobStarted; jobCompleted]
  | failed => [jobAdded; jobStarted; jobFailed]
  | cancelled => [jobAdded; jobCancelled]
  end.

(** The events emitted for the job behind [l], progress events apart. *)
Definition eventsOf (l : nat) (es : list (Emitted * nat)) : list Emitted :=
  fst <$> filter (fun e => e.2 = l /\ e.1 <> jobProgress) es.

(** What the ledger of a running queue satisfies. *)
Record Hist (h : list Job.t) (m : gmap string nat)
    (es : list (Emitted * nat)) : Prop := {
  hist_ids : forall l l' job job',
      h !! l = Some job -> h !! l' = Some job' ->
      Job.id job = Job.id job' -> l = l';
  hist_jobs : JobsOk h m;
  hist_registered : forall l job, h !! l = Some job ->
      Job.completedAt job = None -> m !! Job.id job = Some l;
  hist_open : forall l job, h !! l = Some job ->
      (Job.completedAt job = None <-> isOpen (Job.status job) = true);
  hist_started : forall l job, h !! l = Some job ->
      (Job.startedAt job = None <-> wasStarted (Job.status job) = false);
  hist_events : forall l job, h !! l = Some job ->
      eventsOf l es = lifecycle (Job.status job);
  hist_events_bound : forall e, e ∈ es -> e.2 < length h;
  hist_result : forall l job, h !! l = Some job ->
      Job.result job = VNull \/ isJobResult (Job.result job)
}.

Definition HistL (a : Ledger) : Prop := Hist a.1.1 a.1.2 a.2.

(** What a later job object may differ in from an earlier one. *)
Record evolves (job job' : Job.t) : Prop := {
  ev_id : Job.id job' = Job.id job;
  ev_type : Job.type job' = Job.type job;
  ev_fileName : Job.fileName job' = Job.fileName job;
  ev_files : Job.files job' = Job.files job;
  ev_options : Job.options job' = Job.options job;
  ev_createdAt : Job.createdAt job' = Job.createdAt job;
  ev_startedAt : forall d, Job.startedAt job = Some d -> Job.startedAt job' = Some d;
  ev_started : wasStarted (Job.status job) = true ->
               wasStarted (Job.status job') = true;
  ev_terminal : isOpen (Job.status job) = false -> job' = job
}.

Definition Grows (h h' : list Job.t) : Prop :=
  forall l job, h !! l = Some job ->
    exists job', h' !! l = Some job' /\ evolves job job'.

(** The three dates of a job are in order and none is later than [T]. *)
Record timeline (T : nat) (job : Job.t) : Prop := {
  tl_created : Job.createdAt job <= T;
  tl_started : forall d, Job.startedAt job = Some d -> Job.createdAt job <= d <= T;
  tl_completed : forall d, Job.completedAt job = Some d ->
      Job.createdAt job <= d <= T
      /\ forall d', Job.startedAt job = Some d' -> d' <= d
}.

Definition Timed (T : nat) (h : list Job.t) : Prop :=
  forall l job, h !! l = Some job -> timeline T job.

(** ** Statistics and clean-up *)

(** [Array.from(this.jobs.values())]: the order of the registry is left
    open, only counts are read off it. *)
Definition jobsValues (s : JobQueue) : list Job.t :=
  omap (fun l => heap s !! l) (map_to_list (jobs s)).*2.

Module Stats.
Record t : Type := {
  total : nat;
  pending : nat;
  processing : nat;
  completed : nat;
  failed : nat;
  activeJobs : Z;
  queueLength : nat
}.
End Stats.

Definition countStatus (st : Status) (js : list Job.t) : nat :=
  length (filter (fun j => Job.status j = st) js).

(** [getStats()] *)
Definition getStats (s : JobQueue) : Stats.t :=
  let js := jobsValues s in
  {| Stats.total := length js;
     Stats.pending := countStatus pending js;
     Stats.processing := countStatus processing js;
     Stats.completed := countStatus completed js;
     Stats.failed := countStatus failed js;
     Stats.activeJobs := activeJobs s;
     Stats.queueLength := length (queue s) |}.

(** [job.completedAt && job.completedAt < cutoff] *)
Definition expired (cutoff : Z) (job : Job.t) : bool :=
  match Job.completedAt job with
  | Some d => bool_decide (Z.of_nat d < cutoff)%Z
  | None => false
  end.

(** ** Runs in the order of the clock *)

(** The events of a run happen in the order of the clock: no event reads a
    time earlier than [T] or than an earlier event. *)
Fixpoint chronological (T : nat) (evs : list Event) : bool :=
  match evs with
  | [] => true
  | ev :: rest =>
      (T <=? eventTime T ev)%nat && chronological (eventTime T ev) rest
  end.

Fixpoint lastTime (T : nat) (evs : list Event) : nat :=
  match evs with
  | [] => T
  | ev :: rest => lastTime (eventTime T ev) rest
  end.

(** ** Batch jobs *)

(** [entry] is what [processBatchJob] pushes to [results] for [fileName]:
    the render result of that file, or the message of its failure. *)
Definition batchEntryOf (fileName : string) (entry : value) : Prop :=
  getField "fileName" entry = VStr fileName
  /\ (getField "success" entry = VBool true /\ isObject (getField "result" entry)
      \/ getField "success" entry = VBool false
         /\ isString (getField "error" entry)).

(** The suspended [processBatchJob] of job [l] is about to render file
    [i], with [results] for the files before it. *)
Record BatchAt (l i : nat) (fs : list string) (results : list value)
    (s : JobQueue) : Prop := {
  ba_inv : Inv s;
  ba_task : exists k,
      list_find (fun t => taskJob t = l) (tasks s) = Some (k, TBatch l i results);
  ba_job : exists job, heap s !! l = Some job /\ Job.files job = fs;
  ba_results : Forall2 batchEntryOf (take i fs) results
}.

(** ** The download endpoint of server.js *)

(** [!!v] *)
Definition truthy (v : value) : bool :=
  match v with
  | VUndefined | VNull => false
  | VBool b => b
  | VNum q => negb (Qeq_bool q 0)
  | VStr s => negb (String.eqb s "")
  | VArr _ | VObj _ => true
  end.

(** What a handler answers: [res.status(n).json({ error })] or
    [res.download(filePath)]. *)
Inductive Response : Type :=
| JsonError (status : nat) (error : string)
| Download (filePath : string).

(** The message of the [TypeError] of [path.join] for an argument that is
    not a string, without its quotation marks. *)
Definition pathArgumentError : string :=
  "The path argument must be of type string. Received undefined".

(** [path.join(dir, x)] *)
Definition path_join_value (dir : string) (x : value) : res string :=
  match x with
  | VStr f => Ret (path_join dir f)
  | _ => Throw pathArgumentError
  end.

(** The handler of [GET /api/download/:id]; [pathExists] is the answer of
    [fs.pathExists]. *)
Definition download (env : Env) (pathExists : string -> bool) (jobId : string)
    (s : JobQueue) : Response :=
  match getJob jobId s with
  | None => JsonError 404 "Result not found"
  | Some job =>
      if negb (truthy (Job.result job)) then JsonError 404 "Result not found"
      else
        match path_join_value (storage_renders env)
                (getField "fileName" (Job.result job)) with
        | Throw message => JsonError 500 message
        | Ret filePath =>
            if pathExists filePath then Download filePath
            else JsonError 404 "File not found"
        end
  end.

(** ** Starting and stopping *)

(** Before [start(renderer)]: nothing sleeps, nothing is in flight, nothing
    was started, the host was not called. *)
Definition Idle (sys : JobQueue * World) : Prop :=
  renderer (fst sys) = None ->
  sleepers (fst sys) = 0
  /\ tasks (fst sys) = []
  /\ (forall e, e ∈ emitted (fst sys) -> e.1 = jobAdded \/ e.1 = jobCancelled)
  /\ snd sys = emptyWorld.

(** [stop()] is never called in [evs]. *)
Definition neverStopped (evs : list Event) : bool :=
  forallb (fun ev => match ev with EvStop => false | _ => true end) evs.

(** A queue that has work is being processed, and a queue that is being
    processed has a [sleep] that will elapse. *)
Definition Alive (s : JobQueue) : Prop :=
  (isProcessing s = true -> 0 < sleepers s)
  /\ (renderer s <> None ->
      queue s <> [] \/ (0 < activeJobs s)%Z -> isProcessing s = true).

(** ** More scenarios *)

Definition batchJobData : JobData :=
  {| data_type := "batch"; data_fileName := "";
     data_files := ["a.glb"; "b.glb"];
     data_options := stillOptions ["front"] |}.

(** A batch job waits behind a render job in flight. *)
Definition batchEvents : list Event :=
  [EvStart 0 initializedRenderer;
   EvAddJob "job-1" 1 (renderJobData (stillOptions ["front"]));
   EvAddJob "job-2" 2 batchJobData].

(** Two jobs wait behind one in flight, and the timer has not fired yet. *)
Definition queuedEvents : list Event :=
  [EvStart 0 initializedRenderer;
   EvAddJob "job-1" 1 (renderJobData (stillOptions ["front"]));
   EvAddJob "job-2" 2 (renderJobData (stillOptions ["side"]));
   EvAddJob "job-3" 3 (renderJobData (stillOptions ["top"]))].

Definition noJob : Job.t := newJob "" 0 (renderJobData (stillOptions [])).

(** * Properties *)

(** ** External calls *)

Lemma call_ok env c w n :
  reply env (tick w) c = Ok n ->
  call env c w = (Ret n, {| tick := S (tick w); calls := calls w ++ [c];
                            dirs := fsEffect c (Ok n) (dirs w) |}).
Proof. intros H. unfold call. rewrite H. reflexivity. Qed.

Lemma call_world env c w :
  snd (call env c w) = {| tick := S (tick w); calls := calls w ++ [c];
                          dirs := fsEffect c (reply env (tick w) c) (dirs w) |}.
Proof. unfold call. destruct (reply env (tick w) c); reflexivity. Qed.

(** ** View expansion *)

(** C4, as specified, fails: [all] does not expand to front, back, left,
    right, top, bottom. *)
Lemma expandViews_all_is_not_the_specified_list :
  expandViews ["all"] <> ["front"; "back"; "left"; "right"; "top"; "bottom"].
Proof. vm_compute. discriminate. Qed.

(** C4 (amended).  A view list that contains [all] expands to exactly
    front, side, top, perspective, back, bottom, in that order; any other
    list, whether its names are known or not, is returned unchanged.
    Expansion is a total function: it cannot fail. *)
Theorem expandViews_spec (views : list string) :
  ("all" ∈ views ->
   expandViews views = ["front"; "side"; "top"; "perspective"; "back"; "bottom"])
  /\ ("all" ∉ views -> expandViews views = views).
Proof.
  unfold expandViews. split; intros H.
  - rewrite bool_decide_eq_true_2; [reflexivity | assumption].
  - rewrite bool_decide_eq_false_2; [reflexivity | assumption].
Qed.

(** The theorem of C4 at [front, all] and at [front, custom]. *)
Lemma expandViews_spec_witness :
  expandViews ["front"; "all"]
    = ["front"; "side"; "top"; "perspective"; "back"; "bottom"]
  /\ expandViews ["front"; "custom"] = ["front"; "custom"].
Proof.
  split.
  - apply (proj1 (expandViews_spec ["front"; "all"])).
    apply (bool_decide_eq_true_1 _). vm_compute. reflexivity.
  - apply (proj2 (expandViews_spec ["front"; "custom"])).
    apply (bool_decide_eq_false_1 _). vm_compute. reflexivity.
Defined.

(** ** The turntable frame loop *)

Lemma framesLeft_decreases (totalFrames : Q) (frame : nat) :
  (Qofnat frame < totalFrames)%Q ->
  framesLeft totalFrames (S frame) < framesLeft totalFrames frame.
Proof.
  unfold Qofnat, framesLeft. intros Hlt.
  assert (Hc : (totalFrames <= inject_Z (Qceiling totalFrames))%Q)
    by apply Qle_ceiling.
  assert (Hz : (Z.of_nat frame < Qceiling totalFrames)%Z).
  { rewrite Zlt_Qlt. eapply Qlt_le_trans; eassumption. }
  lia.
Qed.

Lemma framesLeft_ge total frame :
  (total <= Qofnat frame)%Q -> framesLeft total frame = 0.
Proof.
  unfold framesLeft, Qofnat. intros H.
  apply Qceiling_resp_le in H. rewrite Qceiling_Z in H. lia.
Qed.

Lemma framesLeft_lt total frame :
  (Qofnat frame < total)%Q ->
  framesLeft total frame = S (framesLeft total (S frame)).
Proof.
  intros H. pose proof (framesLeft_decreases total frame H) as Hd.
  unfold framesLeft in *. lia.
Qed.

Lemma call_framesOk env c w :
  framesOk env -> isFrameCall c = true ->
  exists n, call env c w
            = (Ret n, {| tick := S (tick w); calls := calls w ++ [c];
                         dirs := dirs w |}).
Proof.
  intros Hok Hc. destruct (Hok (tick w) c Hc) as [n Hn].
  exists n. rewrite (call_ok _ _ _ _ Hn). destruct c; try discriminate; reflexivity.
Qed.

Ltac frame_call Hok :=
  match goal with
  | |- context [call ?env ?c ?w] =>
      let n := fresh "n" in
      let E := fresh "E" in
      destruct (call_framesOk env c w Hok eq_refl) as [n E];
      rewrite E; clear E; cbn iota beta
  end.

Lemma captureFrame_ok env settle pad omit frameDir angleStep frame w :
  framesOk env ->
  exists w1,
    captureFrame env settle pad omit frameDir angleStep frame w = (Ret tt, w1)
    /\ rotations (calls w1) = rotations (calls w) ++ [(Qofnat frame * angleStep)%Q]
    /\ dirs w1 = dirs w.
Proof.
  intros Hok. unfold captureFrame, bind, ret.
  do 4 frame_call Hok.
  eexists. split; [reflexivity|]. simpl. split; [|reflexivity].
  unfold rotations. rewrite !omap_app. simpl. rewrite !app_nil_r. reflexivity.
Qed.

Lemma captureFrames_ok env settle pad omit frameDir total angleStep frame w :
  framesOk env ->
  exists w1,
    captureFrames env settle pad omit frameDir total angleStep frame w
      = (Ret tt, w1)
    /\ rotations (calls w1)
       = rotations (calls w)
         ++ map (fun i => (Qofnat i * angleStep)%Q) (seq frame (framesLeft total frame))
    /\ dirs w1 = dirs w.
Proof.
  intros Hok.
  funelim (captureFrames env settle pad omit frameDir total angleStep frame w).
  all: try rewrite <- Heqcall.
  - exists w. rewrite (framesLeft_ge _ _ q0). simpl. rewrite app_nil_r. auto.
  - destruct (H Hok) as (w2 & E & Hrot & Hd).
    destruct (captureFrame_ok env settle pad omit frameDir angleStep frame w Hok)
      as (w1' & E1 & Hrot1 & Hd1).
    rewrite E1 in Heq. injection Heq as _ Hw. subst w1'.
    exists w2. split; [exact E|]. split; [|congruence].
    rewrite Hrot, Hrot1, (framesLeft_lt _ _ Hlt). simpl.
    rewrite <- app_assoc. reflexivity.
  - destruct (captureFrame_ok env settle pad omit frameDir angleStep frame w Hok)
      as (w1' & E1 & _). congruence.
Qed.

Lemma rotations_snoc cs c :
  rotations (cs ++ [c])
  = rotations cs ++ match c with RotateCameraToAngle a => [a] | _ => [] end.
Proof. unfold rotations. rewrite omap_app. destruct c; reflexivity. Qed.

(** Case analysis on the reply to the next external call. *)
Ltac next_call :=
  match goal with
  | |- context [call ?env ?c ?w] =>
      let r := fresh "r" in
      let E := fresh "E" in
      unfold call at 1; cbn beta zeta;
      destruct (reply env (tick w) c) as [?|?] eqn:E; cbn iota beta
  end.



Example turntable_2s_10fps :
  map Qred (rotations (calls (snd (renderVideo happyEnv "model.glb"
                                     (animatedOptions "mp4" 2 10) emptyWorld))))
  = map inject_Z [0; 18; 36; 54; 72; 90; 108; 126; 144; 162; 180; 198; 216;
                  234; 252; 270; 288; 306; 324; 342]%Z.
Proof. vm_compute. reflexivity. Qed.


Example turntable_fractional_product :
  let o := animatedOptions "mp4" (3 # 4) 3 in
  map Qred (rotations (calls (snd (renderVideo happyEnv "model.glb" o emptyWorld))))
  = map inject_Z [0; 160; 320]%Z
  /\ Math_round (duration o * fps o) = 2%Z.
Proof. vm_compute. split; reflexivity. Qed.

(** Any host: one frame takes at most one screenshot and leaves the
    directories alone. *)
Lemma captureFrame_any env settle pad omit frameDir angleStep frame w :
  let w1 := snd (captureFrame env settle pad omit frameDir angleStep frame w) in
  dirs w1 = dirs w /\ screenshots (calls w1) <= S (screenshots (calls w)).
Proof.
  unfold captureFrame, bind, ret, screenshots.
  repeat next_call; simpl; rewrite ?List.filter_app, ?length_app; simpl;
    split; try reflexivity; lia.
Qed.

Lemma captureFrames_any env settle pad omit frameDir total angleStep frame w :
  let w1 := snd (captureFrames env settle pad omit frameDir total angleStep frame w) in
  dirs w1 = dirs w
  /\ screenshots (calls w1) <= screenshots (calls w) + framesLeft total frame.
Proof.
  funelim (captureFrames env settle pad omit frameDir total angleStep frame w);
    try rewrite <- Heqcall; simpl.
  - split; [reflexivity | lia].
  - pose proof (captureFrame_any env settle pad omit frameDir angleStep frame w) as Hf.
    rewrite Heq in Hf. simpl in Hf, H. rewrite (framesLeft_lt _ _ Hlt).
    destruct H as [Hd Hs], Hf as [Hd1 Hs1]. split; [congruence | lia].
  - pose proof (captureFrame_any env settle pad omit frameDir angleStep frame w) as Hf.
    rewrite Heq in Hf. simpl in Hf. rewrite (framesLeft_lt _ _ Hlt).
    destruct Hf as [Hd1 Hs1]. split; [congruence | lia].
Qed.

(** ** GIF jobs *)

Lemma Math_min_le_r x y : (Math_min x y <= y)%Q.
Proof.
  unfold Math_min. destruct (Qle_bool x y) eqn:E.
  - now apply Qle_bool_iff.
  - apply Qle_refl.
Qed.

Lemma Math_min_nonneg x y : (0 <= x)%Q -> (0 <= y)%Q -> (0 <= Math_min x y)%Q.
Proof. unfold Math_min. destruct (Qle_bool x y); auto. Qed.

Lemma Math_min_neg x y : (x < 0)%Q -> (Math_min x y < 0)%Q.
Proof.
  unfold Math_min. destruct (Qle_bool x y) eqn:E; auto.
  intros Hx. assert (~ (x <= y)%Q) by (rewrite <- Qle_bool_iff; congruence).
  lra.
Qed.

Lemma gif_frameCount (d f : Q) :
  (0 <= d)%Q \/ (0 <= f)%Q ->
  frameCount (Math_min d 3 * Math_min f 15) <= 45.
Proof.
  intros H. unfold frameCount.
  assert (Hp : (Math_min d 3 * Math_min f 15 <= inject_Z 45)%Q).
  { pose proof (Math_min_le_r d 3) as Hd. pose proof (Math_min_le_r f 15) as Hf.
    change (inject_Z 45) with 45%Q.
    destruct (Qlt_le_dec d 0) as [Hd0|Hd0], (Qlt_le_dec f 0) as [Hf0|Hf0].
    - lra.
    - apply Math_min_neg with (y := 3%Q) in Hd0.
      assert (0 <= Math_min f 15)%Q by (apply Math_min_nonneg; lra). nra.
    - apply Math_min_neg with (y := 15%Q) in Hf0.
      assert (0 <= Math_min d 3)%Q by (apply Math_min_nonneg; lra). nra.
    - assert (0 <= Math_min f 15)%Q by (apply Math_min_nonneg; lra).
      assert (0 <= Math_min d 3)%Q by (apply Math_min_nonneg; lra). nra. }
  apply Qceiling_resp_le in Hp. rewrite Qceiling_Z in Hp. lia.
Qed.

Lemma screenshots_snoc cs c :
  screenshots (cs ++ [c]) = screenshots cs + (if isScreenshot c then 1 else 0).
Proof.
  unfold screenshots. rewrite List.filter_app, length_app. simpl.
  destruct (isScreenshot c); reflexivity.
Qed.

Lemma renderGIF_run env fileName options w r w' :
  (0 <= duration options)%Q \/ (0 <= fps options)%Q ->
  renderGIF env fileName options w = (r, w') ->
  screenshots (calls w') <= screenshots (calls w) + 45
  /\ (forall v, r = Ret v ->
        getField "duration" v = VNum (Math_min (duration options) 3)
        /\ getField "fps" v = VNum (Math_min (fps options) 15)).
Proof.
  intros Hnn. pose proof (gif_frameCount _ _ Hnn) as H45.
  unfold renderGIF, bind, dateNow, tryCatch, ret, throw, swallow.
  next_call.
  2: { intros [= <- <-]. simpl. rewrite screenshots_snoc. simpl.
       split; [lia | intros v Hv; discriminate]. }
  match goal with |- context [captureFrames ?e ?a ?b ?c ?d ?t ?st ?f ?w0] =>
    pose proof (captureFrames_any e a b c d t st f w0) as [_ Hs];
    destruct (captureFrames e a b c d t st f w0) as [[[]|msg] w1] end.
  all: simpl in Hs; rewrite screenshots_snoc in Hs; simpl in Hs;
       unfold framesLeft, frameCount in *.
  all: repeat next_call; rewrite ?call_world; intros [= <- <-]; simpl;
       rewrite ?screenshots_snoc; simpl.
  all: split; [lia | intros v Hv; try discriminate].
  injection Hv as <-. split; reflexivity.
Qed.



Example gif_10s_60fps :
  screenshots (calls (snd (renderGIF happyEnv "model.glb"
                             (animatedOptions "gif" 10 60) emptyWorld))) = 45.
Proof. vm_compute. reflexivity. Qed.


(** ** Temporary frame directories *)

Ltac remove_call Hrm :=
  match goal with
  | |- context [call ?env (Remove ?p) ?w] =>
      let n := fresh "n" in
      let E := fresh "E" in
      destruct (Hrm (tick w) p) as [n E];
      rewrite (call_ok env (Remove p) w n E) || rewrite (call_world env (Remove p) w), E;
      cbn iota beta
  end.

Lemma renderVideo_dirs env fileName options w r w' :
  removeWorks env ->
  renderVideo env fileName options w = (r, w') ->
  dirs w' ⊆ dirs w
  /\ ((exists n, reply env (tick w) (EnsureDir (videoFrameDir env w)) = Ok n) ->
      videoFrameDir env w ∉ dirs w').
Proof.
  intros Hrm.
  unfold renderVideo, videoFrameDir, bind, dateNow, tryCatch, ret, throw, swallow.
  next_call.
  2: { intros [= <- <-]. simpl. split; [set_solver|].
       intros [n Hn]. congruence. }
  match goal with |- context [captureFrames ?e ?a ?b ?c ?d ?t ?st ?f ?w0] =>
    pose proof (captureFrames_any e a b c d t st f w0) as [Hd _];
    destruct (captureFrames e a b c d t st f w0) as [[[]|msg] w1] end.
  all: simpl in Hd.
  all: repeat first [remove_call Hrm | next_call]; intros [= <- <-]; simpl;
       rewrite ?Hd; simpl; (split; [set_solver | intros _; set_solver]).
Qed.

Lemma renderGIF_dirs env fileName options w r w' :
  removeWorks env ->
  renderGIF env fileName options w = (r, w') ->
  dirs w' ⊆ dirs w
  /\ ((exists n, reply env (tick w) (EnsureDir (gifFrameDir env w)) = Ok n) ->
      gifFrameDir env w ∉ dirs w').
Proof.
  intros Hrm.
  unfold renderGIF, gifFrameDir, bind, dateNow, tryCatch, ret, throw, swallow.
  next_call.
  2: { intros [= <- <-]. simpl. split; [set_solver|].
       intros [n Hn]. congruence. }
  match goal with |- context [captureFrames ?e ?a ?b ?c ?d ?t ?st ?f ?w0] =>
    pose proof (captureFrames_any e a b c d t st f w0) as [Hd _];
    destruct (captureFrames e a b c d t st f w0) as [[[]|msg] w1] end.
  all: simpl in Hd.
  all: repeat first [remove_call Hrm | next_call]; intros [= <- <-]; simpl;
       rewrite ?Hd; simpl; (split; [set_solver | intros _; set_solver]).
Qed.



Example video_fails_at_frame_5_of_20 :
  let run := renderVideo (failingScreenshotEnv 23) "model.glb"
                         (animatedOptions "mp4" 2 10) emptyWorld in
  fst run = Throw "screenshot failed"
  /\ screenshots (calls (snd run)) = 6
  /\ elements (dirs (snd run)) = []
  /\ last (calls (snd run)) = Some (Remove "storage/temp/frames_1000").
Proof. vm_compute. repeat split; reflexivity. Qed.

(** ** Still images *)

Lemma renderImagesLoop_length env fileName options views results w :
  exists artifacts,
    fst (renderImagesLoop env fileName options views results w) = Ret artifacts
    /\ length artifacts + failedViews env fileName options views w
       = length results + length views.
Proof.
  revert results w. induction views as [|view rest IH]; intros results w; simpl.
  - exists results. split; [reflexivity | lia].
  - destruct (renderView env fileName options view w) as [[artifact|msg] w1].
    + destruct (IH (results ++ [artifact]) w1) as (arts & E & Hlen).
      exists arts. split; [exact E|]. rewrite length_app in Hlen. simpl in Hlen. lia.
    + destruct (IH results w1) as (arts & E & Hlen).
      exists arts. split; [exact E | lia].
Qed.

Ltac other_call Hok :=
  match goal with
  | |- context [call ?env ?c ?w] =>
      let n := fresh "n" in
      let E := fresh "E" in
      destruct (Hok (tick w) c eq_refl) as [n E];
      rewrite (call_ok env c w n E); clear E; cbn [fsEffect]; cbn iota beta
  end.

Lemma preparePage_ok env fileName options w :
  othersOk env ->
  exists w1, preparePage env fileName options w = (Ret tt, w1).
Proof.
  intros Hok. unfold preparePage, bind, ret.
  destruct (getViewportFromPreset _ _ _) as [vw vh].
  do 6 other_call Hok. eexists. reflexivity.
Qed.

Lemma renderGLB_still env r fileName options w :
  isInitialized r = true -> browser r = true ->
  modeOf options = StillMode ->
  othersOk env ->
  exists artifacts d w',
    renderGLB env r fileName options w
    = (Ret (VObj [("success", VBool true); ("results", VArr artifacts);
                  ("duration", VNum d); ("options", optionsValue options)]), w')
    /\ length artifacts
       + failedViews env fileName options (expandViews (views options))
                     (worldAtCapture env fileName options w)
       = length (expandViews (views options)).
Proof.
  intros Hi Hb Hmode Hok.
  unfold renderGLB, worldAtCapture. rewrite Hi, Hb. simpl.
  unfold bind at 1. unfold dateNow at 1. unfold bind at 1.
  other_call Hok. simpl snd.
  unfold tryFinally, bind at 1.
  match goal with |- context [preparePage env fileName options ?w0] =>
    destruct (preparePage_ok env fileName options w0 Hok) as [w1 E1] end.
  rewrite E1. simpl snd.
  unfold bind at 1. unfold capture. rewrite Hmode. unfold renderImages.
  destruct (renderImagesLoop_length env fileName options
              (expandViews (views options)) [] w1) as (arts & Ea & Hlen).
  destruct (renderImagesLoop env fileName options (expandViews (views options)) [] w1)
    as [ra w2]. simpl in Ea. subst ra.
  unfold bind, dateNow, ret.
  other_call Hok.
  eexists arts, _, _. split; [reflexivity|]. simpl in Hlen. exact Hlen.
Qed.

Lemma renderGLB_ret_object env r fileName options w v :
  fst (renderGLB env r fileName options w) = Ret v -> isObject v.
Proof.
  unfold renderGLB, bind, tryFinally, dateNow, ret, throw.
  destruct (negb (isInitialized r) || negb (browser r)); [discriminate|].
  destruct (call env NewPage w) as [[n|msg] w1]; [|discriminate].
  destruct (preparePage env fileName options w1) as [[[]|msg] w2].
  - destruct (capture env fileName options w2) as [[results|msg] w3];
      destruct (call env ClosePage w3) as [[m|msg'] w4]; simpl;
      try discriminate.
    intros [= <-]. exact I.
  - destruct (call env ClosePage w2) as [[m|msg'] w4]; discriminate.
Qed.

Lemma rendererRenderGLB_ret_object env s fileName options w v :
  fst (rendererRenderGLB env s fileName options w) = Ret v -> isObject v.
Proof.
  unfold rendererRenderGLB. destruct (renderer s).
  - apply renderGLB_ret_object.
  - discriminate.
Qed.

(** ** The scheduler invariant *)

Lemma processingCount_app h1 h2 :
  processingCount (h1 ++ h2) = processingCount h1 + processingCount h2.
Proof. unfold processingCount. rewrite filter_app, length_app. reflexivity. Qed.

Lemma processingCount_alter f l h job :
  h !! l = Some job ->
  Z.of_nat (processingCount (alter f l h))
  = (Z.of_nat (processingCount h) + procZ (f job) - procZ job)%Z.
Proof.
  revert l. induction h as [|x h IH]; intros l Hl; [discriminate|].
  destruct l as [|l]; simpl in *.
  - injection Hl as ->. unfold processingCount, procZ.
    rewrite !filter_cons. repeat case_decide; simpl; lia.
  - specialize (IH l Hl). unfold processingCount in *.
    change (list_alter f l h) with (alter f l h).
    rewrite !filter_cons. case_decide; simpl; lia.
Qed.

Lemma lookup_alter_Some {A} (f : A -> A) (l l' : nat) (h : list A) (y : A) :
  alter f l h !! l' = Some y ->
  (l' = l /\ exists x, h !! l = Some x /\ y = f x) \/ (l' <> l /\ h !! l' = Some y).
Proof.
  destruct (decide (l' = l)) as [->|Hne].
  - rewrite list_lookup_alter_eq. destruct (h !! l) as [x|]; simpl; [|discriminate].
    intros [= <-]. left. eauto.
  - rewrite list_lookup_alter_ne by congruence. auto.
Qed.

Lemma JobsOk_alter f l h m :
  (forall job, h !! l = Some job -> Job.id (f job) = Job.id job) ->
  JobsOk h m -> JobsOk (alter f l h) m.
Proof.
  intros Hid Hok jobId l' Hl'. destruct (Hok jobId l' Hl') as (job & Hj & Hi).
  destruct (decide (l' = l)) as [->|Hne].
  - exists (f job). rewrite list_lookup_alter_eq, Hj. split; [reflexivity|].
    rewrite Hid; auto.
  - exists job. rewrite list_lookup_alter_ne by congruence. auto.
Qed.

Lemma JobsOk_insert h m jobId l job :
  h !! l = Some job -> Job.id job = jobId ->
  JobsOk h m -> JobsOk h (<[jobId := l]> m).
Proof.
  intros Hl Hid Hok jobId' l' Hl'.
  destruct (decide (jobId = jobId')) as [<-|Hne].
  - rewrite lookup_insert_eq in Hl'. injection Hl' as <-. eauto.
  - rewrite lookup_insert_ne in Hl' by assumption. eauto.
Qed.

Lemma Inv_step s s' l job f :
  Inv s ->
  heap s !! l = Some job ->
  heap s' = alter f l (heap s) ->
  Job.id (f job) = Job.id job ->
  JobContent (f job) ->
  JobsOk (heap s') (jobs s') ->
  concurrency s' = concurrency s ->
  (activeJobs s' = activeJobs s + procZ (f job) - procZ job)%Z ->
  (activeJobs s' <= concurrency s')%Z ->
  StronglySorted lt (queue s') ->
  (forall l', l' ∈ queue s' <->
     if decide (l' = l) then Job.status (f job) = pending else l' ∈ queue s) ->
  NoDup (taskJobs s') ->
  (forall l', l' ∈ taskJobs s' <->
     if decide (l' = l) then Job.status (f job) = processing else l' ∈ taskJobs s) ->
  Inv s'.
Proof.
  intros HI Hl Hh Hid Hc Hj Hconc Hact Hle Hsort Hq Hnd Ht.
  assert (Hlen : length (heap s') = length (heap s))
    by (rewrite Hh; apply length_alter).
  assert (Hlt : l < length (heap s)) by (eapply lookup_lt_Some; eauto).
  split; try assumption.
  - rewrite Hact, Hh, (processingCount_alter f l (heap s) job Hl).
    rewrite (inv_active s HI). lia.
  - intros l' job'. rewrite Hh. intros H.
    apply lookup_alter_Some in H as [(-> & x & Hx & ->)|(Hne & H)].
    + assert (x = job) by congruence. subst x. exact Hc.
    + eapply inv_content; eauto.
  - intros l' job'. rewrite Hh. intros H. rewrite Hq.
    apply lookup_alter_Some in H as [(-> & x & Hx & ->)|(Hne & H)].
    + assert (x = job) by congruence. subst x.
      rewrite decide_True by reflexivity. reflexivity.
    + rewrite decide_False by assumption. eapply inv_pending; eauto.
  - intros l' job'. rewrite Hh. intros H. rewrite Ht.
    apply lookup_alter_Some in H as [(-> & x & Hx & ->)|(Hne & H)].
    + assert (x = job) by congruence. subst x.
      rewrite decide_True by reflexivity. reflexivity.
    + rewrite decide_False by assumption. eapply inv_processing; eauto.
  - intros l'. rewrite Hq, Hlen. case_decide; [subst; auto|].
    apply (inv_queue_bound s HI).
  - intros l'. rewrite Ht, Hlen. case_decide; [subst; auto|].
    apply (inv_tasks_bound s HI).
  - intros l1 l2 j1 j2. rewrite Hh. intros H1 H2 Heq.
    apply lookup_alter_Some in H1 as [(-> & x1 & Hx1 & ->)|(Hne1 & H1)];
    apply lookup_alter_Some in H2 as [(-> & x2 & Hx2 & ->)|(Hne2 & H2)].
    + reflexivity.
    + assert (x1 = job) by congruence. subst x1.
      apply (inv_ids s HI l l2 job j2); congruence.
    + assert (x2 = job) by congruence. subst x2.
      apply (inv_ids s HI l1 l j1 job); congruence.
    + eapply (inv_ids s HI); eauto.
Qed.

Lemma elem_of_delete_NoDup {A} (xs : list A) (k : nat) (x : A) :
  NoDup xs -> xs !! k = Some x ->
  forall y, y ∈ delete k xs <-> y <> x /\ y ∈ xs.
Proof.
  intros Hnd Hk y. rewrite delete_take_drop.
  rewrite <- (take_drop_middle xs k x Hk) in Hnd.
  rewrite <- (take_drop_middle xs k x Hk) at 3.
  apply NoDup_app in Hnd as (_ & Hdisj & Hnd2).
  apply NoDup_cons in Hnd2 as [Hx _].
  rewrite !elem_of_app, elem_of_cons. split.
  - intros [Hy|Hy]; (split; [|tauto]); intros ->.
    + apply (Hdisj x Hy). left.
    + contradiction.
  - intros [Hne [Hy|[->|Hy]]]; tauto.
Qed.

Lemma StronglySorted_delete (q : list nat) (k : nat) :
  StronglySorted lt q -> StronglySorted lt (delete k q).
Proof.
  intros Hs. destruct (q !! k) as [x|] eqn:Hk.
  - rewrite delete_take_drop. rewrite <- (take_drop_middle q k x Hk) in Hs.
    apply StronglySorted_app in Hs as (H12 & H1 & H2).
    apply StronglySorted_cons in H2 as [_ H2].
    apply StronglySorted_app_2; auto.
    intros x1 x2 Hx1 Hx2. apply H12; [assumption|]. now right.
  - rewrite delete_take_drop.
    apply lookup_ge_None in Hk.
    rewrite take_ge, drop_ge, app_nil_r by lia. assumption.
Qed.

Lemma StronglySorted_lt_NoDup (q : list nat) : StronglySorted lt q -> NoDup q.
Proof.
  induction 1 as [|x q Hs IH Hall]; constructor; [|assumption].
  intros Hx. rewrite Forall_forall in Hall. specialize (Hall x Hx). lia.
Qed.

(** Everything but [this.jobs] is left alone by [this.jobs.set]. *)
Lemma heap_jobs_set l s : heap (jobs_set l s) = heap s.
Proof. unfold jobs_set. destruct (heap s !! l); reflexivity. Qed.

Lemma queue_jobs_set l s : queue (jobs_set l s) = queue s.
Proof. unfold jobs_set. destruct (heap s !! l); reflexivity. Qed.

Lemma tasks_jobs_set l s : tasks (jobs_set l s) = tasks s.
Proof. unfold jobs_set. destruct (heap s !! l); reflexivity. Qed.

Lemma activeJobs_jobs_set l s : activeJobs (jobs_set l s) = activeJobs s.
Proof. unfold jobs_set. destruct (heap s !! l); reflexivity. Qed.

Lemma concurrency_jobs_set l s : concurrency (jobs_set l s) = concurrency s.
Proof. unfold jobs_set. destruct (heap s !! l); reflexivity. Qed.

Lemma emitted_jobs_set l s : emitted (jobs_set l s) = emitted s.
Proof. unfold jobs_set. destruct (heap s !! l); reflexivity. Qed.

Lemma renderer_jobs_set l s : renderer (jobs_set l s) = renderer s.
Proof. unfold jobs_set. destruct (heap s !! l); reflexivity. Qed.

Lemma isProcessing_jobs_set l s : isProcessing (jobs_set l s) = isProcessing s.
Proof. unfold jobs_set. destruct (heap s !! l); reflexivity. Qed.

Lemma sleepers_jobs_set l s : sleepers (jobs_set l s) = sleepers s.
Proof. unfold jobs_set. destruct (heap s !! l); reflexivity. Qed.

Lemma JobsOk_jobs_set l s :
  JobsOk (heap s) (jobs s) -> JobsOk (heap s) (jobs (jobs_set l s)).
Proof.
  intros H. unfold jobs_set. destruct (heap s !! l) as [job|] eqn:Hl; [|exact H].
  simpl. eapply JobsOk_insert; eauto.
Qed.

Ltac fields :=
  repeat first
    [ progress rewrite ?heap_jobs_set, ?queue_jobs_set, ?tasks_jobs_set,
        ?activeJobs_jobs_set, ?concurrency_jobs_set, ?emitted_jobs_set,
        ?renderer_jobs_set, ?isProcessing_jobs_set, ?sleepers_jobs_set
    | progress cbn [heap jobs queue isProcessing concurrency activeJobs
                    renderer tasks sleepers emitted set_heap set_jobs
                    set_queue set_isProcessing set_activeJobs set_renderer
                    set_tasks set_sleepers emit updateJob] ].

(** States that agree on the fields the invariant reads. *)
Lemma Inv_same s s' :
  heap s' = heap s -> jobs s' = jobs s -> queue s' = queue s ->
  tasks s' = tasks s -> activeJobs s' = activeJobs s ->
  concurrency s' = concurrency s ->
  Inv s -> Inv s'.
Proof.
  intros Hh Hj Hq Ht Ha Hc [].
  split; unfold taskJobs in *; rewrite ?Hh, ?Hj, ?Hq, ?Ht, ?Ha, ?Hc; assumption.
Qed.

Lemma Inv_jobs s s' :
  heap s' = heap s -> JobsOk (heap s') (jobs s') -> queue s' = queue s ->
  tasks s' = tasks s -> activeJobs s' = activeJobs s ->
  concurrency s' = concurrency s ->
  Inv s -> Inv s'.
Proof.
  intros Hh Hj Hq Ht Ha Hc [].
  split; unfold taskJobs in *; rewrite ?Hq, ?Ht, ?Ha, ?Hc; try assumption;
    rewrite Hh; assumption.
Qed.

Lemma Inv_constructor : Inv constructor.
Proof.
  split; simpl; try (intros; discriminate); try lia.
  - reflexivity.
  - constructor.
  - intros l H. inversion H.
  - constructor.
  - intros l H. inversion H.
Qed.

(** A job keeps its status: only its progress moves. *)
Lemma Inv_step_same_status s s' l job f :
  Inv s ->
  heap s !! l = Some job ->
  heap s' = alter f l (heap s) ->
  Job.id (f job) = Job.id job ->
  Job.status (f job) = Job.status job ->
  JobContent (f job) ->
  JobsOk (heap s') (jobs s') ->
  concurrency s' = concurrency s ->
  activeJobs s' = activeJobs s ->
  queue s' = queue s ->
  NoDup (taskJobs s') ->
  (forall l', l' ∈ taskJobs s' <-> l' ∈ taskJobs s) ->
  Inv s'.
Proof.
  intros HI Hl Hh Hid Hst Hc Hj Hconc Hact Hq Hnd Ht.
  eapply (Inv_step s s' l job f); eauto.
  - unfold procZ. rewrite Hst. lia.
  - rewrite Hact, Hconc. apply (inv_active_le s HI).
  - rewrite Hq. apply (inv_queue_sorted s HI).
  - intros l'. rewrite Hq. case_decide; [subst l'|reflexivity].
    rewrite Hst. apply (inv_pending s HI l job Hl).
  - intros l'. rewrite Ht. case_decide; [subst l'|reflexivity].
    rewrite Hst. apply (inv_processing s HI l job Hl).
Qed.

Lemma existsb_isRenderTask l ts :
  existsb (isRenderTask l) ts = true -> l ∈ taskJob <$> ts.
Proof.
  intros H. apply existsb_exists in H as (t & Hin & Ht).
  apply list_elem_of_fmap. exists t. split; [|now apply list_elem_of_In].
  destruct t; simpl in *; [|discriminate]. apply Nat.eqb_eq in Ht. auto.
Qed.

Lemma Inv_lookup_task s l :
  Inv s -> l ∈ taskJobs s ->
  exists job, heap s !! l = Some job /\ Job.status job = processing.
Proof.
  intros HI Hl. pose proof (inv_tasks_bound s HI l Hl) as Hlt.
  apply lookup_lt_is_Some in Hlt as [job Hjob].
  exists job. split; [assumption|]. now apply (inv_processing s HI l job Hjob).
Qed.

Lemma Inv_progressCallback s l p :
  Inv s -> l ∈ taskJobs s -> Inv (progressCallback l p s).
Proof.
  intros HI Hl. destruct (Inv_lookup_task s l HI Hl) as (job & Hjob & Hst).
  pose proof (inv_content s HI l job Hjob) as Hc.
  unfold JobContent in Hc. rewrite Hst in Hc. destruct Hc as (Hp & Hr & He).
  unfold progressCallback.
  eapply (Inv_step_same_status s _ l job (Job.with_progress (Math_min p 95)));
    eauto; fields; try reflexivity.
  - unfold JobContent. simpl. rewrite Hst. simpl.
    split; [apply Math_min_le_r | auto].
  - apply JobsOk_jobs_set. fields. apply JobsOk_alter; [reflexivity|].
    apply (inv_jobs s HI).
  - unfold taskJobs. fields. apply (inv_tasks_nodup s HI).
  - intros l'. unfold taskJobs. fields. reflexivity.
Qed.

Lemma tasks_find_spec s l k t :
  Inv s ->
  list_find (fun t => taskJob t = l) (tasks s) = Some (k, t) ->
  taskJob t = l
  /\ l ∈ taskJobs s
  /\ NoDup (taskJob <$> delete k (tasks s))
  /\ (forall l', l' ∈ taskJob <$> delete k (tasks s) <-> l' <> l /\ l' ∈ taskJobs s).
Proof.
  intros HI Hfind. apply list_find_Some in Hfind as (Hk & Ht & _).
  assert (Hk' : taskJobs s !! k = Some l).
  { unfold taskJobs. rewrite list_lookup_fmap, Hk. simpl. congruence. }
  split; [assumption|]. split; [eapply list_elem_of_lookup_2; eauto|].
  rewrite list_fmap_delete. split.
  - eapply sublist_NoDup; [apply (inv_tasks_nodup s HI) | apply sublist_delete].
  - apply elem_of_delete_NoDup; [apply (inv_tasks_nodup s HI) | exact Hk'].
Qed.

(** A processing job reaches [completed] or [failed]. *)
Lemma Inv_finish s s' l k t job f :
  Inv s ->
  list_find (fun t => taskJob t = l) (tasks s) = Some (k, t) ->
  heap s !! l = Some job ->
  heap s' = alter f l (heap s) ->
  Job.id (f job) = Job.id job ->
  Job.status (f job) = completed \/ Job.status (f job) = failed ->
  JobContent (f job) ->
  JobsOk (heap s') (jobs s') ->
  concurrency s' = concurrency s ->
  (activeJobs s' = activeJobs s - 1)%Z ->
  queue s' = queue s ->
  tasks s' = delete k (tasks s) ->
  Inv s'.
Proof.
  intros HI Hfind Hl Hh Hid Hst Hc Hj Hconc Hact Hq Ht.
  destruct (tasks_find_spec s l k t HI Hfind) as (Htl & Hin & Hnd & Hmem).
  assert (Hproc : Job.status job = processing)
    by (now apply (inv_processing s HI l job Hl)).
  eapply (Inv_step s s' l job f); eauto.
  - unfold procZ. destruct Hst; repeat case_decide; congruence || lia.
  - rewrite Hact, Hconc. pose proof (inv_active_le s HI). lia.
  - rewrite Hq. apply (inv_queue_sorted s HI).
  - intros l'. rewrite Hq. case_decide; [subst l'|reflexivity].
    rewrite (inv_pending s HI l job Hl), Hproc.
    split; [discriminate | destruct Hst as [-> | ->]; discriminate].
  - unfold taskJobs. rewrite Ht. exact Hnd.
  - intros l'. unfold taskJobs at 1. rewrite Ht, Hmem.
    case_decide; [subst l'|tauto].
    split; [tauto | destruct Hst as [-> | ->]; discriminate].
Qed.

(** A batch job moves on to its next file. *)
Lemma Inv_next s s' l k t t' job f :
  Inv s ->
  list_find (fun t => taskJob t = l) (tasks s) = Some (k, t) ->
  heap s !! l = Some job ->
  heap s' = alter f l (heap s) ->
  Job.id (f job) = Job.id job ->
  Job.status (f job) = Job.status job ->
  JobContent (f job) ->
  JobsOk (heap s') (jobs s') ->
  concurrency s' = concurrency s ->
  activeJobs s' = activeJobs s ->
  queue s' = queue s ->
  tasks s' = delete k (tasks s) ++ [t'] ->
  taskJob t' = l ->
  Inv s'.
Proof.
  intros HI Hfind Hl Hh Hid Hst Hc Hj Hconc Hact Hq Ht Ht'.
  destruct (tasks_find_spec s l k t HI Hfind) as (Htl & Hin & Hnd & Hmem).
  eapply (Inv_step_same_status s s' l job f); eauto.
  - unfold taskJobs. rewrite Ht, fmap_app. simpl. rewrite Ht'.
    apply NoDup_app. split; [assumption|]. split; [|apply NoDup_singleton].
    intros x Hx ->%list_elem_of_singleton. apply Hmem in Hx. tauto.
  - intros l'. unfold taskJobs at 1. rewrite Ht, fmap_app, elem_of_app, Hmem.
    simpl. rewrite Ht', list_elem_of_singleton.
    destruct (decide (l' = l)) as [->|]; tauto.
Qed.

(** The head of the queue is dispatched and suspends. *)
Lemma Inv_start s s' l rest job f t :
  Inv s ->
  queue s = l :: rest ->
  heap s !! l = Some job ->
  (activeJobs s < concurrency s)%Z ->
  heap s' = alter f l (heap s) ->
  Job.id (f job) = Job.id job ->
  Job.status (f job) = processing ->
  JobContent (f job) ->
  JobsOk (heap s') (jobs s') ->
  concurrency s' = concurrency s ->
  (activeJobs s' = activeJobs s + 1)%Z ->
  queue s' = rest ->
  tasks s' = tasks s ++ [t] ->
  taskJob t = l ->
  Inv s'.
Proof.
  intros HI Hq Hl Hlt Hh Hid Hst Hc Hj Hconc Hact Hq' Ht Htl.
  pose proof (inv_queue_sorted s HI) as Hsort. rewrite Hq in Hsort.
  apply StronglySorted_cons in Hsort as [Hall Hsort].
  rewrite Forall_forall in Hall.
  assert (Hpend : Job.status job = pending).
  { apply (inv_pending s HI l job Hl). rewrite Hq. left. }
  assert (Hnt : l ∉ taskJobs s).
  { rewrite (inv_processing s HI l job Hl), Hpend. discriminate. }
  eapply (Inv_step s s' l job f); eauto.
  - unfold procZ. repeat case_decide; congruence || lia.
  - lia.
  - rewrite Hq'. exact Hsort.
  - intros l'. rewrite Hq'.
    case_decide; [subst l'|rewrite Hq, elem_of_cons; tauto].
    rewrite Hst. split; [|discriminate]. intros H. specialize (Hall l H). lia.
  - unfold taskJobs. rewrite Ht, fmap_app. simpl. rewrite Htl.
    apply NoDup_app. split; [apply (inv_tasks_nodup s HI)|].
    split; [|apply NoDup_singleton].
    intros x Hx ->%list_elem_of_singleton. contradiction.
  - intros l'. unfold taskJobs at 1. rewrite Ht, fmap_app, elem_of_app.
    simpl. rewrite Htl, list_elem_of_singleton.
    case_decide; [subst l'|]; unfold taskJobs in *; tauto.
Qed.

(** The head of the queue leaves it without ever being in flight: it fails
    at once (unknown job type) or is cancelled. *)
Lemma Inv_leave s s' l k job f :
  Inv s ->
  queue s !! k = Some l ->
  heap s !! l = Some job ->
  heap s' = alter f l (heap s) ->
  Job.id (f job) = Job.id job ->
  Job.status (f job) = failed \/ Job.status (f job) = cancelled ->
  JobContent (f job) ->
  JobsOk (heap s') (jobs s') ->
  concurrency s' = concurrency s ->
  activeJobs s' = activeJobs s ->
  queue s' = delete k (queue s) ->
  tasks s' = tasks s ->
  Inv s'.
Proof.
  intros HI Hk Hl Hh Hid Hst Hc Hj Hconc Hact Hq' Ht.
  assert (Hpend : Job.status job = pending).
  { apply (inv_pending s HI l job Hl). eapply list_elem_of_lookup_2; eauto. }
  assert (Hnt : l ∉ taskJobs s).
  { rewrite (inv_processing s HI l job Hl), Hpend. discriminate. }
  pose proof (inv_queue_sorted s HI) as Hsort.
  eapply (Inv_step s s' l job f); eauto.
  - unfold procZ. destruct Hst; repeat case_decide; congruence || lia.
  - rewrite Hact, Hconc. apply (inv_active_le s HI).
  - rewrite Hq'. now apply StronglySorted_delete.
  - intros l'. rewrite Hq'.
    rewrite (elem_of_delete_NoDup (queue s) k l
               (StronglySorted_lt_NoDup _ Hsort) Hk).
    case_decide; [subst l'|tauto].
    split; [tauto | destruct Hst as [-> | ->]; discriminate].
  - unfold taskJobs. rewrite Ht. apply (inv_tasks_nodup s HI).
  - intros l'. unfold taskJobs. rewrite Ht.
    case_decide; [subst l'|tauto].
    split; [contradiction | destruct Hst as [-> | ->]; discriminate].
Qed.

Lemma JOk_jobs_set l s : JOk s -> JOk (jobs_set l s).
Proof. unfold JOk. rewrite heap_jobs_set. apply JobsOk_jobs_set. Qed.

Lemma JOk_updateJob l f s :
  (forall job, Job.id (f job) = Job.id job) -> JOk s -> JOk (updateJob l f s).
Proof. unfold JOk. simpl. intros Hid. apply JobsOk_alter. auto. Qed.

Lemma JOk_same s s' : heap s' = heap s -> jobs s' = jobs s -> JOk s -> JOk s'.
Proof. unfold JOk. intros -> ->. auto. Qed.

Ltac jobs_ok HI :=
  change (JobsOk (heap ?s) (jobs ?s)) with (JOk s);
  repeat first
    [ apply JOk_jobs_set
    | apply JOk_updateJob; [intros ?; reflexivity|]
    | exact (inv_jobs _ HI)
    | eapply JOk_same; [reflexivity | reflexivity |] ].

Lemma Math_floor_progress (i total : nat) :
  i < total -> (Math_floor (Qofnat i / Qofnat total * 95) <= 95)%Q.
Proof.
  intros Hlt. unfold Math_floor, Qofnat.
  assert (H : (inject_Z (Z.of_nat i) / inject_Z (Z.of_nat total) * 95 <= 95)%Q).
  { assert (Ht : (0 < inject_Z (Z.of_nat total))%Q).
    { change 0%Q with (inject_Z 0). rewrite <- Zlt_Qlt. lia. }
    assert (Hi : (inject_Z (Z.of_nat i) <= inject_Z (Z.of_nat total))%Q).
    { rewrite <- Zle_Qle. lia. }
    assert (Hd : (inject_Z (Z.of_nat i) / inject_Z (Z.of_nat total) <= 1)%Q).
    { apply Qle_shift_div_r; [assumption|]. lra. }
    lra. }
  apply Qfloor_resp_le in H. change 95%Q with (inject_Z 95) in H.
  rewrite Qfloor_Z in H. change 95%Q with (inject_Z 95).
  now rewrite <- Zle_Qle.
Qed.

Lemma Inv_processJob now s l rest :
  Inv s -> queue s = l :: rest -> (activeJobs s < concurrency s)%Z ->
  Inv (processJob now l (set_queue rest s)).
Proof.
  intros HI Hq Hlt.
  assert (Hin : l ∈ queue s) by (rewrite Hq; left).
  pose proof (inv_queue_bound s HI l Hin) as Hb.
  apply lookup_lt_is_Some in Hb as [job Hjob].
  assert (Hpend : Job.status job = pending)
    by (now apply (inv_pending s HI l job Hjob)).
  pose proof (inv_content s HI l job Hjob) as Hc.
  unfold JobContent in Hc. rewrite Hpend in Hc. destruct Hc as (Hp & Hr & He).
  unfold processJob. fields. rewrite list_lookup_alter_eq, Hjob. simpl.
  destruct (String.eqb (Job.type job) "render").
  { eapply (Inv_start s _ l rest job _ (TRender l)); eauto;
      try jobs_ok HI; fields; try reflexivity.
    unfold JobContent; simpl. rewrite Hp, Hr, He. repeat split; lra. }
  destruct (String.eqb (Job.type job) "batch").
  { unfold batchNext. fields. rewrite list_lookup_alter_eq, Hjob. simpl.
    destruct (0 <? length (Job.files job))%nat eqn:Hn.
    - apply Nat.ltb_lt in Hn.
      eapply (Inv_start s _ l rest job _ (TBatch l 0 [])); eauto;
        try jobs_ok HI; fields; try reflexivity.
      + rewrite list_alter_alter_eq. reflexivity.
      + reflexivity.
      + reflexivity.
      + unfold JobContent; simpl. rewrite Hr, He. repeat split.
        now apply Math_floor_progress.
    - eapply (Inv_start s _ l rest job _ (TBatch l 0 [])); eauto;
        try jobs_ok HI; fields; try reflexivity.
      unfold JobContent; simpl. rewrite Hp, Hr, He. repeat split; lra. }
  unfold jobFails.
  eapply (Inv_leave s _ l 0 job); eauto; try jobs_ok HI; fields;
    try reflexivity.
  - rewrite Hq. reflexivity.
  - rewrite list_alter_alter_eq. reflexivity.
  - reflexivity.
  - simpl. auto.
  - unfold JobContent; simpl. rewrite Hp, Hr. repeat split; try lra. 
  - lia.
  - rewrite Hq. reflexivity.
Qed.

Lemma Inv_dispatch now s : Inv s -> Inv (dispatch now s).
Proof.
  funelim (dispatch now s); intros HI; try assumption.
  apply H. apply Inv_processJob; assumption.
Qed.

Lemma Inv_processQueueLoop now s : Inv s -> Inv (processQueueLoop now s).
Proof.
  intros HI. unfold processQueueLoop.
  destruct (_ && _).
  - eapply Inv_same; [..|apply (Inv_dispatch now s HI)]; reflexivity.
  - eapply Inv_same; [..|exact HI]; reflexivity.
Qed.

Lemma Inv_processQueue now s : Inv s -> Inv (processQueue now s).
Proof.
  intros HI. unfold processQueue. destruct (renderer s); [|assumption].
  apply Inv_processQueueLoop. eapply Inv_same; [..|exact HI]; reflexivity.
Qed.

Lemma Inv_wake now s : Inv s -> Inv (wake now s).
Proof.
  intros HI. apply Inv_processQueueLoop.
  eapply Inv_same; [..|exact HI]; reflexivity.
Qed.

Lemma Inv_start_method now r s : Inv s -> Inv (start now r s).
Proof.
  intros HI. apply Inv_processQueue.
  eapply Inv_same; [..|exact HI]; reflexivity.
Qed.

Lemma Inv_stop s : Inv s -> Inv (stop s).
Proof. intros HI. eapply Inv_same; [..|exact HI]; reflexivity. Qed.

Lemma freshId_spec uuid s l job :
  freshId uuid s = true -> heap s !! l = Some job -> Job.id job <> uuid.
Proof.
  unfold freshId. rewrite forallb_forall. intros H Hl Heq.
  assert (Hin : In job (heap s)).
  { apply list_elem_of_In. eapply list_elem_of_lookup_2; eauto. }
  specialize (H job Hin). apply negb_true_iff in H.
  apply String.eqb_neq in H. contradiction.
Qed.

Lemma lookup_snoc_Some {A} (h : list A) (x y : A) (l : nat) :
  (h ++ [x]) !! l = Some y ->
  (l < length h /\ h !! l = Some y) \/ (l = length h /\ y = x).
Proof.
  intros H. apply lookup_app_Some in H as [H|[Hge H]].
  - left. split; [eapply lookup_lt_Some; eauto | assumption].
  - right. destruct (l - length h) as [|n] eqn:E; simpl in H; [|discriminate].
    split; [lia | congruence].
Qed.

(** The synchronous start of [addJob]: a new shared job object, registered
    and queued. *)
Lemma Inv_enqueue uuid now jobData s :
  Inv s -> freshId uuid s = true ->
  Inv (emit jobAdded (length (heap s))
         (set_queue (queue s ++ [length (heap s)])
            (set_jobs (<[uuid := length (heap s)]> (jobs s))
               (set_heap (heap s ++ [newJob uuid now jobData]) s)))).
Proof.
  intros HI Hfresh. set (n := length (heap s)).
  split; fields; unfold taskJobs; fields.
  - apply (inv_active_le s HI).
  - rewrite processingCount_app.
    change (processingCount [newJob uuid now jobData]) with 0.
    rewrite Nat.add_0_r. apply (inv_active s HI).
  - intros l job H. apply lookup_snoc_Some in H as [[_ H]|[_ ->]].
    + eapply inv_content; eauto.
    + unfold JobContent. simpl. auto.
  - intros l job H. rewrite elem_of_app, list_elem_of_singleton.
    apply lookup_snoc_Some in H as [[Hlt H]|[-> ->]].
    + rewrite <- (inv_pending s HI l job H). subst n. split; [|tauto].
      intros [?|?]; [assumption|lia].
    + simpl. tauto.
  - intros l job H.
    apply lookup_snoc_Some in H as [[Hlt H]|[-> ->]].
    + apply (inv_processing s HI l job H).
    + simpl. split; [|discriminate].
      intros H. apply (inv_tasks_bound s HI) in H. lia.
  - apply StronglySorted_app_2.
    + intros x1 x2 H1 ->%list_elem_of_singleton.
      apply (inv_queue_bound s HI x1 H1).
    + apply (inv_queue_sorted s HI).
    + repeat constructor.
  - intros l. rewrite elem_of_app, list_elem_of_singleton, length_app. simpl.
    intros [H| ->]; [apply (inv_queue_bound s HI) in H|]; subst n; lia.
  - apply (inv_tasks_nodup s HI).
  - intros l H. apply (inv_tasks_bound s HI) in H. rewrite length_app. simpl. lia.
  - intros l1 l2 j1 j2 H1 H2 Heq.
    apply lookup_snoc_Some in H1 as [[Hlt1 H1]|[-> ->]];
    apply lookup_snoc_Some in H2 as [[Hlt2 H2]|[-> ->]].
    + eapply (inv_ids s HI); eauto.
    + simpl in Heq. exfalso. eapply freshId_spec; eauto.
    + simpl in Heq. exfalso. eapply freshId_spec; eauto.
    + reflexivity.
  - intros jobId l H. destruct (decide (uuid = jobId)) as [<-|Hne].
    + rewrite lookup_insert_eq in H. injection H as <-.
      exists (newJob uuid now jobData). split; [|reflexivity].
      rewrite lookup_app_r by lia. subst n. rewrite Nat.sub_diag. reflexivity.
    + rewrite lookup_insert_ne in H by assumption.
      destruct (inv_jobs s HI jobId l H) as (job & Hj & Hid).
      exists job. split; [|assumption]. apply lookup_app_l_Some. assumption.
Qed.

Lemma Inv_addJob uuid now jobData s :
  Inv s -> freshId uuid s = true -> Inv (snd (addJob uuid now jobData s)).
Proof.
  intros HI Hfresh. unfold addJob. simpl.
  pose proof (Inv_enqueue uuid now jobData s HI Hfresh) as HI'.
  destruct (isProcessing s); [assumption|].
  now apply Inv_processQueue.
Qed.

Lemma queueFindIndex_spec s jobId l job :
  Inv s -> jobs s !! jobId = Some l -> heap s !! l = Some job ->
  Job.status job = pending ->
  exists k, queueFindIndex jobId s = Some k /\ queue s !! k = Some l.
Proof.
  intros HI Hj Hl Hpend.
  destruct (inv_jobs s HI jobId l Hj) as (job' & Hl' & Hid).
  assert (job' = job) by congruence. subst job'.
  assert (Hin : l ∈ queue s) by (now apply (inv_pending s HI l job Hl)).
  unfold queueFindIndex.
  destruct (list_find_elem_of
              (fun l0 => Job.id <$> heap s !! l0 = Some jobId) (queue s) l Hin)
    as [[k l'] Hfind].
  { rewrite Hl. simpl. congruence. }
  rewrite Hfind. simpl. exists k. split; [reflexivity|].
  apply list_find_Some in Hfind as (Hk & HP & _).
  destruct (heap s !! l') as [job'|] eqn:Hl''; simpl in HP; [|discriminate].
  assert (l' = l); [|congruence].
  apply (inv_ids s HI l' l job' job); congruence.
Qed.

Lemma Inv_cancelJob jobId now s : Inv s -> Inv (snd (cancelJob jobId now s)).
Proof.
  intros HI. unfold cancelJob.
  destruct (jobs s !! jobId) as [l|] eqn:Hj; [|assumption].
  destruct (heap s !! l) as [job|] eqn:Hl; [|assumption].
  case_decide as Hpend; [|assumption].
  destruct (queueFindIndex_spec s jobId l job HI Hj Hl Hpend) as (k & -> & Hk).
  destruct (inv_jobs s HI jobId l Hj) as (job' & Hl' & Hid).
  assert (job' = job) by congruence. subst job'. simpl.
  eapply (Inv_leave s _ l k job); eauto; fields; try reflexivity.
  - pose proof (inv_content s HI l job Hl) as Hc. unfold JobContent in *.
    rewrite Hpend in Hc. simpl. exact Hc.
  - eapply JobsOk_insert.
    + rewrite list_lookup_alter_eq, Hl. reflexivity.
    + exact Hid.
    + apply JobsOk_alter; [reflexivity | apply (inv_jobs s HI)].
Qed.

Lemma Inv_cleanup maxAge now s : Inv s -> Inv (snd (cleanup maxAge now s)).
Proof.
  intros HI. unfold cleanup. simpl.
  eapply Inv_jobs; [..|exact HI]; try reflexivity.
  simpl. intros jobId l H. apply map_lookup_filter_Some in H as [H _].
  apply (inv_jobs s HI jobId l H).
Qed.

Lemma Inv_resume env now l s w s' w' :
  Inv s -> resume env now l (s, w) = Some (s', w') -> Inv s'.
Proof.
  intros HI. unfold resume.
  destruct (list_find _ (tasks s)) as [[k t]|] eqn:Hfind; [|discriminate].
  fields. destruct (heap s !! l) as [job|] eqn:Hl; [|discriminate].
  destruct (tasks_find_spec s l k t HI Hfind) as (Htl & Hin & _).
  assert (Hproc : Job.status job = processing)
    by (now apply (inv_processing s HI l job Hl)).
  pose proof (inv_content s HI l job Hl) as Hc.
  unfold JobContent in Hc. rewrite Hproc in Hc. destruct Hc as (Hp & Hr & He).
  destruct t as [l0|l0 i results].
  - destruct (rendererRenderGLB env _ _ _ w) as [[result|message] w1] eqn:Hrun;
      intros [= <- <-].
    + apply (f_equal fst) in Hrun. simpl in Hrun.
      apply rendererRenderGLB_ret_object in Hrun.
      unfold jobCompletes.
      eapply (Inv_finish s _ l k _ job); eauto; try jobs_ok HI; fields;
        try reflexivity.
      * rewrite list_alter_alter_eq. reflexivity.
      * reflexivity.
      * simpl. auto.
      * unfold JobContent. simpl. auto.
    + unfold jobFails.
      eapply (Inv_finish s _ l k _ job); eauto; try jobs_ok HI; fields;
        try reflexivity.
      * simpl. auto.
      * unfold JobContent. simpl. rewrite Hr. auto.
  - destruct (Job.files job !! i) as [fileName|] eqn:Hfile.
    + destruct (rendererRenderGLB env _ _ _ w) as [r w1]. intros [= <- <-].
      unfold batchNext. fields. rewrite Hl.
      destruct (S i <? length (Job.files job))%nat eqn:Hn.
      * apply Nat.ltb_lt in Hn.
        eapply (Inv_next s _ l k _ (TBatch l (S i) _) job); eauto;
          try jobs_ok HI; fields; try reflexivity.
        unfold JobContent. simpl. rewrite Hproc, Hr, He. repeat split.
        now apply Math_floor_progress.
      * eapply (Inv_next s _ l k _ (TBatch l (S i) _) job (fun j => j)); eauto;
          try jobs_ok HI; fields; try reflexivity.
        -- symmetry. apply list_alter_id. reflexivity.
        -- unfold JobContent. rewrite Hproc. auto.
    + intros [= <- <-]. unfold jobCompletes.
      eapply (Inv_finish s _ l k _ job); eauto; try jobs_ok HI; fields;
        try reflexivity.
      * simpl. auto.
      * unfold JobContent. simpl. rewrite He. auto.
Qed.

Lemma Inv_exec env ev s w s' w' :
  Inv s -> exec env ev (s, w) = Some (s', w') -> Inv s'.
Proof.
  intros HI. destruct ev; cbn [exec].
  - intros [= <- <-]. now apply Inv_start_method.
  - intros [= <- <-]. now apply Inv_stop.
  - destruct (freshId uuid s) eqn:Hf; [|discriminate].
    intros [= <- <-]. now apply Inv_addJob.
  - intros [= <- <-]. now apply Inv_cancelJob.
  - intros [= <- <-]. now apply Inv_cleanup.
  - case_bool_decide; [|discriminate]. intros [= <- <-]. now apply Inv_wake.
  - destruct (existsb _ _) eqn:Hex; [|discriminate]. intros [= <- <-].
    apply Inv_progressCallback; [assumption|].
    now apply existsb_isRenderTask.
  - apply Inv_resume. assumption.
Qed.

Lemma Inv_run env evs sys sys' :
  Inv (fst sys) -> run env evs sys = Some sys' -> Inv (fst sys').
Proof.
  revert sys. induction evs as [|ev evs IH]; intros [s w]; cbn [run fst].
  - intros HI [= <-]. exact HI.
  - intros HI. destruct (exec env ev (s, w)) as [[s1 w1]|] eqn:Hex; [|discriminate].
    apply IH. cbn [fst]. eapply Inv_exec; eauto.
Qed.

Lemma reachable_Inv env sys : reachable env sys -> Inv (fst sys).
Proof.
  intros [evs Hrun]. eapply Inv_run; [|exact Hrun]. apply Inv_constructor.
Qed.

(** ** The event log *)

Lemma filter_isAdded_quiet es :
  Forall quiet es -> filter isAdded es = [].
Proof.
  induction 1 as [|e es [Hq _] _ IH]; [reflexivity|].
  rewrite filter_cons_False by exact Hq. exact IH.
Qed.

Lemma FifoLog_app log es :
  FifoLog log -> Forall (fun e => e.1 <> jobStarted) es -> FifoLog (log ++ es).
Proof.
  intros Hf Hes pre post B Heq A HAB.
  apply app_eq_app in Heq as [l [[-> Heq]|[-> Heq]]].
  - destruct l as [|e l]; simpl in Heq.
    + subst es. apply Forall_cons in Hes as [H _]. simpl in H. congruence.
    + injection Heq as <- Heq. apply (Hf pre l B eq_refl A HAB).
  - exfalso. subst es. apply Forall_app in Hes as [_ Hes].
    apply Forall_cons in Hes as [H _]. simpl in H. congruence.
Qed.

Lemma FifoLog_quiet log es :
  FifoLog log -> Forall quiet es -> FifoLog (log ++ es).
Proof.
  intros Hf Hes. apply FifoLog_app; [assumption|].
  eapply Forall_impl; [exact Hes|]. intros e [_ H]. exact H.
Qed.

Lemma FifoLog_started log l es :
  FifoLog log -> Forall quiet es ->
  (forall A, A < l -> (jobStarted, A) ∈ log \/ (jobCancelled, A) ∈ log) ->
  FifoLog (log ++ (jobStarted, l) :: es).
Proof.
  intros Hf Hes Hl.
  change (log ++ (jobStarted, l) :: es) with (log ++ [(jobStarted, l)] ++ es).
  rewrite app_assoc. apply FifoLog_quiet; [|assumption].
  intros pre post B Heq A HAB.
  apply app_eq_app in Heq as [k [[-> Heq]|[-> Heq]]].
  - destruct k as [|e k]; simpl in Heq.
    + injection Heq as <- _. rewrite app_nil_r in Hl. apply Hl. assumption.
    + injection Heq as <- Heq. apply (Hf pre k B eq_refl A HAB).
  - destruct k as [|e k]; simpl in Heq.
    + injection Heq as <- _. rewrite app_nil_r. apply Hl. assumption.
    + injection Heq as _ Heq. destruct k; discriminate.
Qed.

(** Progress, completion, failure, cancellation: nothing is created and
    nothing is started. *)
Lemma LogInv_quiet s s' es :
  LogInv s ->
  length (heap s') = length (heap s) ->
  emitted s' = emitted s ++ es ->
  Forall quiet es ->
  (forall l, l ∈ queue s -> l ∈ queue s' \/ (jobCancelled, l) ∈ es) ->
  LogInv s'.
Proof.
  intros [Ha Hf Hg] Hlen He Hes Hq. split.
  - rewrite He, Hlen, filter_app, (filter_isAdded_quiet es Hes), app_nil_r.
    exact Ha.
  - rewrite He. now apply FifoLog_quiet.
  - intros l Hl. rewrite Hlen in Hl. rewrite He.
    destruct (Hg l Hl) as [H|[H|H]].
    + destruct (Hq l H) as [H'|H']; [tauto|].
      right. right. apply elem_of_app. tauto.
    + right. left. apply elem_of_app. tauto.
    + right. right. apply elem_of_app. tauto.
Qed.

(** The head of the queue is started. *)
Lemma LogInv_started s s' l rest es :
  LogInv s ->
  Inv s ->
  queue s = l :: rest ->
  length (heap s') = length (heap s) ->
  emitted s' = emitted s ++ (jobStarted, l) :: es ->
  Forall quiet es ->
  queue s' = rest ->
  LogInv s'.
Proof.
  intros [Ha Hf Hg] HI Hq Hlen He Hes Hq'.
  pose proof (inv_queue_sorted s HI) as Hsort.
  assert (Hlb : l < length (heap s)).
  { apply (inv_queue_bound s HI). rewrite Hq. left. }
  rewrite Hq in Hsort. apply StronglySorted_cons in Hsort as [Hall _].
  rewrite Forall_forall in Hall.
  split.
  - rewrite He, Hlen, filter_app,
      filter_cons_False by (unfold isAdded; simpl; congruence).
    rewrite (filter_isAdded_quiet es Hes), app_nil_r. exact Ha.
  - rewrite He. apply FifoLog_started; [assumption..|].
    intros A HA. destruct (Hg A) as [H|H]; [lia| |exact H].
    rewrite Hq in H. apply elem_of_cons in H as [->|H]; [lia|].
    specialize (Hall A H). lia.
  - intros l' Hl'. rewrite Hlen in Hl'. rewrite He, Hq'.
    destruct (Hg l' Hl') as [H|[H|H]].
    + rewrite Hq in H. apply elem_of_cons in H as [->|H]; [|tauto].
      right. left. apply elem_of_app. right. left.
    + right. left. apply elem_of_app. tauto.
    + right. right. apply elem_of_app. tauto.
Qed.

(** A job is created and queued. *)
Lemma LogInv_added s s' job :
  LogInv s ->
  heap s' = heap s ++ [job] ->
  emitted s' = emitted s ++ [(jobAdded, length (heap s))] ->
  queue s' = queue s ++ [length (heap s)] ->
  LogInv s'.
Proof.
  intros [Ha Hf Hg] Hh He Hq. split.
  - rewrite He, Hh, filter_app, Ha, length_app. simpl.
    rewrite Nat.add_1_r, seq_S, fmap_app. reflexivity.
  - rewrite He. apply FifoLog_app; [assumption|].
    apply Forall_singleton. simpl. discriminate.
  - intros l. rewrite Hh, length_app, He, Hq. simpl. intros Hl.
    rewrite !elem_of_app, list_elem_of_singleton.
    destruct (decide (l = length (heap s))) as [->|Hne]; [tauto|].
    destruct (Hg l) as [H|[H|H]]; [lia|tauto..].
Qed.

Lemma quiet_progress l : quiet (jobProgress, l).
Proof. split; discriminate. Qed.

Lemma quiet_completed l : quiet (jobCompleted, l).
Proof. split; discriminate. Qed.

Lemma quiet_failed l : quiet (jobFailed, l).
Proof. split; discriminate. Qed.

Lemma quiet_cancelled l : quiet (jobCancelled, l).
Proof. split; discriminate. Qed.

Create HintDb quiet.

#[local] Hint Resolve quiet_progress quiet_completed quiet_failed
  quiet_cancelled : quiet.

Ltac quiet_events :=
  repeat first [apply Forall_nil_2 | apply Forall_cons_2; [auto with quiet|]].

Lemma LogInv_processJob now s l rest :
  Inv s -> LogInv s -> queue s = l :: rest ->
  LogInv (processJob now l (set_queue rest s)).
Proof.
  intros HI HL Hq.
  assert (Hin : l ∈ queue s) by (rewrite Hq; left).
  pose proof (inv_queue_bound s HI l Hin) as Hb.
  apply lookup_lt_is_Some in Hb as [job Hjob].
  unfold processJob. fields. rewrite list_lookup_alter_eq, Hjob. simpl.
  destruct (String.eqb (Job.type job) "render").
  { eapply (LogInv_started s _ l rest []); eauto; fields;
      rewrite ?length_alter; try reflexivity. }
  destruct (String.eqb (Job.type job) "batch").
  { unfold batchNext. fields. rewrite list_lookup_alter_eq, Hjob. simpl.
    destruct (0 <? length (Job.files job))%nat.
    - eapply (LogInv_started s _ l rest [(jobProgress, l)]); eauto; fields;
        rewrite ?length_alter; try reflexivity.
      + rewrite <- app_assoc. reflexivity.
      + quiet_events.
    - eapply (LogInv_started s _ l rest []); eauto; fields;
        rewrite ?length_alter; try reflexivity. }
  unfold jobFails.
  eapply (LogInv_started s _ l rest [(jobFailed, l)]); eauto; fields;
    rewrite ?length_alter; try reflexivity.
  - rewrite <- app_assoc. reflexivity.
  - quiet_events.
Qed.

Lemma Both_dispatch now s : Inv s /\ LogInv s -> Inv (dispatch now s) /\ LogInv (dispatch now s).
Proof.
  funelim (dispatch now s); intros [HI HL]; try (split; assumption).
  apply H. split; [apply Inv_processJob | apply LogInv_processJob]; assumption.
Qed.

Lemma LogInv_same s s' :
  heap s' = heap s -> queue s' = queue s -> emitted s' = emitted s ->
  LogInv s -> LogInv s'.
Proof. intros Hh Hq He []. split; rewrite ?Hh, ?Hq, ?He; assumption. Qed.

Lemma Both_same s s' :
  heap s' = heap s -> jobs s' = jobs s -> queue s' = queue s ->
  tasks s' = tasks s -> activeJobs s' = activeJobs s ->
  concurrency s' = concurrency s -> emitted s' = emitted s ->
  Inv s /\ LogInv s -> Inv s' /\ LogInv s'.
Proof.
  intros Hh Hj Hq Ht Ha Hc He [HI HL]. split.
  - eapply Inv_same; eauto.
  - eapply LogInv_same; eauto.
Qed.

Lemma Both_processQueueLoop now s :
  Inv s /\ LogInv s -> Inv (processQueueLoop now s) /\ LogInv (processQueueLoop now s).
Proof.
  intros H. unfold processQueueLoop. destruct (_ && _).
  - eapply Both_same; [..|apply (Both_dispatch now s H)]; reflexivity.
  - eapply Both_same; [..|exact H]; reflexivity.
Qed.

Lemma Both_processQueue now s :
  Inv s /\ LogInv s -> Inv (processQueue now s) /\ LogInv (processQueue now s).
Proof.
  intros H. unfold processQueue. destruct (renderer s); [|assumption].
  apply Both_processQueueLoop. eapply Both_same; [..|exact H]; reflexivity.
Qed.

Lemma LogInv_addJob uuid now jobData s :
  Inv s -> LogInv s -> freshId uuid s = true ->
  LogInv (snd (addJob uuid now jobData s)).
Proof.
  intros HI HL Hfresh. unfold addJob. cbn [snd].
  pose proof (Inv_enqueue uuid now jobData s HI Hfresh) as HI'.
  assert (HL' : LogInv (emit jobAdded (length (heap s))
                 (set_queue (queue s ++ [length (heap s)])
                    (set_jobs (<[uuid := length (heap s)]> (jobs s))
                       (set_heap (heap s ++ [newJob uuid now jobData]) s))))).
  { eapply LogInv_added; eauto; reflexivity. }
  cbn [isProcessing emit set_queue set_jobs set_heap].
  destruct (isProcessing s); [assumption|].
  now apply Both_processQueue.
Qed.

Lemma LogInv_cancelJob jobId now s :
  Inv s -> LogInv s -> LogInv (snd (cancelJob jobId now s)).
Proof.
  intros HI HL. unfold cancelJob.
  destruct (jobs s !! jobId) as [l|] eqn:Hj; [|assumption].
  destruct (heap s !! l) as [job|] eqn:Hl; [|assumption].
  case_decide as Hpend; [|assumption].
  destruct (queueFindIndex_spec s jobId l job HI Hj Hl Hpend) as (k & -> & Hk).
  cbn [snd].
  eapply (LogInv_quiet s _ [(jobCancelled, l)]); eauto; fields;
    rewrite ?length_alter; try reflexivity.
  - quiet_events.
  - intros l' Hl'.
    rewrite (elem_of_delete_NoDup (queue s) k l
               (StronglySorted_lt_NoDup _ (inv_queue_sorted s HI)) Hk).
    rewrite list_elem_of_singleton.
    destruct (decide (l' = l)) as [->|]; [tauto|]. left. tauto.
Qed.

Lemma LogInv_progressCallback s l p :
  LogInv s -> LogInv (progressCallback l p s).
Proof.
  intros HL. unfold progressCallback.
  eapply (LogInv_quiet s _ [(jobProgress, l)]); eauto; fields;
    rewrite ?length_alter; try reflexivity.
  - quiet_events.
  - tauto.
Qed.

Lemma LogInv_resume env now l s w s' w' :
  LogInv s -> resume env now l (s, w) = Some (s', w') -> LogInv s'.
Proof.
  intros HL. unfold resume.
  destruct (list_find _ (tasks s)) as [[k t]|] eqn:Hfind; [|discriminate].
  fields. destruct (heap s !! l) as [job|] eqn:Hl; [|discriminate].
  destruct t as [l0|l0 i results].
  - destruct (rendererRenderGLB env _ _ _ w) as [[result|message] w1];
      intros [= <- <-].
    + unfold jobCompletes.
      eapply (LogInv_quiet s _ [(jobCompleted, l)]); eauto; fields;
        rewrite ?length_alter; try reflexivity; [quiet_events | tauto].
    + unfold jobFails.
      eapply (LogInv_quiet s _ [(jobFailed, l)]); eauto; fields;
        rewrite ?length_alter; try reflexivity; [quiet_events | tauto].
  - destruct (Job.files job !! i) as [fileName|].
    + destruct (rendererRenderGLB env _ _ _ w) as [r w1]. intros [= <- <-].
      unfold batchNext. fields. rewrite Hl.
      destruct (S i <? length (Job.files job))%nat.
      * eapply (LogInv_quiet s _ [(jobProgress, l)]); eauto; fields;
          rewrite ?length_alter; try reflexivity; [quiet_events | tauto].
      * eapply (LogInv_quiet s _ []); eauto; fields;
          rewrite ?app_nil_r; try reflexivity; tauto.
    + intros [= <- <-]. unfold jobCompletes.
      eapply (LogInv_quiet s _ [(jobCompleted, l)]); eauto; fields;
        rewrite ?length_alter; try reflexivity; [quiet_events | tauto].
Qed.

Lemma Both_exec env ev s w s' w' :
  Inv s /\ LogInv s -> exec env ev (s, w) = Some (s', w') ->
  Inv s' /\ LogInv s'.
Proof.
  intros HB Hex. split; [eapply Inv_exec; [apply HB | exact Hex]|].
  destruct HB as [HI HL]. revert Hex. destruct ev; cbn [exec].
  - intros [= <- <-]. apply Both_processQueue.
    eapply Both_same; [..|split; eassumption]; reflexivity.
  - intros [= <- <-]. eapply LogInv_same; [..|exact HL]; reflexivity.
  - destruct (freshId uuid s) eqn:Hf; [|discriminate].
    intros [= <- <-]. now apply LogInv_addJob.
  - intros [= <- <-]. now apply LogInv_cancelJob.
  - intros [= <- <-]. eapply LogInv_same; [..|exact HL]; reflexivity.
  - case_bool_decide; [|discriminate]. intros [= <- <-].
    apply Both_processQueueLoop.
    eapply Both_same; [..|split; eassumption]; reflexivity.
  - destruct (existsb _ _); [|discriminate]. intros [= <- <-].
    now apply LogInv_progressCallback.
  - now apply LogInv_resume.
Qed.

Lemma LogInv_constructor : LogInv constructor.
Proof.
  split; simpl.
  - reflexivity.
  - intros pre post B H. destruct pre; discriminate.
  - intros l H. lia.
Qed.

Lemma Both_run env evs sys sys' :
  Inv (fst sys) /\ LogInv (fst sys) -> run env evs sys = Some sys' ->
  Inv (fst sys') /\ LogInv (fst sys').
Proof.
  revert sys. induction evs as [|ev evs IH]; intros [s w]; cbn [run fst].
  - intros HB [= <-]. exact HB.
  - intros HB. destruct (exec env ev (s, w)) as [[s1 w1]|] eqn:Hex; [|discriminate].
    apply IH. cbn [fst]. eapply Both_exec; eauto.
Qed.

Lemma reachable_LogInv env sys :
  reachable env sys -> Inv (fst sys) /\ LogInv (fst sys).
Proof.
  intros [evs Hrun]. eapply Both_run; [|exact Hrun].
  split; [apply Inv_constructor | apply LogInv_constructor].
Qed.

(** ** One still job, from dispatch to its end *)

Lemma list_find_snoc_fresh l (ts : list Task) (t : Task) :
  Forall (fun t => taskJob t <> l) ts -> taskJob t = l ->
  list_find (fun t => taskJob t = l) (ts ++ [t]) = Some (length ts, t).
Proof.
  intros Hts Ht. rewrite list_find_app_r by (now apply list_find_None).
  simpl. rewrite decide_True by assumption. reflexivity.
Qed.

Lemma delete_snoc {A} (xs : list A) (x : A) : delete (length xs) (xs ++ [x]) = xs.
Proof. induction xs as [|y xs IH]; simpl; [reflexivity|]. f_equal. exact IH. Qed.

Lemma heap_afterStart started l s :
  heap (afterStart started l s) = alter (startedJob started) l (heap s).
Proof. unfold afterStart. cbn [emit heap]. now rewrite heap_jobs_set. Qed.

Lemma tasks_afterStart started l s : tasks (afterStart started l s) = tasks s.
Proof. unfold afterStart. cbn [emit tasks]. now rewrite tasks_jobs_set. Qed.

Lemma renderer_afterStart started l s :
  renderer (afterStart started l s) = renderer s.
Proof. unfold afterStart. cbn [emit renderer]. now rewrite renderer_jobs_set. Qed.

Lemma processJob_render started l s job :
  heap s !! l = Some job ->
  Job.type job = "render" ->
  processJob started l s
  = set_tasks (tasks s ++ [TRender l]) (afterStart started l s).
Proof.
  intros Hl Hty. unfold processJob. cbv zeta.
  change (emit jobStarted l
            (jobs_set l
               (updateJob l
                  (fun job0 => Job.with_startedAt started
                                 (Job.with_status processing job0))
                  (set_activeJobs (activeJobs s + 1) s))))
    with (afterStart started l s).
  rewrite heap_afterStart, list_lookup_alter_eq, Hl. cbn [fmap option_fmap option_map].
  change (Job.type (startedJob started job)) with (Job.type job).
  rewrite Hty. change (String.eqb "render" "render") with true. cbv iota.
  now rewrite tasks_afterStart.
Qed.

Lemma resume_render env finished l s w ts job :
  tasks s = ts ++ [TRender l] ->
  Forall (fun t => taskJob t <> l) ts ->
  heap s !! l = Some job ->
  resume env finished l (s, w)
  = match rendererRenderGLB env (set_tasks ts s) (Job.fileName job)
            (Job.options job) w with
    | (Ret result, w1) =>
        Some (jobCompletes finished l result
                (jobs_set l (updateJob l (Job.with_progress 100) (set_tasks ts s))),
              w1)
    | (Throw message, w1) => Some (jobFails finished l message (set_tasks ts s), w1)
    end.
Proof.
  intros Ht Hts Hl. unfold resume. rewrite Ht.
  rewrite (list_find_snoc_fresh l ts (TRender l) Hts eq_refl).
  rewrite delete_snoc. cbn [heap set_tasks]. rewrite Hl. reflexivity.
Qed.

Lemma heap_jobCompletes finished l result s :
  heap (jobCompletes finished l result s)
  = alter (completedJob finished result) l (heap s).
Proof.
  unfold jobCompletes. cbn [set_activeJobs emit heap].
  now rewrite heap_jobs_set.
Qed.

Lemma still_job_completes env s w l job r started finished :
  heap s !! l = Some job ->
  Job.type job = "render" ->
  modeOf (Job.options job) = StillMode ->
  renderer s = Some r -> isInitialized r = true -> browser r = true ->
  othersOk env ->
  Forall (fun t => taskJob t <> l) (tasks s) ->
  exists s' w' job' artifacts d,
    processJobToEnd env started finished l (s, w) = Some (s', w')
    /\ heap s' !! l = Some job'
    /\ Job.status job' = completed
    /\ Job.result job' = stillResult artifacts d (Job.options job)
    /\ length artifacts
       + failedViews env (Job.fileName job) (Job.options job)
           (expandViews (views (Job.options job)))
           (worldAtCapture env (Job.fileName job) (Job.options job) w)
       = length (expandViews (views (Job.options job))).
Proof.
  intros Hl Hty Hmode Hr Hi Hb Hok Hts.
  destruct (renderGLB_still env r (Job.fileName job) (Job.options job) w
              Hi Hb Hmode Hok) as (arts & d & w' & Hrun & Hlen).
  unfold processJobToEnd. cbn [fst snd].
  rewrite (processJob_render started l s job Hl Hty).
  rewrite (resume_render env finished l _ w (tasks s) (startedJob started job));
    [|reflexivity|assumption|].
  2: { cbn [set_tasks heap]. rewrite heap_afterStart, list_lookup_alter_eq, Hl.
       reflexivity. }
  unfold rendererRenderGLB at 1. cbn [set_tasks renderer].
  rewrite renderer_afterStart, Hr.
  change (Job.fileName (startedJob started job)) with (Job.fileName job).
  change (Job.options (startedJob started job)) with (Job.options job).
  rewrite Hrun.
  eexists _, w', _, arts, d. split; [reflexivity|].
  split.
  - rewrite heap_jobCompletes, heap_jobs_set. cbn [updateJob set_heap heap set_tasks].
    rewrite heap_afterStart, !list_lookup_alter_eq, Hl. reflexivity.
  - split; [reflexivity|]. split; [reflexivity|]. exact Hlen.
Qed.

(** C1 (amended).  In still mode, when the page is prepared and closed
    without error, a job whose [N] expanded views include [K] failing ones
    completes: every failure is caught inside the loop, the loop goes on to
    the remaining views, and the result holds exactly [N - K] artifacts.
    The failures are written to the console only: the result object has no
    [errors] property. *)
Theorem still_views_partial_failure env s w l job r started finished :
  heap s !! l = Some job ->
  Job.type job = "render" ->
  modeOf (Job.options job) = StillMode ->
  renderer s = Some r -> isInitialized r = true -> browser r = true ->
  othersOk env ->
  Forall (fun t => taskJob t <> l) (tasks s) ->
  let vs := expandViews (views (Job.options job)) in
  let K := failedViews env (Job.fileName job) (Job.options job) vs
             (worldAtCapture env (Job.fileName job) (Job.options job) w) in
  exists s' w' job',
    processJobToEnd env started finished l (s, w) = Some (s', w')
    /\ heap s' !! l = Some job'
    /\ Job.status job' = completed
    /\ arrayLength (getField "results" (Job.result job')) = Some (length vs - K)
    /\ getField "errors" (Job.result job') = VUndefined.
Proof.
  intros Hl Hty Hmode Hr Hi Hb Hok Hts vs K.
  destruct (still_job_completes env s w l job r started finished
              Hl Hty Hmode Hr Hi Hb Hok Hts)
    as (s' & w' & job' & arts & d & Hrun & Hl' & Hst & Hres & Hlen).
  exists s', w', job'. repeat split; try assumption.
  - rewrite Hres. simpl. f_equal. subst vs K. lia.
  - rewrite Hres. reflexivity.
Qed.

(** The theorem of C1 at six views of which [top] and [bottom] fail. *)
Lemma still_views_partial_failure_witness :
  let s := pendingState (stillOptions ["all"]) in
  let job := newJob "job-1" 1 (renderJobData (stillOptions ["all"])) in
  let vs := expandViews (views (Job.options job)) in
  let K := failedViews twoViewsDownEnv (Job.fileName job) (Job.options job) vs
             (worldAtCapture twoViewsDownEnv (Job.fileName job)
                (Job.options job) emptyWorld) in
  exists s' w' job',
    processJobToEnd twoViewsDownEnv 2 3 0 (s, emptyWorld) = Some (s', w')
    /\ heap s' !! 0 = Some job'
    /\ Job.status job' = completed
    /\ arrayLength (getField "results" (Job.result job')) = Some (length vs - K)
    /\ getField "errors" (Job.result job') = VUndefined.
Proof.
  apply (still_views_partial_failure twoViewsDownEnv
           (pendingState (stillOptions ["all"])) emptyWorld 0
           (newJob "job-1" 1 (renderJobData (stillOptions ["all"])))
           initializedRenderer 2 3).
  - reflexivity.
  - reflexivity.
  - vm_compute. reflexivity.
  - reflexivity.
  - reflexivity.
  - reflexivity.
  - intros t c Hc. destruct c; try discriminate Hc; exists 1024; reflexivity.
  - vm_compute. constructor.
Defined.

Example six_views_two_failures :
  let job := newJob "job-1" 1 (renderJobData (stillOptions ["all"])) in
  failedViews twoViewsDownEnv (Job.fileName job) (Job.options job)
    (expandViews (views (Job.options job)))
    (worldAtCapture twoViewsDownEnv (Job.fileName job) (Job.options job) emptyWorld)
  = 2.
Proof. vm_compute. reflexivity. Qed.

(** C1, as specified, fails: with 6 views and 2 forced failures the result
    has no error list of 2 entries. *)
Lemma still_errors_are_not_recorded :
  ~ stillResilienceAsSpecified twoViewsDownEnv
      (pendingState (stillOptions ["all"]), emptyWorld) 0 6 2.
Proof.
  intros (s' & w' & job' & Hrun & Hl & _ & _ & Herr).
  vm_compute in Hrun. injection Hrun as <- <-.
  vm_compute in Hl. injection Hl as <-.
  vm_compute in Herr. discriminate.
Qed.

Example six_views_two_failures_job :
  exists s' w' job',
    processJobToEnd twoViewsDownEnv 2 3 0
      (pendingState (stillOptions ["all"]), emptyWorld) = Some (s', w')
    /\ heap s' !! 0 = Some job'
    /\ Job.status job' = completed
    /\ arrayLength (getField "results" (Job.result job')) = Some 4
    /\ getField "errors" (Job.result job') = VUndefined
    /\ Job.error job' = VNull.
Proof.
  destruct (processJobToEnd twoViewsDownEnv 2 3 0
              (pendingState (stillOptions ["all"]), emptyWorld))
    as [[s' w']|] eqn:Hrun; [|vm_compute in Hrun; discriminate].
  exists s', w'.
  vm_compute in Hrun. injection Hrun as <- <-.
  eexists. split; [reflexivity|]. split; [vm_compute; reflexivity|].
  vm_compute. repeat split; reflexivity.
Qed.

(** C2 (amended).  In still mode, when the page is prepared and closed
    without error, the job ends [completed], never [failed], whatever the
    views do; when every single view fails, its artifact list is empty. *)
Theorem still_job_completes_without_views env s w l job r started finished :
  heap s !! l = Some job ->
  Job.type job = "render" ->
  modeOf (Job.options job) = StillMode ->
  renderer s = Some r -> isInitialized r = true -> browser r = true ->
  othersOk env ->
  Forall (fun t => taskJob t <> l) (tasks s) ->
  exists s' w' job',
    processJobToEnd env started finished l (s, w) = Some (s', w')
    /\ heap s' !! l = Some job'
    /\ Job.status job' = completed
    /\ Job.status job' <> failed
    /\ (failedViews env (Job.fileName job) (Job.options job)
          (expandViews (views (Job.options job)))
          (worldAtCapture env (Job.fileName job) (Job.options job) w)
        = length (expandViews (views (Job.options job))) ->
        getField "results" (Job.result job') = VArr []).
Proof.
  intros Hl Hty Hmode Hr Hi Hb Hok Hts.
  destruct (still_job_completes env s w l job r started finished
              Hl Hty Hmode Hr Hi Hb Hok Hts)
    as (s' & w' & job' & arts & d & Hrun & Hl' & Hst & Hres & Hlen).
  exists s', w', job'. repeat split; try assumption.
  - rewrite Hst. discriminate.
  - intros Hall. rewrite Hres. simpl.
    destruct arts as [|a arts]; [reflexivity|]. simpl in Hlen. lia.
Qed.

(** The theorem of C2 at two views whose screenshots both fail. *)
Lemma still_job_completes_without_views_witness :
  let s := pendingState (stillOptions ["front"; "side"]) in
  let job := newJob "job-1" 1 (renderJobData (stillOptions ["front"; "side"])) in
  exists s' w' job',
    processJobToEnd noScreenshotEnv 2 3 0 (s, emptyWorld) = Some (s', w')
    /\ heap s' !! 0 = Some job'
    /\ Job.status job' = completed
    /\ Job.status job' <> failed
    /\ (failedViews noScreenshotEnv (Job.fileName job) (Job.options job)
          (expandViews (views (Job.options job)))
          (worldAtCapture noScreenshotEnv (Job.fileName job) (Job.options job)
             emptyWorld)
        = length (expandViews (views (Job.options job))) ->
        getField "results" (Job.result job') = VArr []).
Proof.
  apply (still_job_completes_without_views noScreenshotEnv
           (pendingState (stillOptions ["front"; "side"])) emptyWorld 0
           (newJob "job-1" 1 (renderJobData (stillOptions ["front"; "side"])))
           initializedRenderer 2 3).
  - reflexivity.
  - reflexivity.
  - vm_compute. reflexivity.
  - reflexivity.
  - reflexivity.
  - reflexivity.
  - intros t c Hc. destruct c; try discriminate Hc; exists 1024; reflexivity.
  - vm_compute. constructor.
Defined.

Example every_view_fails :
  let job := newJob "job-1" 1 (renderJobData (stillOptions ["front"; "side"])) in
  failedViews noScreenshotEnv (Job.fileName job) (Job.options job)
    (expandViews (views (Job.options job)))
    (worldAtCapture noScreenshotEnv (Job.fileName job) (Job.options job) emptyWorld)
  = 2.
Proof. vm_compute. reflexivity. Qed.

(** C2, as specified, fails: with every view capture failing the job does
    not end [failed]. *)
Lemma still_job_with_no_view_is_not_failed :
  ~ stillTotalFailureAsSpecified noScreenshotEnv
      (pendingState (stillOptions ["front"; "side"]), emptyWorld) 0.
Proof.
  intros (s' & w' & job' & Hrun & Hl & Hst).
  vm_compute in Hrun. injection Hrun as <- <-.
  vm_compute in Hl. injection Hl as <-.
  vm_compute in Hst. discriminate.
Qed.

(** ** Terminal states *)

(** C3 (amended).  In every state the service can reach, a [completed] job
    has a result, no error and progress 100; a [failed] job has an error, no
    result and a progress other than 100; a [cancelled] job has neither
    result nor error and a progress other than 100.  So exactly one of
    [result] and [error] is populated for [completed] and [failed] jobs, and
    progress is 100 exactly for [completed] jobs. *)
Theorem terminal_job_fields env sys l job :
  reachable env sys ->
  heap (fst sys) !! l = Some job ->
  (Job.status job = completed ->
     populated (Job.result job) /\ ~ populated (Job.error job)
     /\ Job.progress job = 100%Q)
  /\ (Job.status job = failed ->
        ~ populated (Job.result job) /\ populated (Job.error job)
        /\ ~ (Job.progress job == 100)%Q)
  /\ (Job.status job = cancelled ->
        ~ populated (Job.result job) /\ ~ populated (Job.error job)
        /\ ~ (Job.progress job == 100)%Q).
Proof.
  intros Hreach Hl. apply reachable_Inv in Hreach.
  pose proof (inv_content _ Hreach l job Hl) as Hc. unfold JobContent in Hc.
  unfold populated.
  split; [|split]; intros Hst; rewrite Hst in Hc; destruct Hc as (Hp & Hr & He).
  - rewrite He. split; [|split; [tauto | exact Hp]].
    destruct (Job.result job); try contradiction. split; discriminate.
  - rewrite Hr. split; [tauto|]. split.
    + destruct (Job.error job); try contradiction. split; discriminate.
    + intros H100. rewrite H100 in Hp. vm_compute in Hp. contradiction.
  - rewrite Hr, He, Hp. split; [tauto|]. split; [tauto | discriminate].
Qed.

(** The theorem of C3 at a turntable job whose first screenshot fails. *)
Lemma terminal_job_fields_witness :
  let sys := stateAfter (failingScreenshotEnv 10) failedEvents in
  let job := default (newJob "" 0 (renderJobData (stillOptions [])))
                     (heap (fst sys) !! 0) in
  (Job.status job = completed ->
     populated (Job.result job) /\ ~ populated (Job.error job)
     /\ Job.progress job = 100%Q)
  /\ (Job.status job = failed ->
        ~ populated (Job.result job) /\ populated (Job.error job)
        /\ ~ (Job.progress job == 100)%Q)
  /\ (Job.status job = cancelled ->
        ~ populated (Job.result job) /\ ~ populated (Job.error job)
        /\ ~ (Job.progress job == 100)%Q).
Proof.
  apply (terminal_job_fields (failingScreenshotEnv 10)
           (stateAfter (failingScreenshotEnv 10) failedEvents) 0).
  - exists failedEvents. vm_compute. reflexivity.
  - vm_compute. reflexivity.
Defined.

Example failed_job_keeps_its_progress :
  let sys := stateAfter (failingScreenshotEnv 10) failedEvents in
  exists job, heap (fst sys) !! 0 = Some job
    /\ Job.status job = failed
    /\ Job.error job = VStr "screenshot failed"
    /\ Job.result job = VNull
    /\ Job.progress job = 0%Q.
Proof. eexists. split; [vm_compute; reflexivity|]. repeat split. Qed.

(** The same failed turntable job leaves no frame directory behind, and the
    last thing it did before closing the page was to remove it. *)
Example failed_video_job_leaves_no_directory :
  let w := snd (stateAfter (failingScreenshotEnv 10) failedEvents) in
  elements (dirs w) = []
  /\ calls w !! 7 = Some (EnsureDir "storage/temp/frames_1007")
  /\ calls w !! 11 = Some (Remove "storage/temp/frames_1007")
  /\ calls w !! 12 = Some ClosePage
  /\ length (calls w) = 13.
Proof. vm_compute. repeat split; reflexivity. Qed.

(** C3, as specified, fails: a cancelled job has neither a result nor an
    error. *)
Lemma cancelled_job_has_neither_result_nor_error :
  exists job,
    heap (fst (stateAfter happyEnv cancelledEvents)) !! 0 = Some job
    /\ Job.status job = cancelled
    /\ ~ terminalFieldsAsSpecified job.
Proof.
  eexists. split; [vm_compute; reflexivity|]. split; [reflexivity|].
  unfold terminalFieldsAsSpecified, populated. simpl.
  intros [[[[H _] _]|[_ [H _]]] _]; apply H; reflexivity.
Qed.

(** ** Concurrency bound *)



Example three_jobs_two_slots :
  let s := fst (stateAfter happyEnv busyEvents) in
  activeJobs s = 2%Z /\ concurrency s = 2%Z /\ queue s = [2]
  /\ Job.status <$> heap s = [processing; processing; pending].
Proof. vm_compute. repeat split; reflexivity. Qed.

(** ** First in, first out *)

Lemma StronglySorted_seq (a n : nat) : StronglySorted lt (seq a n).
Proof.
  revert a. induction n as [|n IH]; intros a; simpl; constructor; [apply IH|].
  apply Forall_forall. intros x Hx. apply elem_of_seq in Hx. lia.
Qed.

Lemma addedBefore_lt (log : list (Emitted * nat)) (n A B : nat) :
  filter isAdded log = (fun l => (jobAdded, l)) <$> seq 0 n ->
  addedBefore A B log -> A < B.
Proof.
  intros Hf (l1 & l2 & l3 & ->).
  rewrite filter_app, filter_cons_True in Hf by reflexivity.
  rewrite filter_app, filter_cons_True in Hf by reflexivity.
  apply (f_equal (fmap snd)) in Hf.
  rewrite <- list_fmap_compose in Hf.
  replace (snd ∘ (fun l : nat => (jobAdded, l)) <$> seq 0 n) with (seq 0 n) in Hf
    by (symmetry; apply (list_fmap_id (seq 0 n))).
  rewrite fmap_app, fmap_cons, fmap_app, fmap_cons in Hf. simpl in Hf.
  pose proof (StronglySorted_seq 0 n) as Hs. rewrite <- Hf in Hs.
  apply StronglySorted_app in Hs as (_ & _ & Hs).
  apply StronglySorted_cons in Hs as [Hall _].
  rewrite Forall_forall in Hall. apply Hall.
  apply elem_of_app. right. left.
Qed.

(** C7.  In every run of the service, if job [A] was submitted before job
    [B], then at the moment [B] is started [A] is no longer pending: it has
    been started, or cancelled, earlier. *)
Theorem fifo_dispatch env sys pre post A B :
  reachable env sys ->
  emitted (fst sys) = pre ++ (jobStarted, B) :: post ->
  addedBefore A B (emitted (fst sys)) ->
  (jobStarted, A) ∈ pre \/ (jobCancelled, A) ∈ pre.
Proof.
  intros Hreach Hlog Hadd.
  apply reachable_LogInv in Hreach as [_ HL].
  apply (log_fifo _ HL pre post B Hlog).
  eapply addedBefore_lt; [apply (log_added _ HL) | exact Hadd].
Qed.

(** The theorem of C7 at four submissions with the third one cancelled
    while it waits. *)
Lemma fifo_dispatch_witness :
  let sys := stateAfter happyEnv fifoEvents in
  let pre := [(jobAdded, 0); (jobStarted, 0); (jobAdded, 1); (jobAdded, 2);
              (jobAdded, 3); (jobCancelled, 2); (jobStarted, 1);
              (jobCompleted, 0)] in
  (jobStarted, 2) ∈ pre \/ (jobCancelled, 2) ∈ pre.
Proof.
  apply (fifo_dispatch happyEnv (stateAfter happyEnv fifoEvents) _ [] 2 3).
  - exists fifoEvents. vm_compute. reflexivity.
  - vm_compute. reflexivity.
  - exists [(jobAdded, 0); (jobStarted, 0); (jobAdded, 1)], [],
      [(jobCancelled, 2); (jobStarted, 1); (jobCompleted, 0); (jobStarted, 3)].
    vm_compute. reflexivity.
Defined.

Example fifo_with_a_cancellation :
  emitted (fst (stateAfter happyEnv fifoEvents))
  = [(jobAdded, 0); (jobStarted, 0); (jobAdded, 1); (jobAdded, 2);
     (jobAdded, 3); (jobCancelled, 2); (jobStarted, 1); (jobCompleted, 0);
     (jobStarted, 3)].
Proof. vm_compute. reflexivity. Qed.

(** ** Cancellation *)

(** C9.  In every state the service can reach, cancelling a [pending] job
    succeeds: it returns [true], the job becomes [cancelled] with
    [completedAt] set, and it alone leaves the queue; cancelling a job in any
    other status returns [false] and changes nothing. *)
Theorem cancelJob_spec env s w jobId job now :
  reachable env (s, w) ->
  getJob jobId s = Some job ->
  (Job.status job = pending ->
     fst (cancelJob jobId now s) = true
     /\ (exists job', getJob jobId (snd (cancelJob jobId now s)) = Some job'
           /\ Job.status job' = cancelled
           /\ Job.completedAt job' = Some now)
     /\ (forall l, jobs s !! jobId = Some l ->
           l ∈ queue s /\ l ∉ queue (snd (cancelJob jobId now s)))
     /\ length (queue (snd (cancelJob jobId now s))) + 1 = length (queue s))
  /\ (Job.status job <> pending -> cancelJob jobId now s = (false, s)).
Proof.
  intros Hreach Hget. apply reachable_Inv in Hreach. simpl in Hreach.
  unfold getJob in Hget.
  destruct (jobs s !! jobId) as [l|] eqn:Hj; [|discriminate]. simpl in Hget.
  split.
  - intros Hpend.
    destruct (queueFindIndex_spec s jobId l job Hreach Hj Hget Hpend)
      as (k & Hk & Hqk).
    unfold cancelJob. rewrite Hj, Hget.
    rewrite decide_True by assumption. rewrite Hk. cbn [fst snd].
    split; [reflexivity|]. split; [|split].
    + exists (Job.with_completedAt now (Job.with_status cancelled job)).
      unfold getJob. fields. rewrite lookup_insert_eq. simpl.
      rewrite list_lookup_alter_eq, Hget. auto.
    + intros l' [= <-]. fields.
      pose proof (StronglySorted_lt_NoDup _ (inv_queue_sorted s Hreach)) as Hnd.
      rewrite (elem_of_delete_NoDup (queue s) k l Hnd Hqk).
      split; [eapply list_elem_of_lookup_2; eauto | tauto].
    + fields. rewrite length_delete by eauto.
      apply lookup_lt_Some in Hqk. lia.
  - intros Hnp. unfold cancelJob. rewrite Hj, Hget.
    rewrite decide_False by assumption. reflexivity.
Qed.

(** The theorem of C9 at a job that waits in the queue. *)
Lemma cancelJob_spec_witness :
  let s := fst (stateAfter happyEnv pendingEvents) in
  let job := newJob "job-1" 1 (renderJobData (stillOptions ["front"])) in
  (Job.status job = pending ->
     fst (cancelJob "job-1" 2 s) = true
     /\ (exists job', getJob "job-1" (snd (cancelJob "job-1" 2 s)) = Some job'
           /\ Job.status job' = cancelled
           /\ Job.completedAt job' = Some 2)
     /\ (forall l, jobs s !! "job-1" = Some l ->
           l ∈ queue s /\ l ∉ queue (snd (cancelJob "job-1" 2 s)))
     /\ length (queue (snd (cancelJob "job-1" 2 s))) + 1 = length (queue s))
  /\ (Job.status job <> pending -> cancelJob "job-1" 2 s = (false, s)).
Proof.
  apply (cancelJob_spec happyEnv (fst (stateAfter happyEnv pendingEvents))
           (snd (stateAfter happyEnv pendingEvents)) "job-1"
           (newJob "job-1" 1 (renderJobData (stillOptions ["front"]))) 2).
  - exists pendingEvents. vm_compute. reflexivity.
  - vm_compute. reflexivity.
Defined.

Example processing_job_rejects_cancellation :
  let s := fst (stateAfter happyEnv busyEvents) in
  fst (cancelJob "job-1" 9 s) = false
  /\ fst (cancelJob "job-3" 9 s) = true
  /\ fst (cancelJob "unknown" 9 s) = false.
Proof. vm_compute. repeat split; reflexivity. Qed.

(** ** A render that returns has captured every frame *)

Lemma captureFrame_ret env settle pad omit frameDir angleStep frame w w1 :
  captureFrame env settle pad omit frameDir angleStep frame w = (Ret tt, w1) ->
  calls w1 = calls w ++ frameCalls settle pad omit frameDir angleStep frame.
Proof.
  unfold captureFrame, bind, ret, frameCalls.
  repeat next_call; intros [= <-]; simpl.
  rewrite <- !app_assoc. reflexivity.
Qed.

Lemma captureFrames_ret env settle pad omit frameDir total angleStep frame w w1 :
  captureFrames env settle pad omit frameDir total angleStep frame w = (Ret tt, w1) ->
  calls w1
  = calls w ++ concat (frameCalls settle pad omit frameDir angleStep
                         <$> seq frame (framesLeft total frame)).
Proof.
  funelim (captureFrames env settle pad omit frameDir total angleStep frame w);
    try rewrite <- Heqcall.
  - intros [= <-]. rewrite (framesLeft_ge _ _ q0). simpl. now rewrite app_nil_r.
  - intros Hrun. destruct a. apply captureFrame_ret in Heq.
    rewrite (H _ Hrun), Heq, (framesLeft_lt _ _ Hlt). simpl.
    rewrite <- !app_assoc. reflexivity.
  - discriminate.
Qed.


Lemma renderVideo_ret env fileName options w v w' :
  renderVideo env fileName options w = (Ret v, w') ->
  let total := (duration options * fps options)%Q in
  let out := path_join (storage_renders env)
               (path_name env fileName +:+ "_turntable.mp4") in
  calls w'
  = calls w ++ turntableCalls 50 6 (transparent options) (videoFrameDir env w)
                 total
                 (ConvertFramesToVideo (videoFrameDir env w) out (fps options))
                 out
  /\ getField "type" v = VStr "video"
  /\ getField "path" v = VStr out
  /\ getField "frames" v = VNum total.
Proof.
  unfold renderVideo, videoFrameDir, turntableCalls, bind, dateNow, tryCatch,
    ret, throw, swallow.
  next_call; [|discriminate].
  match goal with |- context [captureFrames ?e ?a ?b ?c ?d ?t ?st ?f ?w0] =>
    destruct (captureFrames e a b c d t st f w0) as [[[]|msg] w1] eqn:Hcap end.
  2: { rewrite call_world. discriminate. }
  apply captureFrames_ret in Hcap. simpl in Hcap.
  unfold framesLeft in Hcap. rewrite Nat.sub_0_r in Hcap.
  repeat next_call; rewrite ?call_world; simpl; try discriminate.
  intros [= <- <-]. unfold frameCount. cbn [calls]. rewrite Hcap.
  rewrite <- !app_assoc. simpl. repeat split; reflexivity.
Qed.

Lemma renderGIF_ret env fileName options w v w' :
  renderGIF env fileName options w = (Ret v, w') ->
  let total := (Math_min (duration options) 3 * Math_min (fps options) 15)%Q in
  let out := path_join (storage_renders env)
               (path_name env fileName +:+ "_animated.gif") in
  calls w'
  = calls w ++ turntableCalls 100 4 false (gifFrameDir env w) total
                 (ConvertFramesToGIF (gifFrameDir env w) out
                    (Math_min (fps options) 15))
                 out
  /\ getField "type" v = VStr "gif"
  /\ getField "path" v = VStr out
  /\ getField "frames" v = VNum total.
Proof.
  unfold renderGIF, gifFrameDir, turntableCalls, bind, dateNow, tryCatch,
    ret, throw, swallow.
  next_call; [|discriminate].
  match goal with |- context [captureFrames ?e ?a ?b ?c ?d ?t ?st ?f ?w0] =>
    destruct (captureFrames e a b c d t st f w0) as [[[]|msg] w1] eqn:Hcap end.
  2: { rewrite call_world. discriminate. }
  apply captureFrames_ret in Hcap. simpl in Hcap.
  unfold framesLeft in Hcap. rewrite Nat.sub_0_r in Hcap.
  repeat next_call; rewrite ?call_world; simpl; try discriminate.
  intros [= <- <-]. unfold frameCount. cbn [calls]. rewrite Hcap.
  rewrite <- !app_assoc. simpl. repeat split; reflexivity.
Qed.



(** ** The calls a render makes *)

Section Only.
Context (P : Call -> bool).

Lemma only_ret {A} (a : A) : only P (ret a).
Proof. intros w. exists []. simpl. now rewrite app_nil_r. Qed.

Lemma only_throw {A} msg : only P (@throw A msg).
Proof. intros w. exists []. simpl. now rewrite app_nil_r. Qed.

Lemma only_dateNow env : only P (dateNow env).
Proof. intros w. exists []. simpl. now rewrite app_nil_r. Qed.

Lemma only_call env c : P c = true -> only P (call env c).
Proof.
  intros Hc w. exists [c]. rewrite call_world. simpl. rewrite Hc.
  repeat split. unfold call.
  destruct c; try discriminate; destruct (reply env (tick w) _); reflexivity.
Qed.

Lemma only_step w w1 w2 ext1 ext2 :
  calls w1 = calls w ++ ext1 -> forallb P ext1 = true ->
  (existsb isDirCall ext1 = false -> dirs w1 = dirs w) ->
  calls w2 = calls w1 ++ ext2 -> forallb P ext2 = true ->
  (existsb isDirCall ext2 = false -> dirs w2 = dirs w1) ->
  exists ext, calls w2 = calls w ++ ext /\ forallb P ext = true
              /\ (existsb isDirCall ext = false -> dirs w2 = dirs w).
Proof.
  intros H1 HP1 Hd1 H2 HP2 Hd2. exists (ext1 ++ ext2).
  rewrite H2, H1, <- app_assoc. split; [reflexivity|].
  rewrite forallb_app, HP1, HP2, existsb_app. split; [reflexivity|].
  intros [E1 E2]%orb_false_iff. rewrite Hd2, Hd1; auto.
Qed.

Lemma only_bind {A B} (m : M A) (k : A -> M B) :
  only P m -> (forall a, only P (k a)) -> only P (bind m k).
Proof.
  intros Hm Hk w. destruct (Hm w) as (ext1 & H1 & HP1 & Hd1). unfold bind.
  destruct (m w) as [[a|msg] w1] eqn:E; simpl in H1, Hd1.
  - destruct (Hk a w1) as (ext2 & H2 & HP2 & Hd2).
    apply (only_step w w1 _ ext1 ext2); assumption.
  - exists ext1. auto.
Qed.

Lemma only_tryCatch {A} (m : M A) (h : string -> M A) :
  only P m -> (forall msg, only P (h msg)) -> only P (tryCatch m h).
Proof.
  intros Hm Hh w. destruct (Hm w) as (ext1 & H1 & HP1 & Hd1). unfold tryCatch.
  destruct (m w) as [[a|msg] w1] eqn:E; simpl in H1, Hd1.
  - exists ext1. auto.
  - destruct (Hh msg w1) as (ext2 & H2 & HP2 & Hd2).
    apply (only_step w w1 _ ext1 ext2); assumption.
Qed.

Lemma only_tryFinally {A} (m : M A) (f : M unit) :
  only P m -> only P f -> only P (tryFinally m f).
Proof.
  intros Hm Hf w. destruct (Hm w) as (ext1 & H1 & HP1 & Hd1). unfold tryFinally.
  destruct (m w) as [r w1] eqn:E; simpl in H1, Hd1.
  destruct (Hf w1) as (ext2 & H2 & HP2 & Hd2).
  destruct (f w1) as [[[]|msg] w2]; simpl in H2, Hd2;
    apply (only_step w w1 _ ext1 ext2); assumption.
Qed.

Lemma only_swallow (m : M nat) : only P m -> only P (swallow m).
Proof. intros Hm w. exact (Hm w). Qed.

Lemma only_captureFrame env settle pad omit frameDir angleStep frame :
  (forall c, isFrameCall c = true -> P c = true) ->
  only P (captureFrame env settle pad omit frameDir angleStep frame).
Proof.
  intros HP. unfold captureFrame.
  repeat (apply only_bind; [apply only_call; apply HP; reflexivity | intros _]).
  apply only_ret.
Qed.

Lemma only_captureFrames env settle pad omit frameDir total angleStep frame :
  (forall c, isFrameCall c = true -> P c = true) ->
  only P (captureFrames env settle pad omit frameDir total angleStep frame).
Proof.
  intros HP w.
  funelim (captureFrames env settle pad omit frameDir total angleStep frame w);
    try rewrite <- Heqcall.
  - exists []. simpl. now rewrite app_nil_r.
  - destruct (only_captureFrame env settle pad omit frameDir angleStep frame HP w)
      as (ext1 & H1 & HP1 & Hd1).
    destruct (H HP) as (ext2 & H2 & HP2 & Hd2).
    rewrite Heq in H1, Hd1. simpl in H1, Hd1.
    eapply (only_step w w1 _ ext1 ext2); eauto.
  - destruct (only_captureFrame env settle pad omit frameDir angleStep frame HP w)
      as (ext1 & H1 & HP1 & Hd1).
    rewrite Heq in H1, Hd1. exists ext1. auto.
Qed.

Lemma only_renderView env fileName options view :
  (forall c, isViewCall c = true -> P c = true) ->
  only P (renderView env fileName options view).
Proof.
  intros HP. unfold renderView.
  repeat (apply only_bind; [apply only_call; apply HP; reflexivity | intros ?]).
  apply only_bind.
  { destruct (postProcessing options);
      [apply only_call; apply HP; reflexivity | apply only_ret]. }
  intros ?.
  apply only_bind; [apply only_call; apply HP; reflexivity | intros ?].
  apply only_ret.
Qed.

Lemma only_renderImagesLoop env fileName options views results :
  (forall c, isViewCall c = true -> P c = true) ->
  only P (renderImagesLoop env fileName options views results).
Proof.
  intros HP. revert results.
  induction views as [|view rest IH]; intros results w; simpl.
  - exists []. simpl. now rewrite app_nil_r.
  - destruct (only_renderView env fileName options view HP w)
      as (ext1 & H1 & HP1 & Hd1).
    destruct (renderView env fileName options view w) as [[a|msg] w1] eqn:E;
      simpl in H1, Hd1.
    + destruct (IH (results ++ [a]) w1) as (ext2 & H2 & HP2 & Hd2).
      eapply (only_step w w1 _ ext1 ext2); eauto.
    + destruct (IH results w1) as (ext2 & H2 & HP2 & Hd2).
      eapply (only_step w w1 _ ext1 ext2); eauto.
Qed.

Lemma only_renderVideo env fileName options :
  (forall c, isVideoCall c = true -> P c = true) ->
  only P (renderVideo env fileName options).
Proof.
  intros HP. unfold renderVideo.
  apply only_bind; [apply only_dateNow | intros now].
  apply only_bind; [apply only_call; apply HP; auto | intros _].
  apply only_tryCatch.
  - apply only_bind.
    { apply only_captureFrames. intros [] Hc; try discriminate; apply HP; auto. }
    intros _.
    repeat (apply only_bind; [apply only_call; apply HP; auto | intros ?]).
    apply only_ret.
  - intros msg. apply only_bind; [|intros _; apply only_throw].
    apply only_swallow, only_call, HP. auto.
Qed.

Lemma only_renderGIF env fileName options :
  (forall c, isGifCall c = true -> P c = true) ->
  only P (renderGIF env fileName options).
Proof.
  intros HP. unfold renderGIF.
  apply only_bind; [apply only_dateNow | intros now].
  apply only_bind; [apply only_call; apply HP; auto | intros _].
  apply only_tryCatch.
  - apply only_bind.
    { apply only_captureFrames. intros [] Hc; try discriminate; apply HP; auto. }
    intros _.
    repeat (apply only_bind; [apply only_call; apply HP; auto | intros ?]).
    apply only_ret.
  - intros msg. apply only_bind; [|intros _; apply only_throw].
    apply only_swallow, only_call, HP. auto.
Qed.

Lemma only_preparePage env fileName options :
  (forall c, isPrepareCall c = true -> P c = true) ->
  only P (preparePage env fileName options).
Proof.
  intros HP. unfold preparePage.
  destruct (getViewportFromPreset _ _ _) as [vw vh].
  repeat (apply only_bind; [apply only_call; apply HP; reflexivity | intros ?]).
  apply only_ret.
Qed.

Lemma only_capture env fileName options :
  (forall c, isModeCall (modeOf options) c = true -> P c = true) ->
  only P (capture env fileName options).
Proof.
  unfold capture. destruct (modeOf options); simpl; intros HP.
  - apply only_bind; [|intros ?; apply only_ret]. now apply only_renderVideo.
  - apply only_bind; [|intros ?; apply only_ret]. now apply only_renderGIF.
  - now apply only_renderImagesLoop.
Qed.

(** The body of the [try] of [renderGLB]. *)
Lemma only_page_body env fileName options startTime :
  (forall c, isPrepareCall c = true -> P c = true) ->
  (forall c, isModeCall (modeOf options) c = true -> P c = true) ->
  only P
    (preparePage env fileName options ;;;
     results <- capture env fileName options ;;
     endTime <- dateNow env ;;
     ret (VObj [("success", VBool true);
                ("results", VArr results);
                ("duration", VNum (inject_Z (Z.of_nat endTime - Z.of_nat startTime)));
                ("options", optionsValue options)])).
Proof.
  intros HP1 HP2.
  apply only_bind; [now apply only_preparePage | intros _].
  apply only_bind; [now apply only_capture | intros results].
  apply only_bind; [apply only_dateNow | intros endTime]. apply only_ret.
Qed.

Lemma only_renderGLB env r fileName options :
  (forall c, isPageCall c = true -> P c = true) ->
  (forall c, isPrepareCall c = true -> P c = true) ->
  (forall c, isModeCall (modeOf options) c = true -> P c = true) ->
  only P (renderGLB env r fileName options).
Proof.
  intros HP0 HP1 HP2. unfold renderGLB.
  destruct (negb (isInitialized r) || negb (browser r)); [apply only_throw|].
  apply only_bind; [apply only_dateNow | intros startTime].
  apply only_bind; [apply only_call, HP0; reflexivity | intros _].
  apply only_tryFinally; [now apply only_page_body|].
  apply only_bind; [apply only_call, HP0; reflexivity | intros _].
  apply only_ret.
Qed.
End Only.

Lemma only_newCalls {A} P (m : M A) w :
  only P m ->
  forallb P (newCalls w (snd (m w))) = true
  /\ (existsb isDirCall (newCalls w (snd (m w))) = false ->
      dirs (snd (m w)) = dirs w).
Proof.
  intros Hm. destruct (Hm w) as (ext & H & HP & Hd).
  unfold newCalls. rewrite H, drop_app_length. auto.
Qed.

Lemma filter_none {A} (P : A -> bool) (xs : list A) :
  forallb (fun c => negb (P c)) xs = true -> List.filter P xs = [].
Proof.
  induction xs as [|x xs IH]; simpl; [reflexivity|].
  intros H. apply andb_true_iff in H as [Hx Hxs].
  apply negb_true_iff in Hx. rewrite Hx. auto.
Qed.

Lemma renderGLB_page env r fileName options w res w' :
  renderGLB env r fileName options w = (res, w') ->
  List.filter isPageCall (newCalls w w')
  = (if isInitialized r && browser r
     then match reply env (tick w) NewPage with
          | Ok _ => [NewPage; ClosePage]
          | Fail _ => [NewPage]
          end
     else [])
  /\ (if isInitialized r && browser r
      then match reply env (tick w) NewPage with
           | Ok _ => last (calls w') = Some ClosePage
           | Fail msg => res = Throw msg
           end
      else w' = w /\ res = Throw "Puppeteer not initialized").
Proof.
  unfold renderGLB, newCalls.
  destruct (isInitialized r), (browser r); simpl;
    try (intros [= <- <-]; rewrite drop_all; repeat split; reflexivity).
  unfold bind at 1. unfold dateNow at 1. unfold bind at 1.
  unfold call at 1. cbn beta zeta.
  destruct (reply env (tick w) NewPage) as [n|msg] eqn:E; cbn iota beta.
  - unfold tryFinally.
    match goal with |- context [bind ?m ?k ?w0] =>
      destruct (only_page_body (fun c => negb (isPageCall c))
                  env fileName options (clock env (tick w))) with (w := w0)
        as (ext & Hext & HP & _);
      [ intros [] ?; try discriminate; reflexivity
      | destruct (modeOf options); intros [] ?; try discriminate; reflexivity
      | destruct (bind m k w0) as [r1 w1] eqn:Hbody ]
    end.
    simpl in Hext. intros H.
    assert (Hc : calls w' = calls w ++ NewPage :: ext ++ [ClosePage]).
    { revert H. unfold bind, ret, call.
      destruct (reply env (tick w1) ClosePage); intros [= <- <-]; simpl;
        rewrite Hext, <- !app_assoc; reflexivity. }
    clear H.
    rewrite Hc, drop_app_length. simpl.
    rewrite List.filter_app, (filter_none _ _ HP). simpl.
    split; [reflexivity|].
    rewrite app_comm_cons, app_assoc. apply last_snoc.
  - intros [= <- <-]. simpl. rewrite drop_app_length. simpl.
    split; reflexivity.
Qed.

(** X3.  [renderGLB] closes the page it opened exactly once, whatever
    happens in between: when the renderer is initialised and the page could
    be opened, the only page calls of the render are [NewPage] and then
    [ClosePage], and [ClosePage] is its last call; when the page could not
    be opened nothing is closed and the error of [newPage] is thrown; a
    renderer that is not initialised makes no call at all and throws
    [Puppeteer not initialized]. *)
Theorem page_closed_exactly_once env r fileName options w :
  let res := fst (renderGLB env r fileName options w) in
  let w' := snd (renderGLB env r fileName options w) in
  List.filter isPageCall (newCalls w w')
  = (if isInitialized r && browser r
     then match reply env (tick w) NewPage with
          | Ok _ => [NewPage; ClosePage]
          | Fail _ => [NewPage]
          end
     else [])
  /\ (if isInitialized r && browser r
      then match reply env (tick w) NewPage with
           | Ok _ => last (calls w') = Some ClosePage
           | Fail msg => res = Throw msg
           end
      else w' = w /\ res = Throw "Puppeteer not initialized").
Proof.
  intros res w'. subst res w'.
  destruct (renderGLB env r fileName options w) as [res w'] eqn:E.
  exact (renderGLB_page _ _ _ _ _ _ _ E).
Qed.

(** X4.  A render runs one capture mode only.  A still render never
    rotates the camera, never creates or removes a directory, never starts
    an encoder and never reads the size of a file, and it leaves the
    directories under [storage/temp] as it found them; a video render never
    sets a camera view, never post-processes and never starts the GIF
    encoder; a GIF render never sets a camera view, never post-processes and
    never starts the video encoder. *)
Theorem one_capture_mode_per_render env r fileName options w :
  let w' := snd (renderGLB env r fileName options w) in
  forallb (fun c => negb (foreignCall (modeOf options) c)) (newCalls w w') = true
  /\ (modeOf options = StillMode -> dirs w' = dirs w).
Proof.
  intros w'. subst w'.
  destruct (only_newCalls (fun c => negb (foreignCall (modeOf options) c))
              (renderGLB env r fileName options) w) as [HP Hd].
  { apply only_renderGLB.
    - intros [] ?; try discriminate; destruct (modeOf options); reflexivity.
    - intros [] ?; try discriminate; destruct (modeOf options); reflexivity.
    - destruct (modeOf options); intros [] ?; try discriminate; reflexivity. }
  split; [exact HP|]. intros Hm. apply Hd. rewrite Hm in HP. clear -HP.
  induction (newCalls _ _) as [|c cs IH]; simpl in *; [reflexivity|].
  apply andb_true_iff in HP as [Hc Hcs]. rewrite (IH Hcs), orb_false_r.
  destruct c; try reflexivity; discriminate.
Qed.

(** The theorem of X4 at a still render of two views. *)
Lemma one_capture_mode_per_render_witness :
  dirs (snd (renderGLB happyEnv initializedRenderer "model.glb"
               (stillOptions ["front"; "side"]) emptyWorld))
  = dirs emptyWorld.
Proof.
  apply (proj2 (one_capture_mode_per_render happyEnv initializedRenderer
                  "model.glb" (stillOptions ["front"; "side"]) emptyWorld)).
  vm_compute. reflexivity.
Defined.

Lemma screenshots_app cs1 cs2 :
  screenshots (cs1 ++ cs2) = screenshots cs1 + screenshots cs2.
Proof. unfold screenshots. now rewrite List.filter_app, length_app. Qed.

Lemma screenshots_frames settle pad omit frameDir angleStep a n :
  screenshots (concat (frameCalls settle pad omit frameDir angleStep <$> seq a n))
  = n.
Proof.
  revert a. induction n as [|n IH]; intros a; simpl; [reflexivity|].
  change (screenshots (?x :: ?y :: ?z :: ?u :: ?rest)) with (S (screenshots rest)).
  now rewrite IH.
Qed.

Lemma existsb_frame_encode ext :
  forallb isFrameCall ext = true -> existsb isEncodeCall ext = false.
Proof.
  induction ext as [|c cs IH]; simpl; [reflexivity|].
  intros [Hc Hcs]%andb_true_iff. rewrite (IH Hcs), orb_false_r.
  destruct c; try discriminate; reflexivity.
Qed.

Ltac count_calls Hcap :=
  unfold newCalls; cbn [calls]; rewrite ?Hcap; rewrite <- ?app_assoc;
  rewrite drop_app_length;
  rewrite ?existsb_app, ?screenshots_app, ?screenshots_frames.

Lemma renderVideo_encode env fileName options w res w' :
  renderVideo env fileName options w = (res, w') ->
  existsb isEncodeCall (newCalls w w') = true ->
  screenshots (newCalls w w') = frameCount (duration options * fps options).
Proof.
  unfold renderVideo, bind, dateNow, tryCatch, ret, throw, swallow.
  next_call.
  2: { intros [= <- <-]. count_calls I. discriminate. }
  match goal with |- context [captureFrames ?e ?a ?b ?c ?d ?t ?st ?f ?w0] =>
    destruct (only_captureFrames isFrameCall e a b c d t st f (fun _ H => H) w0)
      as (ext & Hext & HP & _);
    destruct (captureFrames e a b c d t st f w0) as [[[]|msg] w1] eqn:Hcap end.
  - apply captureFrames_ret in Hcap. simpl in Hcap.
    unfold framesLeft in Hcap. rewrite Nat.sub_0_r in Hcap.
    repeat next_call; rewrite ?call_world; intros [= <- <-] _;
      count_calls Hcap; unfold frameCount, screenshots; simpl; lia.
  - simpl in Hext. rewrite call_world. intros [= <- <-].
    count_calls Hext. rewrite (existsb_frame_encode _ HP). discriminate.
Qed.

Lemma renderGIF_encode env fileName options w res w' :
  renderGIF env fileName options w = (res, w') ->
  existsb isEncodeCall (newCalls w w') = true ->
  screenshots (newCalls w w')
  = frameCount (Math_min (duration options) 3 * Math_min (fps options) 15).
Proof.
  unfold renderGIF, bind, dateNow, tryCatch, ret, throw, swallow.
  next_call.
  2: { intros [= <- <-]. count_calls I. discriminate. }
  match goal with |- context [captureFrames ?e ?a ?b ?c ?d ?t ?st ?f ?w0] =>
    destruct (only_captureFrames isFrameCall e a b c d t st f (fun _ H => H) w0)
      as (ext & Hext & HP & _);
    destruct (captureFrames e a b c d t st f w0) as [[[]|msg] w1] eqn:Hcap end.
  - apply captureFrames_ret in Hcap. simpl in Hcap.
    unfold framesLeft in Hcap. rewrite Nat.sub_0_r in Hcap.
    repeat next_call; rewrite ?call_world; intros [= <- <-] _;
      count_calls Hcap; unfold frameCount, screenshots; simpl; lia.
  - simpl in Hext. rewrite call_world. intros [= <- <-].
    count_calls Hext. rewrite (existsb_frame_encode _ HP). discriminate.
Qed.



(** ** Still results *)

Lemma renderView_ret env fileName options view w a w1 :
  renderView env fileName options view w = (Ret a, w1) ->
  isArtifactOf env fileName options view a.
Proof.
  unfold renderView, bind, ret.
  repeat next_call; try discriminate.
  - destruct (postProcessing options).
    + repeat next_call; try discriminate. intros [= <- _]. repeat split.
    + cbn. repeat next_call; try discriminate. intros [= <- _]. repeat split.
Qed.

Lemma renderImagesLoop_order env fileName options views results w :
  exists vs arts,
    fst (renderImagesLoop env fileName options views results w)
    = Ret (results ++ arts)
    /\ sublist vs views
    /\ Forall2 (isArtifactOf env fileName options) vs arts
    /\ length vs + failedViews env fileName options views w = length views.
Proof.
  revert results w. induction views as [|view rest IH]; intros results w; simpl.
  - exists [], []. rewrite app_nil_r. repeat split; constructor.
  - destruct (renderView env fileName options view w) as [[a|msg] w1] eqn:E.
    + destruct (IH (results ++ [a]) w1) as (vs & arts & H & Hs & Hf & Hl).
      exists (view :: vs), (a :: arts). rewrite H, <- app_assoc.
      repeat split; simpl; try lia.
      * now constructor.
      * constructor; [|assumption]. eapply renderView_ret; eauto.
    + destruct (IH results w1) as (vs & arts & H & Hs & Hf & Hl).
      exists vs, arts. repeat split; try assumption; try lia. now constructor.
Qed.


(** ** The value of a render *)

Lemma capture_ret env fileName options w results w' :
  capture env fileName options w = (Ret results, w') ->
  resultsOfMode env fileName options results.
Proof.
  unfold capture, resultsOfMode. destruct (modeOf options).
  - unfold bind, ret.
    destruct (renderVideo env fileName options w) as [[e|msg] w1] eqn:E;
      [|discriminate].
    intros [= <- <-]. destruct (renderVideo_ret _ _ _ _ _ _ E) as (_ & H).
    exists e. split; [reflexivity|]. exact H.
  - unfold bind, ret.
    destruct (renderGIF env fileName options w) as [[e|msg] w1] eqn:E;
      [|discriminate].
    intros [= <- <-]. destruct (renderGIF_ret _ _ _ _ _ _ E) as (_ & H).
    exists e. split; [reflexivity|]. exact H.
  - intros H. unfold renderImages in H.
    destruct (renderImagesLoop_order env fileName options
                (expandViews (views options)) [] w)
      as (vs & arts & Hr & Hs & Hf & _).
    rewrite H in Hr. simpl in Hr. injection Hr as ->.
    exists vs. split; assumption.
Qed.



(** ** The ledger of the queue: every method follows it *)

Lemma alter_insert_lookup {A} (f : A -> A) (l : nat) (h : list A) (x : A) :
  h !! l = Some x -> alter f l h = <[l := f x]> h.
Proof.
  intros H. apply list_eq. intros i.
  destruct (decide (i = l)) as [->|Hne].
  - rewrite list_lookup_alter_eq, H, list_lookup_insert_eq; [reflexivity|].
    eapply lookup_lt_Some; eauto.
  - rewrite list_lookup_alter_ne, list_lookup_insert_ne by congruence.
    reflexivity.
Qed.

Lemma JobStep_id now l job job' ev :
  JobStep now l job job' ev -> Job.id job' = Job.id job.
Proof. destruct 1; reflexivity. Qed.

(** [job.<field> = ...; this.jobs.set(job.id, job); this.emit(e, job)] *)
Lemma Path_update sweep now s0 s l job f ev s' :
  Path sweep now (ledger s0) (ledger s) ->
  heap s !! l = Some job ->
  JobStep now l job (f job) ev ->
  heap s' = alter f l (heap s) ->
  jobs s' = jobs (jobs_set l (updateJob l f s)) ->
  emitted s' = emitted s ++ ev ->
  Path sweep now (ledger s0) (ledger s').
Proof.
  intros HP Hl Hstep Hh Hj He. eapply rtc_r; [exact HP|].
  unfold ledger at 2. rewrite Hh, Hj, He. unfold jobs_set. fields.
  rewrite list_lookup_alter_eq, Hl. cbn [fmap option_fmap option_map].
  fields. rewrite (JobStep_id now l job (f job) ev Hstep).
  rewrite (alter_insert_lookup f l (heap s) job Hl).
  now apply atom_job.
Qed.

Ltac ledger_fields := fields; rewrite ?app_nil_r; reflexivity.

Lemma Path_same sweep now s0 s s' :
  Path sweep now (ledger s0) (ledger s) -> ledger s' = ledger s ->
  Path sweep now (ledger s0) (ledger s').
Proof. intros HP ->. exact HP. Qed.

Lemma Path_refl sweep now s s' : ledger s' = ledger s -> Path sweep now (ledger s) (ledger s').
Proof. intros ->. apply rtc_refl. Qed.

Lemma Path_processJob sweep now s l rest :
  Inv s -> queue s = l :: rest ->
  Path sweep now (ledger s) (ledger (processJob now l (set_queue rest s))).
Proof.
  intros HI Hq.
  assert (Hin : l ∈ queue s) by (rewrite Hq; left).
  pose proof (inv_queue_bound s HI l Hin) as Hb.
  apply lookup_lt_is_Some in Hb as [job Hjob].
  assert (Hpend : Job.status job = pending)
    by (now apply (inv_pending s HI l job Hjob)).
  assert (Hstart : Path sweep now (ledger s)
            (ledger (afterStart now l (set_queue rest s)))).
  { eapply (Path_update sweep now s (set_activeJobs (activeJobs s + 1) (set_queue rest s))
              l job (startedJob now) [(jobStarted, l)]);
      [apply rtc_refl | exact Hjob | apply step_started; exact Hpend
      | unfold afterStart; ledger_fields ..]. }
  assert (Hjob' : heap (afterStart now l (set_queue rest s)) !! l
                  = Some (startedJob now job)).
  { unfold afterStart. fields. now rewrite list_lookup_alter_eq, Hjob. }
  unfold processJob.
  change (emit jobStarted l _) with (afterStart now l (set_queue rest s)).
  rewrite Hjob'. cbn [startedJob Job.type Job.with_startedAt Job.with_status].
  destruct (String.eqb (Job.type job) "render").
  { eapply Path_same; [exact Hstart | reflexivity]. }
  destruct (String.eqb (Job.type job) "batch").
  { unfold batchNext. rewrite Hjob'.
    destruct (0 <? _)%nat.
    - eapply (Path_update sweep now s _ l _ (Job.with_progress _) [(jobProgress, l)]);
        [exact Hstart | exact Hjob' | now apply step_progress
        | ledger_fields ..].
    - eapply Path_same; [exact Hstart | reflexivity]. }
  unfold jobFails.
  eapply (Path_update sweep now s _ l _
            (fun job => Job.with_error _
               (Job.with_completedAt now (Job.with_status failed job)))
            [(jobFailed, l)]);
    [exact Hstart | exact Hjob' | now apply step_failed | ledger_fields ..].
Qed.

Lemma Path_dispatch sweep now s : Inv s -> Path sweep now (ledger s) (ledger (dispatch now s)).
Proof.
  funelim (dispatch now s); intros HI; try apply rtc_refl.
  etransitivity; [|apply H; apply Inv_processJob; assumption].
  etransitivity; [|apply Path_processJob; eassumption]. apply rtc_refl.
Qed.

Lemma Path_processQueueLoop sweep now s :
  Inv s -> Path sweep now (ledger s) (ledger (processQueueLoop now s)).
Proof.
  intros HI. unfold processQueueLoop. destruct (_ && _).
  - eapply Path_same; [apply (Path_dispatch sweep now s HI) | reflexivity].
  - now apply Path_refl.
Qed.

Lemma Path_processQueue sweep now s :
  Inv s -> Path sweep now (ledger s) (ledger (processQueue now s)).
Proof.
  intros HI. unfold processQueue. destruct (renderer s); [|apply rtc_refl].
  apply (Path_processQueueLoop sweep now (set_isProcessing true s)).
  eapply Inv_same; [..|exact HI]; reflexivity.
Qed.

Lemma Path_wake sweep now s : Inv s -> Path sweep now (ledger s) (ledger (wake now s)).
Proof.
  intros HI. apply (Path_processQueueLoop sweep now (set_sleepers _ s)).
  eapply Inv_same; [..|exact HI]; reflexivity.
Qed.

Lemma Path_start sweep now r s : Inv s -> Path sweep now (ledger s) (ledger (start now r s)).
Proof.
  intros HI. apply (Path_processQueue sweep now (set_renderer _ s)).
  eapply Inv_same; [..|exact HI]; reflexivity.
Qed.

Lemma Path_addJob sweep uuid now jobData s :
  Inv s -> freshId uuid s = true ->
  Path sweep now (ledger s) (ledger (snd (addJob uuid now jobData s))).
Proof.
  intros HI Hfresh. unfold addJob. cbn [snd].
  pose proof (Inv_enqueue uuid now jobData s HI Hfresh) as HI'.
  set (s1 := emit jobAdded _ _) in *.
  assert (H1 : Path sweep now (ledger s) (ledger s1)).
  { apply rtc_once. unfold s1, ledger. fields. apply atom_added.
    intros l job. now apply freshId_spec. }
  change (isProcessing s1) with (isProcessing s).
  destruct (isProcessing s); [exact H1|].
  etransitivity; [exact H1|]. now apply Path_processQueue.
Qed.

Lemma Path_cancelJob sweep jobId now s :
  Inv s -> Path sweep now (ledger s) (ledger (snd (cancelJob jobId now s))).
Proof.
  intros HI. unfold cancelJob.
  destruct (jobs s !! jobId) as [l|] eqn:Hj; [|apply rtc_refl].
  destruct (heap s !! l) as [job|] eqn:Hl; [|apply rtc_refl].
  case_decide as Hpend; [|apply rtc_refl].
  destruct (inv_jobs s HI jobId l Hj) as (job' & Hl' & Hid).
  assert (job' = job) by congruence. subst job'.
  cbn [snd]. apply rtc_once. unfold ledger.
  destruct (queueFindIndex jobId s); fields;
    rewrite (alter_insert_lookup _ l _ job Hl), <- Hid;
    apply atom_job; auto; now constructor.
Qed.

Lemma Path_cleanup maxAge now s :
  Path true now (ledger s) (ledger (snd (cleanup maxAge now s))).
Proof.
  unfold cleanup. cbn [snd]. apply rtc_once. unfold ledger. fields.
  apply atom_cleaned.
  - reflexivity.
  - apply map_filter_subseteq.
  - intros jobId l Hm Hnone.
    apply map_lookup_filter_None in Hnone as [Hnone|Hold]; [congruence|].
    specialize (Hold l Hm). simpl in Hold.
    apply dec_stable in Hold. unfold isOld in Hold.
    destruct (heap s !! l) as [job|]; [|contradiction].
    destruct (Job.completedAt job) as [d|] eqn:Hd; [|contradiction].
    eauto.
Qed.

Lemma Path_progressCallback sweep now s l p :
  Inv s -> l ∈ taskJobs s ->
  Path sweep now (ledger s) (ledger (progressCallback l p s)).
Proof.
  intros HI Hl. destruct (Inv_lookup_task s l HI Hl) as (job & Hjob & Hst).
  unfold progressCallback.
  eapply (Path_update sweep now s s l job (Job.with_progress _) [(jobProgress, l)]);
    [apply rtc_refl | exact Hjob | now apply step_progress | ledger_fields ..].
Qed.

Lemma renderGLB_ret_shape env r fileName options w v :
  fst (renderGLB env r fileName options w) = Ret v ->
  exists results d, v = stillResult results d options.
Proof.
  unfold renderGLB, bind, tryFinally, dateNow, ret, throw.
  destruct (negb (isInitialized r) || negb (browser r)); [discriminate|].
  destruct (call env NewPage w) as [[n|msg] w1]; [|discriminate].
  destruct (preparePage env fileName options w1) as [[[]|msg] w2].
  - destruct (capture env fileName options w2) as [[results|msg] w3];
      destruct (call env ClosePage w3) as [[m|msg'] w4]; simpl;
      try discriminate.
    intros [= <-]. eexists _, _. reflexivity.
  - destruct (call env ClosePage w2) as [[m|msg'] w4]; discriminate.
Qed.

Lemma rendererRenderGLB_isJobResult env s fileName options w v :
  fst (rendererRenderGLB env s fileName options w) = Ret v -> isJobResult v.
Proof.
  unfold rendererRenderGLB. destruct (renderer s); [|discriminate].
  intros H. apply renderGLB_ret_shape in H as (results & d & ->).
  left. eauto.
Qed.

Lemma Path_resume sweep env now l s w s' w' :
  Inv s -> resume env now l (s, w) = Some (s', w') ->
  Path sweep now (ledger s) (ledger s').
Proof.
  intros HI. unfold resume.
  destruct (list_find _ (tasks s)) as [[k t]|] eqn:Hfind; [|discriminate].
  fields. destruct (heap s !! l) as [job|] eqn:Hl; [|discriminate].
  destruct (tasks_find_spec s l k t HI Hfind) as (Htl & Hin & _).
  assert (Hproc : Job.status job = processing)
    by (now apply (inv_processing s HI l job Hl)).
  set (s0 := set_tasks (delete k (tasks s)) s).
  assert (H0 : Path sweep now (ledger s) (ledger s0)) by (now apply Path_refl).
  assert (Hl0 : heap s0 !! l = Some job) by exact Hl.
  destruct t as [l0|l0 i results].
  - destruct (rendererRenderGLB env _ _ _ w) as [[result|message] w1] eqn:Hrun;
      intros [= <- <-].
    + apply (f_equal fst) in Hrun. cbn [fst] in Hrun.
      apply rendererRenderGLB_isJobResult in Hrun.
      unfold jobCompletes.
      set (s1 := jobs_set l (updateJob l (Job.with_progress 100) s0)).
      assert (H1 : Path sweep now (ledger s) (ledger s1)).
      { eapply (Path_update sweep now s s0 l job (Job.with_progress 100) []);
          [exact H0 | exact Hl0 | now apply step_final_progress
          | unfold s1; ledger_fields ..]. }
      assert (Hl1 : heap s1 !! l = Some (Job.with_progress 100 job)).
      { unfold s1, s0. fields. rewrite list_lookup_alter_eq, Hl. reflexivity. }
      eapply (Path_update sweep now s s1 l (Job.with_progress 100 job)
                (completedJob now result) [(jobCompleted, l)]);
        [exact H1 | exact Hl1 | now apply step_completed | ledger_fields ..].
    + unfold jobFails.
      eapply (Path_update sweep now s s0 l job
                (fun job => Job.with_error _
                   (Job.with_completedAt now (Job.with_status failed job)))
                [(jobFailed, l)]);
        [exact H0 | exact Hl0 | now apply step_failed | ledger_fields ..].
  - destruct (Job.files job !! i) as [fileName|].
    + destruct (rendererRenderGLB env _ _ _ w) as [r w1]. intros [= <- <-].
      unfold batchNext. fold s0. rewrite Hl0.
      destruct (S i <? length (Job.files job))%nat.
      * eapply (Path_update sweep now s s0 l job (Job.with_progress _)
                  [(jobProgress, l)]);
          [exact H0 | exact Hl0 | now apply step_progress | ledger_fields ..].
      * eapply Path_same; [exact H0 | reflexivity].
    + intros [= <- <-]. unfold jobCompletes.
      eapply (Path_update sweep now s s0 l job (completedJob now _) [(jobCompleted, l)]);
        [exact H0 | exact Hl0 | | ledger_fields ..].
      apply step_completed; [exact Hproc|]. right. eauto.
Qed.

Lemma Path_exec env d ev s w s' w' :
  Inv s -> exec env ev (s, w) = Some (s', w') ->
  Path true (eventTime d ev) (ledger s) (ledger s').
Proof.
  intros HI. destruct ev; cbn [exec eventTime].
  - intros [= <- <-]. now apply Path_start.
  - intros [= <- <-]. now apply Path_refl.
  - destruct (freshId uuid s) eqn:Hf; [|discriminate].
    intros [= <- <-]. now apply Path_addJob.
  - intros [= <- <-]. now apply Path_cancelJob.
  - intros [= <- <-]. apply Path_cleanup.
  - case_bool_decide; [|discriminate]. intros [= <- <-]. now apply Path_wake.
  - destruct (existsb _ _) eqn:Hex; [|discriminate]. intros [= <- <-].
    apply Path_progressCallback; [assumption|].
    now apply existsb_isRenderTask.
  - now apply Path_resume.
Qed.

(** ** What the ledger satisfies *)

Lemma eventsOf_app l es1 es2 :
  eventsOf l (es1 ++ es2) = eventsOf l es1 ++ eventsOf l es2.
Proof. unfold eventsOf. now rewrite filter_app, fmap_app. Qed.

Lemma eventsOf_one l l' e :
  eventsOf l [(e, l')]
  = if decide (l' = l /\ e <> jobProgress) then [e] else [].
Proof.
  unfold eventsOf. case_decide as H.
  - rewrite filter_cons_True by exact H. reflexivity.
  - rewrite filter_cons_False by exact H. reflexivity.
Qed.

Lemma eventsOf_none l es :
  (forall e, e ∈ es -> e.2 <> l) -> eventsOf l es = [].
Proof.
  intros H. unfold eventsOf. induction es as [|e es IH]; [reflexivity|].
  rewrite filter_cons_False.
  - apply IH. intros e' He'. apply H. now right.
  - intros [He _]. apply (H e); [left|exact He].
Qed.

Lemma JobStep_events now l job job' ev :
  JobStep now l job job' ev ->
  lifecycle (Job.status job') = lifecycle (Job.status job) ++ eventsOf l ev
  /\ (forall e, e ∈ ev -> e.2 = l).
Proof.
  destruct 1 as [job H|job p H|job p H|job r H ?|job msg H|job H]; simpl;
    rewrite H; rewrite ?eventsOf_one; simpl;
    repeat (case_decide as Hd;
            [|try (exfalso; apply Hd; split; [reflexivity|discriminate])]);
    try (destruct Hd as [_ Hd]; exfalso; now apply Hd);
    (split; [reflexivity|]);
    intros e He; repeat (apply elem_of_cons in He as [->|He]; [reflexivity|]);
    inversion He.
Qed.

Lemma JobStep_open now l job job' ev :
  JobStep now l job job' ev -> isOpen (Job.status job) = true.
Proof. destruct 1 as [? H|? ? H|? ? H|? ? H ?|? ? H|? H]; now rewrite H. Qed.

Lemma JobStep_dates now l job job' ev :
  JobStep now l job job' ev ->
  (Job.completedAt job = None <-> isOpen (Job.status job) = true) ->
  (Job.startedAt job = None <-> wasStarted (Job.status job) = false) ->
  (Job.completedAt job' = None <-> isOpen (Job.status job') = true)
  /\ (Job.startedAt job' = None <-> wasStarted (Job.status job') = false).
Proof.
  destruct 1 as [job H|job p H|job p H|job r H ?|job msg H|job H]; simpl;
    rewrite H; simpl; intros Ho Hs; split; try assumption;
    try (split; intros; discriminate).
Qed.

Lemma JobStep_evolves now l job job' ev :
  JobStep now l job job' ev ->
  (Job.startedAt job = None <-> wasStarted (Job.status job) = false) ->
  evolves job job'.
Proof.
  destruct 1 as [job H|job p H|job p H|job r H ?|job msg H|job H];
    intros Hs; split; simpl; try reflexivity;
    try (rewrite H; simpl; discriminate); try (intros; assumption);
    try (intros; reflexivity).
  intros d Hd. rewrite H in Hs. simpl in Hs.
  destruct Hs as [_ Hs]. rewrite Hs in Hd by reflexivity. discriminate.
Qed.

Lemma JobStep_result now l job job' ev :
  JobStep now l job job' ev ->
  Job.result job = VNull \/ isJobResult (Job.result job) ->
  Job.result job' = VNull \/ isJobResult (Job.result job').
Proof.
  destruct 1 as [job H|job p H|job p H|job r H Hr|job msg H|job H]; simpl;
    auto.
Qed.

Lemma evolves_refl job : evolves job job.
Proof. split; auto. Qed.

Lemma evolves_trans j1 j2 j3 : evolves j1 j2 -> evolves j2 j3 -> evolves j1 j3.
Proof.
  intros [] []. split; try congruence; auto.
  intros Ht. assert (j2 = j1) by auto. subst j2. auto.
Qed.

Lemma Grows_refl h : Grows h h.
Proof. intros l job H. exists job. split; [assumption|apply evolves_refl]. Qed.

Lemma Grows_trans h1 h2 h3 : Grows h1 h2 -> Grows h2 h3 -> Grows h1 h3.
Proof.
  intros H12 H23 l job H. destruct (H12 l job H) as (j2 & H2 & E12).
  destruct (H23 l j2 H2) as (j3 & H3 & E23).
  exists j3. split; [assumption|]. eapply evolves_trans; eauto.
Qed.

Lemma HistL_init : HistL (ledger constructor).
Proof.
  split; simpl.
  - intros l l' job job' H. discriminate.
  - intros jobId l H. rewrite lookup_empty in H. discriminate.
  - intros l job H. discriminate.
  - intros l job H. discriminate.
  - intros l job H. discriminate.
  - intros l job H. discriminate.
  - intros e H. inversion H.
  - intros l job H. discriminate.
Qed.

Lemma Hist_atom sweep now a b : HistL a -> Atom sweep now a b -> HistL b.
Proof.
  intros HH Hat.
  destruct Hat as [h m es uuid jobData Hfresh
                  |h m es l job job' ev Hl Hstep
                  |h m m' es Hsweep Hsub Hcl];
    destruct HH as [Hids Hjobs Hreg Hopen Hstarted Hev Hb Hres]; simpl in *.
  - split; simpl.
    + intros l1 l2 j1 j2 H1 H2 Heq.
      apply lookup_snoc_Some in H1 as [[Hlt1 H1]|[-> ->]];
      apply lookup_snoc_Some in H2 as [[Hlt2 H2]|[-> ->]].
      * eapply Hids; eauto.
      * simpl in Heq. exfalso. eapply Hfresh; eauto.
      * simpl in Heq. exfalso. eapply Hfresh; eauto.
      * reflexivity.
    + intros jobId l H. destruct (decide (uuid = jobId)) as [<-|Hne].
      * rewrite lookup_insert_eq in H. injection H as <-.
        exists (newJob uuid now jobData). split; [|reflexivity].
        rewrite lookup_app_r by lia. rewrite Nat.sub_diag. reflexivity.
      * rewrite lookup_insert_ne in H by assumption.
        destruct (Hjobs jobId l H) as (job & Hj & Hid).
        exists job. split; [|assumption]. apply lookup_app_l_Some. assumption.
    + intros l job H Hc.
      apply lookup_snoc_Some in H as [[Hlt H]|[-> ->]].
      * rewrite lookup_insert_ne by (intros Heq; eapply Hfresh; eauto).
        now apply Hreg.
      * simpl. apply lookup_insert_eq.
    + intros l job H. apply lookup_snoc_Some in H as [[Hlt H]|[-> ->]];
        [eapply Hopen; eauto | simpl; tauto].
    + intros l job H. apply lookup_snoc_Some in H as [[Hlt H]|[-> ->]];
        [eapply Hstarted; eauto | simpl; tauto].
    + intros l job H. rewrite eventsOf_app, eventsOf_one.
      apply lookup_snoc_Some in H as [[Hlt H]|[-> ->]].
      * rewrite decide_False by lia. rewrite app_nil_r. eapply Hev; eauto.
      * rewrite decide_True by (split; [reflexivity|discriminate]).
        rewrite eventsOf_none; [reflexivity|].
        intros e He. specialize (Hb e He). lia.
    + intros e He. rewrite length_app. simpl.
      apply elem_of_app in He as [He|He].
      * specialize (Hb e He). lia.
      * apply list_elem_of_singleton in He as ->. simpl. lia.
    + intros l job H. apply lookup_snoc_Some in H as [[Hlt H]|[-> ->]];
        [eapply Hres; eauto | simpl; auto].
  - pose proof (JobStep_id _ _ _ _ _ Hstep) as Hid.
    pose proof (JobStep_events _ _ _ _ _ Hstep) as [Hlife Hevl].
    pose proof (JobStep_dates _ _ _ _ _ Hstep (Hopen l job Hl) (Hstarted l job Hl))
      as [Ho' Hs'].
    assert (Hlt : l < length h) by (eapply lookup_lt_Some; eauto).
    assert (Hcase : forall x j, <[l := job']> h !! x = Some j ->
              (x = l /\ j = job') \/ (x <> l /\ h !! x = Some j)).
    { intros x j H. apply list_lookup_insert_Some in H. naive_solver. }
    split; simpl.
    + intros l1 l2 j1 j2 H1 H2 Heq.
      apply Hcase in H1 as [[-> ->]|[Hne1 H1]];
      apply Hcase in H2 as [[-> ->]|[Hne2 H2]]; try reflexivity.
      * apply (Hids l l2 job j2); congruence.
      * apply (Hids l1 l j1 job); congruence.
      * eapply Hids; eauto.
    + intros jobId x H. apply lookup_insert_Some in H as [[<- <-]|[Hne H]].
      * exists job'. split; [|assumption]. now apply list_lookup_insert_eq.
      * destruct (Hjobs jobId x H) as (j & Hj & Hjid).
        exists j. split; [|assumption].
        rewrite list_lookup_insert_ne; [assumption|].
        intros <-. congruence.
    + intros x j H Hc. apply Hcase in H as [[-> ->]|[Hne H]].
      * rewrite Hid. apply lookup_insert_eq.
      * rewrite lookup_insert_ne; [now apply Hreg|].
        intros Heq. apply Hne. symmetry. eapply Hids; eauto.
    + intros x j H. apply Hcase in H as [[-> ->]|[Hne H]];
        [assumption | eapply Hopen; eauto].
    + intros x j H. apply Hcase in H as [[-> ->]|[Hne H]];
        [assumption | eapply Hstarted; eauto].
    + intros x j H. rewrite eventsOf_app.
      apply Hcase in H as [[-> ->]|[Hne H]].
      * rewrite Hlife, (Hev l job Hl). reflexivity.
      * rewrite (eventsOf_none x ev), app_nil_r; [eapply Hev; eauto|].
        intros e He. rewrite (Hevl e He). congruence.
    + intros e He. rewrite length_insert.
      apply elem_of_app in He as [He|He]; [now apply Hb|].
      rewrite (Hevl e He). exact Hlt.
    + intros x j H. apply Hcase in H as [[-> ->]|[Hne H]];
        [|eapply Hres; eauto].
      eapply JobStep_result; eauto.
  - split; simpl; try assumption.
    + intros jobId l H. apply (Hjobs jobId l).
      eapply lookup_weaken; eauto.
    + intros l job H Hc.
      destruct (m' !! Job.id job) as [l'|] eqn:Hm'.
      * pose proof (lookup_weaken _ _ _ _ Hm' Hsub) as Hm.
        rewrite (Hreg l job H Hc) in Hm. congruence.
      * destruct (Hcl (Job.id job) l (Hreg l job H Hc) Hm')
          as (job0 & d & H0 & Hd).
        congruence.
Qed.

Lemma Hist_path sweep now a b : HistL a -> Path sweep now a b -> HistL b.
Proof.
  intros HH HP. induction HP as [|a b c Hab _ IH]; [assumption|].
  apply IH. eapply Hist_atom; eauto.
Qed.

Lemma Hist_run env evs sys sys' :
  Inv (fst sys) -> HistL (ledger (fst sys)) -> run env evs sys = Some sys' ->
  HistL (ledger (fst sys')).
Proof.
  revert sys. induction evs as [|ev evs IH]; intros [s w]; cbn [run fst].
  - intros _ HH [= <-]. exact HH.
  - intros HI HH.
    destruct (exec env ev (s, w)) as [[s1 w1]|] eqn:Hex; [|discriminate].
    apply IH; cbn [fst].
    + eapply Inv_exec; eauto.
    + eapply Hist_path; [exact HH|]. eapply (Path_exec env 0); eauto.
Qed.

Lemma reachable_Hist env sys : reachable env sys -> HistL (ledger (fst sys)).
Proof.
  intros [evs Hrun].
  eapply (Hist_run env evs (constructor, emptyWorld));
    [apply Inv_constructor | apply HistL_init | exact Hrun].
Qed.

Lemma Grows_atom sweep now a b :
  HistL a -> Atom sweep now a b -> Grows a.1.1 b.1.1.
Proof.
  intros HH Hat.
  destruct Hat as [h m es uuid jobData Hfresh
                  |h m es l job job' ev Hl Hstep
                  |h m m' es Hsweep Hsub Hcl]; simpl.
  - intros l job H. exists job. split; [|apply evolves_refl].
    now apply lookup_app_l_Some.
  - intros x j H. destruct (decide (x = l)) as [->|Hne].
    + assert (j = job) by congruence. subst j. exists job'. split.
      * apply list_lookup_insert_eq. eapply lookup_lt_Some; eauto.
      * eapply JobStep_evolves; eauto. apply (hist_started _ _ _ HH l job Hl).
    + exists j. split; [|apply evolves_refl].
      now rewrite list_lookup_insert_ne by congruence.
  - apply Grows_refl.
Qed.

Lemma Grows_path sweep now a b :
  HistL a -> Path sweep now a b -> Grows a.1.1 b.1.1.
Proof.
  intros HH HP. induction HP as [|a b c Hab _ IH]; [apply Grows_refl|].
  eapply Grows_trans; [eapply Grows_atom; eauto|].
  apply IH. eapply Hist_atom; eauto.
Qed.

Lemma Grows_run env evs sys sys' :
  Inv (fst sys) -> HistL (ledger (fst sys)) -> run env evs sys = Some sys' ->
  Grows (heap (fst sys)) (heap (fst sys')).
Proof.
  revert sys. induction evs as [|ev evs IH]; intros [s w]; cbn [run fst].
  - intros _ HH [= <-]. apply Grows_refl.
  - intros HI HH.
    destruct (exec env ev (s, w)) as [[s1 w1]|] eqn:Hex; [|discriminate].
    pose proof (Path_exec env 0 ev s w s1 w1 HI Hex) as HP.
    intros Hrun. eapply Grows_trans.
    + apply (Grows_path _ _ _ _ HH HP).
    + apply (IH (s1, w1)); cbn [fst]; [eapply Inv_exec; eauto| |exact Hrun].
      eapply Hist_path; eauto.
Qed.

(** Without a sweep the registry keeps every entry. *)
Lemma registry_atom now a b :
  HistL a -> Atom false now a b ->
  forall jobId l, a.1.2 !! jobId = Some l -> b.1.2 !! jobId = Some l.
Proof.
  intros HH Hat.
  destruct Hat as [h m es uuid jobData Hfresh
                  |h m es l job job' ev Hl Hstep
                  |h m m' es Hsweep Hsub Hcl]; simpl;
    destruct HH as [Hids Hjobs Hreg Hopen Hstarted Hev Hb Hres]; simpl in *.
  - intros jobId l H. rewrite lookup_insert_ne; [assumption|].
    intros <-. destruct (Hjobs uuid l H) as (job & Hj & Hid).
    eapply Hfresh; eauto.
  - intros jobId x H. destruct (decide (Job.id job = jobId)) as [<-|Hne].
    + rewrite lookup_insert_eq.
      destruct (Hjobs _ x H) as (j & Hj & Hid).
      f_equal. eapply Hids; eauto.
    + now rewrite lookup_insert_ne.
  - discriminate.
Qed.

Lemma registry_path now a b :
  HistL a -> Path false now a b ->
  forall jobId l, a.1.2 !! jobId = Some l -> b.1.2 !! jobId = Some l.
Proof.
  intros HH HP. induction HP as [|a b c Hab _ IH]; [auto|].
  intros jobId l H. apply IH; [eapply Hist_atom; eauto|].
  eapply registry_atom; eauto.
Qed.

(** An entry of the registry was there before or is a new job. *)
Lemma registry_back_atom sweep now a b :
  HistL a -> Atom sweep now a b ->
  forall jobId l, b.1.2 !! jobId = Some l ->
    a.1.2 !! jobId = Some l \/ (length a.1.1 <= l /\ a.1.2 !! jobId = None).
Proof.
  intros HH Hat.
  destruct Hat as [h m es uuid jobData Hfresh
                  |h m es l job job' ev Hl Hstep
                  |h m m' es Hsweep Hsub Hcl]; simpl;
    destruct HH as [Hids Hjobs Hreg Hopen Hstarted Hev Hb Hres]; simpl in *.
  - intros jobId l H. apply lookup_insert_Some in H as [[<- <-]|[Hne H]]; [|tauto].
    right. split; [lia|]. destruct (m !! uuid) as [l|] eqn:Hm; [|reflexivity].
    destruct (Hjobs uuid l Hm) as (job & Hj & Hid). exfalso. eapply Hfresh; eauto.
  - intros jobId x H. apply lookup_insert_Some in H as [[<- <-]|[Hne H]]; [|tauto].
    left. apply (Hreg l job Hl).
    apply (Hopen l job Hl). eapply JobStep_open; eauto.
  - intros jobId l H. left. eapply lookup_weaken; eauto.
Qed.

Lemma timeline_mono T T' job : T <= T' -> timeline T job -> timeline T' job.
Proof.
  intros Hle [Hc Hs Hd]. split.
  - lia.
  - intros d H. specialize (Hs d H). lia.
  - intros d H. destruct (Hd d H) as [H1 H2]. split; [lia|assumption].
Qed.

Lemma Timed_atom sweep now T a b :
  HistL a -> Timed T a.1.1 -> T <= now -> Atom sweep now a b -> Timed now b.1.1.
Proof.
  intros HH HT Hle Hat.
  destruct Hat as [h m es uuid jobData Hfresh
                  |h m es l job job' ev Hl Hstep
                  |h m m' es Hsweep Hsub Hcl]; simpl in *.
  - intros l job H. apply lookup_snoc_Some in H as [[Hlt H]|[-> ->]].
    + eapply timeline_mono; [exact Hle|]. eapply HT; eauto.
    + split; simpl; [lia|discriminate..].
  - intros x j H. apply list_lookup_insert_Some in H as [(<- & <- & _)|[Hne H]].
    2: { eapply timeline_mono; [exact Hle|]. eapply HT; eauto. }
    pose proof (HT l job Hl) as [Hc Hs Hd].
    pose proof (hist_started _ _ _ HH l job Hl) as Hst.
    pose proof (hist_open _ _ _ HH l job Hl) as Hop.
    destruct Hstep as [job H|job p H|job p H|job r H ?|job msg H|job H];
      rewrite H in Hst, Hop; simpl in Hst, Hop;
      (split; simpl; [lia | intros d Hd' | intros d Hd']).
    all: first
      [ injection Hd' as <-; first
          [ lia
          | split; [lia | intros d' Hd''; specialize (Hs d' Hd''); lia] ]
      | specialize (Hs d Hd'); lia
      | destruct Hop as [_ Hop]; rewrite Hop in Hd' by reflexivity;
        discriminate ].
  - intros l job H. eapply timeline_mono; [exact Hle|]. eapply HT; eauto.
Qed.

Lemma Timed_path sweep now T a b :
  HistL a -> Timed T a.1.1 -> T <= now -> Path sweep now a b -> Timed now b.1.1.
Proof.
  intros HH HT Hle HP. revert T HH HT Hle.
  induction HP as [a|a b c Hab _ IH]; intros T HH HT Hle.
  - intros l job H. eapply timeline_mono; [exact Hle|]. eapply HT; eauto.
  - apply (IH now); [eapply Hist_atom; eauto| |lia].
    eapply Timed_atom; eauto.
Qed.

(** ** Statistics, events, history and dates *)

Lemma registry_refs_NoDup h (m : gmap string nat) :
  JobsOk h m -> NoDup (map_to_list m).*2.
Proof.
  intros Hj. apply NoDup_fmap_2_strong; [|apply NoDup_map_to_list].
  intros [k1 l1] [k2 l2] H1%elem_of_map_to_list H2%elem_of_map_to_list.
  simpl. intros <-.
  destruct (Hj k1 l1 H1) as (j1 & Hl1 & Hid1).
  destruct (Hj k2 l1 H2) as (j2 & Hl2 & Hid2).
  f_equal. congruence.
Qed.

Lemma elem_of_refs (m : gmap string nat) l :
  l ∈ (map_to_list m).*2 <-> exists k, m !! k = Some l.
Proof.
  rewrite list_elem_of_fmap. split.
  - intros ([k l'] & -> & H%elem_of_map_to_list). eauto.
  - intros [k H]. exists (k, l). split; [reflexivity|].
    now apply elem_of_map_to_list.
Qed.

Lemma NoDup_omap_lookup {A} (h : list A) (refs : list nat) :
  NoDup refs ->
  (forall l l' x, h !! l = Some x -> h !! l' = Some x -> l = l') ->
  NoDup (omap (fun l => h !! l) refs).
Proof.
  intros Hnd Hinj. induction Hnd as [|l refs Hl Hnd IH]; simpl; [constructor|].
  destruct (h !! l) as [x|] eqn:Hx; [|exact IH].
  constructor; [|exact IH].
  intros (l' & Hl' & Hx')%list_elem_of_omap.
  assert (l' = l) by (eapply Hinj; eauto). subst l'. contradiction.
Qed.

Lemma length_omap_lookup {A} (h : list A) (refs : list nat) :
  (forall l, l ∈ refs -> l < length h) ->
  length (omap (fun l => h !! l) refs) = length refs.
Proof.
  induction refs as [|l refs IH]; intros Hb; simpl; [reflexivity|].
  destruct (lookup_lt_is_Some_2 h l) as [x Hx]; [apply Hb; left|].
  rewrite Hx. simpl. f_equal. apply IH.
  intros l' Hl'. apply Hb. now right.
Qed.

Lemma NoDup_length_eq {A} (xs ys : list A) :
  NoDup xs -> NoDup ys -> (forall x, x ∈ xs <-> x ∈ ys) -> length xs = length ys.
Proof.
  intros Hx Hy H. apply Permutation_length. apply NoDup_Permutation; assumption.
Qed.

Lemma length_by_status (js : list Job.t) :
  length js = countStatus pending js + countStatus processing js
              + countStatus completed js + countStatus failed js
              + countStatus cancelled js.
Proof.
  unfold countStatus. induction js as [|j js IH]; [reflexivity|].
  rewrite !filter_cons. simpl.
  destruct (Job.status j); repeat case_decide; try congruence; simpl; lia.
Qed.

Section Registry.
Context (s : JobQueue) (HI : Inv s) (HH : HistL (ledger s)).

Lemma heap_injective l l' x :
  heap s !! l = Some x -> heap s !! l' = Some x -> l = l'.
Proof. intros H1 H2. eapply (inv_ids s HI); eauto. Qed.

Lemma jobsValues_NoDup : NoDup (jobsValues s).
Proof.
  apply NoDup_omap_lookup.
  - apply (registry_refs_NoDup (heap s)). apply (inv_jobs s HI).
  - apply heap_injective.
Qed.

Lemma elem_of_jobsValues j :
  j ∈ jobsValues s <-> exists l, heap s !! l = Some j /\ jobs s !! Job.id j = Some l.
Proof.
  unfold jobsValues. rewrite list_elem_of_omap. split.
  - intros (l & [k Hk]%elem_of_refs & Hl). exists l. split; [assumption|].
    destruct (inv_jobs s HI k l Hk) as (j' & Hj' & Hid).
    assert (j' = j) by congruence. subst j'. congruence.
  - intros (l & Hl & Hk). exists l. split; [|assumption].
    apply elem_of_refs. eauto.
Qed.

Lemma open_job_registered l j :
  heap s !! l = Some j -> isOpen (Job.status j) = true -> j ∈ jobsValues s.
Proof.
  intros Hl Ho. apply elem_of_jobsValues. exists l. split; [assumption|].
  apply (hist_registered _ _ _ HH l j Hl).
  now apply (hist_open _ _ _ HH l j Hl).
Qed.

Lemma pending_count : countStatus pending (jobsValues s) = length (queue s).
Proof.
  rewrite <- (length_omap_lookup (heap s) (queue s))
    by apply (inv_queue_bound s HI).
  unfold countStatus. apply NoDup_length_eq.
  - apply NoDup_filter, jobsValues_NoDup.
  - apply NoDup_omap_lookup; [|apply heap_injective].
    apply StronglySorted_lt_NoDup, (inv_queue_sorted s HI).
  - intros j. rewrite list_elem_of_filter, list_elem_of_omap. split.
    + intros [Hst (l & Hl & _)%elem_of_jobsValues].
      exists l. split; [|assumption]. now apply (inv_pending s HI l j Hl).
    + intros (l & Hq & Hl).
      assert (Hst : Job.status j = pending)
        by (now apply (inv_pending s HI l j Hl)).
      split; [assumption|]. apply (open_job_registered l j Hl).
      now rewrite Hst.
Qed.

Lemma processing_count :
  Z.of_nat (countStatus processing (jobsValues s)) = activeJobs s.
Proof.
  rewrite (inv_active s HI). f_equal. unfold countStatus, processingCount.
  apply NoDup_length_eq.
  - apply NoDup_filter, jobsValues_NoDup.
  - apply NoDup_filter. apply NoDup_alt. intros i j x. apply heap_injective.
  - intros j. rewrite !list_elem_of_filter. split.
    + intros [Hst (l & Hl & _)%elem_of_jobsValues]. split; [assumption|].
      eapply list_elem_of_lookup_2; eauto.
    + intros [Hst [l Hl]%list_elem_of_lookup_1]. split; [assumption|].
      apply (open_job_registered l j Hl). now rewrite Hst.
Qed.
End Registry.

(** X6.  In every state the service can reach, the statistics of
    [getStats] agree with the scheduler: [pending] is [queueLength],
    [processing] is [activeJobs], and [total] is the sum of [pending],
    [processing], [completed], [failed] and the cancelled jobs still
    registered, which [getStats] reports under no heading. *)
Theorem getStats_consistent env sys :
  reachable env sys ->
  let st := getStats (fst sys) in
  Stats.pending st = Stats.queueLength st
  /\ Z.of_nat (Stats.processing st) = Stats.activeJobs st
  /\ Stats.total st
     = Stats.pending st + Stats.processing st + Stats.completed st
       + Stats.failed st + countStatus cancelled (jobsValues (fst sys)).
Proof.
  intros Hreach. pose proof (reachable_Inv env sys Hreach) as HI.
  pose proof (reachable_Hist env sys Hreach) as HH. simpl.
  split; [now apply pending_count|]. split; [now apply processing_count|].
  apply length_by_status.
Qed.

(** The theorem of X6 after four submissions, a cancellation and a
    completion. *)
Lemma getStats_consistent_witness :
  let sys := stateAfter happyEnv fifoEvents in
  let st := getStats (fst sys) in
  Stats.pending st = Stats.queueLength st
  /\ Z.of_nat (Stats.processing st) = Stats.activeJobs st
  /\ Stats.total st
     = Stats.pending st + Stats.processing st + Stats.completed st
       + Stats.failed st + countStatus cancelled (jobsValues (fst sys)).
Proof.
  apply (getStats_consistent happyEnv (stateAfter happyEnv fifoEvents)).
  exists fifoEvents. vm_compute. reflexivity.
Defined.

(** X7.  In every state the service can reach, the events emitted for a
    job, progress events apart and in the order of their emission, are
    determined by its status: [jobAdded] for a pending job; [jobAdded],
    [jobStarted] for a processing one; then [jobCompleted] or [jobFailed] for
    a completed or failed one; [jobAdded], [jobCancelled] for a cancelled
    one.  So no job is started twice, a cancelled job was never started, and
    a job has one terminal event at most. *)
Theorem lifecycle_events_match_status env sys l job :
  reachable env sys ->
  heap (fst sys) !! l = Some job ->
  eventsOf l (emitted (fst sys)) = lifecycle (Job.status job).
Proof.
  intros Hreach Hl. apply (hist_events _ _ _ (reachable_Hist env sys Hreach) l job Hl).
Qed.

(** The theorem of X7 at the job that was cancelled while it waited. *)
Lemma lifecycle_events_match_status_witness :
  let sys := stateAfter happyEnv fifoEvents in
  eventsOf 2 (emitted (fst sys))
  = lifecycle (Job.status (default noJob (heap (fst sys) !! 2))).
Proof.
  apply (lifecycle_events_match_status happyEnv (stateAfter happyEnv fifoEvents) 2).
  - exists fifoEvents. vm_compute. reflexivity.
  - vm_compute. reflexivity.
Defined.

Lemma getJob_Some s jobId job :
  getJob jobId s = Some job <->
  exists l, jobs s !! jobId = Some l /\ heap s !! l = Some job.
Proof.
  unfold getJob. destruct (jobs s !! jobId) as [l|]; simpl; naive_solver.
Qed.

(** X8.  From a state the service can reach, over any further events: the
    job [getJob] returns for an identifier later is the job it returned
    before, with the same [id], [type], [fileName], [files], [options] and
    [createdAt]; a [startedAt] once set is kept; a job that was started
    stays started; and a job in a terminal state ([completed], [failed],
    [cancelled]) is never modified again. *)
Theorem job_history env sys evs sys' jobId job job' :
  reachable env sys ->
  run env evs sys = Some sys' ->
  getJob jobId (fst sys) = Some job ->
  getJob jobId (fst sys') = Some job' ->
  evolves job job'.
Proof.
  intros Hreach Hrun (l & Hj & Hl)%getJob_Some (l' & Hj' & Hl')%getJob_Some.
  pose proof (reachable_Inv env sys Hreach) as HI.
  pose proof (reachable_Hist env sys Hreach) as HH.
  pose proof (Hist_run env evs sys sys' HI HH Hrun) as HH'.
  destruct (Grows_run env evs sys sys' HI HH Hrun l job Hl) as (j & Hj2 & Hev).
  destruct (hist_jobs _ _ _ HH jobId l Hj) as (j0 & Hl0 & Hid0).
  destruct (hist_jobs _ _ _ HH' jobId l' Hj') as (j1 & Hl1 & Hid1).
  simpl in *.
  assert (j0 = job) by congruence. assert (j1 = job') by congruence. subst.
  assert (l = l').
  { apply (hist_ids _ _ _ HH' l l' j job' Hj2 Hl'). rewrite (ev_id _ _ Hev).
    congruence. }
  subst l'. congruence.
Qed.

(** The theorem of X8 at the first job of four, before and after it
    completes. *)
Lemma job_history_witness :
  let sys := stateAfter happyEnv (take 5 fifoEvents) in
  let sys' := stateAfter happyEnv fifoEvents in
  evolves (default noJob (getJob "job-1" (fst sys)))
          (default noJob (getJob "job-1" (fst sys'))).
Proof.
  apply (job_history happyEnv (stateAfter happyEnv (take 5 fifoEvents))
           (drop 5 fifoEvents) (stateAfter happyEnv fifoEvents) "job-1").
  - exists (take 5 fifoEvents). vm_compute. reflexivity.
  - vm_compute. reflexivity.
  - vm_compute. reflexivity.
  - vm_compute. reflexivity.
Defined.

Lemma Timed_run env evs sys sys' T :
  Inv (fst sys) -> HistL (ledger (fst sys)) -> Timed T (heap (fst sys)) ->
  chronological T evs = true ->
  run env evs sys = Some sys' ->
  Timed (lastTime T evs) (heap (fst sys')).
Proof.
  revert sys T. induction evs as [|ev evs IH]; intros [s w] T;
    cbn [run fst chronological lastTime].
  - intros _ _ HT _ [= <-]. exact HT.
  - intros HI HH HT [Hle Hchr]%andb_true_iff.
    apply Nat.leb_le in Hle.
    destruct (exec env ev (s, w)) as [[s1 w1]|] eqn:Hex; [|discriminate].
    pose proof (Path_exec env T ev s w s1 w1 HI Hex) as HP.
    apply (IH (s1, w1)); cbn [fst]; try assumption.
    + eapply Inv_exec; eauto.
    + eapply Hist_path; eauto.
    + apply (Timed_path _ _ T _ _ HH HT Hle HP).
Qed.

(** X9.  When the events of a run read the clock in order, the dates of
    every job are in order: [createdAt <= startedAt <= completedAt],
    whichever of them are set, and none is later than the last time read. *)
Theorem job_dates_in_order env evs sys l job :
  run env evs (constructor, emptyWorld) = Some sys ->
  chronological 0 evs = true ->
  heap (fst sys) !! l = Some job ->
  timeline (lastTime 0 evs) job.
Proof.
  intros Hrun Hchr Hl.
  eapply (Timed_run env evs (constructor, emptyWorld) sys 0); eauto.
  - apply Inv_constructor.
  - apply HistL_init.
  - intros l' j H. discriminate.
Qed.

(** The theorem of X9 at the first job of the same run. *)
Lemma job_dates_in_order_witness :
  timeline (lastTime 0 fifoEvents)
    (default noJob (heap (fst (stateAfter happyEnv fifoEvents)) !! 0)).
Proof.
  apply (job_dates_in_order happyEnv fifoEvents (stateAfter happyEnv fifoEvents) 0).
  - vm_compute. reflexivity.
  - vm_compute. reflexivity.
  - vm_compute. reflexivity.
Defined.

Lemma getJob_fresh s uuid :
  JobsOk (heap s) (jobs s) -> freshId uuid s = true -> getJob uuid s = None.
Proof.
  intros Hj Hfresh. unfold getJob.
  destruct (jobs s !! uuid) as [l|] eqn:Hm; [|reflexivity].
  destruct (Hj uuid l Hm) as (job & Hl & Hid).
  exfalso. eapply freshId_spec; eauto.
Qed.

(** X10.  [addJob] followed by [getJob]: in a state the service can reach
    and for an identifier that has not been drawn before, [getJob] finds
    nothing under the identifier before the call and afterwards finds the
    job built from the submitted data (same [id], [type], [fileName],
    [files], [options], [createdAt] = the time of the call), even when the
    call has started it at once; every job that could be retrieved before
    the call can still be retrieved. *)
Theorem addJob_getJob env sys uuid now jobData :
  reachable env sys ->
  freshId uuid (fst sys) = true ->
  let s' := snd (addJob uuid now jobData (fst sys)) in
  getJob uuid (fst sys) = None
  /\ (exists job, getJob uuid s' = Some job
                  /\ evolves (newJob uuid now jobData) job)
  /\ (forall jobId job, getJob jobId (fst sys) = Some job ->
        exists job', getJob jobId s' = Some job' /\ evolves job job').
Proof.
  intros Hreach Hfresh. destruct sys as [s w]. cbn [fst].
  pose proof (reachable_Inv env _ Hreach) as HI.
  pose proof (reachable_Hist env _ Hreach) as HH. cbn [fst] in HI, HH.
  split; [apply getJob_fresh; [apply (inv_jobs s HI)|assumption]|].
  pose proof (Inv_enqueue uuid now jobData s HI Hfresh) as HI1.
  unfold addJob. cbn [snd].
  set (s1 := emit jobAdded _ _) in *.
  assert (Hat : Atom false now (ledger s) (ledger s1)).
  { unfold s1, ledger. fields. apply atom_added.
    intros l job. now apply freshId_spec. }
  pose proof (Hist_atom _ _ _ _ HH Hat) as HH1.
  assert (HP : Path false now (ledger s1)
                 (ledger (if isProcessing s1 then s1 else processQueue now s1))).
  { destruct (isProcessing s1); [apply rtc_refl | now apply Path_processQueue]. }
  set (s2 := if isProcessing s1 then s1 else processQueue now s1) in *.
  pose proof (registry_path _ _ _ HH1 HP) as Hreg.
  pose proof (Grows_path _ _ _ _ HH1 HP) as Hgrow.
  pose proof (registry_atom _ _ _ HH Hat) as Hreg0.
  pose proof (Grows_atom _ _ _ _ HH Hat) as Hgrow0.
  simpl in Hreg, Hgrow, Hreg0, Hgrow0.
  split.
  - destruct (Hgrow (length (heap s)) (newJob uuid now jobData))
      as (job & Hl & Hev).
    { unfold s1. fields. rewrite lookup_app_r by lia.
      now rewrite Nat.sub_diag. }
    exists job. split; [|assumption]. apply getJob_Some.
    exists (length (heap s)). split; [|assumption].
    apply Hreg. unfold s1. fields. apply lookup_insert_eq.
  - intros jobId job (l & Hj & Hl)%getJob_Some.
    destruct (Hgrow0 l job Hl) as (j1 & Hl1 & Hev1).
    destruct (Hgrow l j1 Hl1) as (j2 & Hl2 & Hev2).
    exists j2. split; [|eapply evolves_trans; eauto].
    apply getJob_Some. exists l. split; [|assumption]. auto.
Qed.

(** The theorem of X10 at a second submission. *)
Lemma addJob_getJob_witness :
  let sys := stateAfter happyEnv pendingEvents in
  let jobData := renderJobData (stillOptions ["side"]) in
  let s' := snd (addJob "job-2" 2 jobData (fst sys)) in
  getJob "job-2" (fst sys) = None
  /\ (exists job, getJob "job-2" s' = Some job
                  /\ evolves (newJob "job-2" 2 jobData) job)
  /\ (forall jobId job, getJob jobId (fst sys) = Some job ->
        exists job', getJob jobId s' = Some job' /\ evolves job job').
Proof.
  apply (addJob_getJob happyEnv (stateAfter happyEnv pendingEvents) "job-2" 2
           (renderJobData (stillOptions ["side"]))).
  - exists pendingEvents. vm_compute. reflexivity.
  - vm_compute. reflexivity.
Defined.

(** ** Clean-up, a second cancellation, free slots *)

Lemma jobsValues_length s :
  JobsOk (heap s) (jobs s) -> length (jobsValues s) = size (jobs s).
Proof.
  intros Hj. unfold jobsValues. rewrite length_omap_lookup.
  - now rewrite length_fmap, length_map_to_list.
  - intros l [k Hk]%elem_of_refs. destruct (Hj k l Hk) as (job & Hl & _).
    eapply lookup_lt_Some; eauto.
Qed.

Lemma isOld_expired s cutoff l job :
  heap s !! l = Some job -> (isOld s cutoff l <-> expired cutoff job = true).
Proof.
  intros Hl. unfold isOld, expired. rewrite Hl.
  destruct (Job.completedAt job); [|split; [contradiction|discriminate]].
  now rewrite bool_decide_eq_true.
Qed.

Lemma getJob_cleanup s maxAge now jobId :
  JobsOk (heap s) (jobs s) ->
  getJob jobId (snd (cleanup maxAge now s))
  = match getJob jobId s with
    | Some job =>
        if expired (Z.of_nat now - Z.of_nat maxAge) job then None else Some job
    | None => None
    end.
Proof.
  intros Hj. unfold getJob, cleanup. cbn [snd]. fields.
  destruct (jobs s !! jobId) as [l|] eqn:Hm; simpl.
  - destruct (Hj jobId l Hm) as (job & Hl & _). rewrite Hl.
    destruct (expired _ job) eqn:He.
    + rewrite (proj2 (map_lookup_filter_None _ _ _)); [reflexivity|].
      right. intros l' Hl'. simpl. intros Hn. apply Hn.
      assert (l' = l) by congruence. subst l'.
      now apply (isOld_expired s _ l job Hl).
    + rewrite (proj2 (map_lookup_filter_Some _ _ _ l)); [simpl; exact Hl|].
      split; [assumption|]. simpl. intros Ho.
      apply (isOld_expired s _ l job Hl) in Ho. congruence.
  - rewrite (proj2 (map_lookup_filter_None _ _ _)); [reflexivity|]. now left.
Qed.

(** X11.  [cleanup(maxAge)] in a state the service can reach: [getJob]
    afterwards finds exactly the jobs it found before that did not finish
    earlier than [now - maxAge]; a pending or processing job is never
    dropped; the number returned is the decrease of [getStats().total]; and
    a second [cleanup] with the same arguments returns 0 and changes
    nothing. *)
Theorem cleanup_spec env sys maxAge now :
  reachable env sys ->
  let s := fst sys in
  let r := cleanup maxAge now s in
  (forall jobId,
     getJob jobId (snd r)
     = match getJob jobId s with
       | Some job =>
           if expired (Z.of_nat now - Z.of_nat maxAge) job then None else Some job
       | None => None
       end)
  /\ (forall jobId job, getJob jobId s = Some job ->
        isOpen (Job.status job) = true -> getJob jobId (snd r) = Some job)
  /\ fst r + Stats.total (getStats (snd r)) = Stats.total (getStats s)
  /\ cleanup maxAge now (snd r) = (0, snd r).
Proof.
  intros Hreach s r.
  pose proof (reachable_Inv env sys Hreach) as HI.
  pose proof (reachable_Hist env sys Hreach) as HH.
  pose proof (inv_jobs _ HI) as Hj. fold s in HI, HH, Hj.
  split; [|split; [|split]].
  - intros jobId. now apply getJob_cleanup.
  - intros jobId job Hget Hopen. unfold r. rewrite getJob_cleanup, Hget by assumption.
    apply getJob_Some in Hget as (l & _ & Hl).
    apply (hist_open _ _ _ HH l job Hl) in Hopen.
    unfold expired. now rewrite Hopen.
  - unfold getStats. cbn [Stats.total].
    rewrite !jobsValues_length; [|exact Hj|].
    + unfold r, cleanup. cbn [fst snd]. fields.
      pose proof (map_size_filter
                    (fun kv : string * nat =>
                       ~ isOld s (Z.of_nat now - Z.of_nat maxAge) kv.2) (jobs s)).
      lia.
    + apply (inv_jobs _ (Inv_cleanup maxAge now s HI)).
  - unfold r, cleanup. cbn [fst snd]. fields.
    set (cutoff := (Z.of_nat now - Z.of_nat maxAge)%Z).
    set (kept := filter (fun kv : string * nat => ~ isOld s cutoff kv.2) (jobs s)).
    assert (Hid : filter (fun kv : string * nat =>
                            ~ isOld (set_jobs kept s) cutoff kv.2) kept = kept).
    { apply map_filter_id. intros jobId l H.
      apply map_lookup_filter_Some in H as [_ H]. exact H. }
    rewrite Hid, Nat.sub_diag. reflexivity.
Qed.

(** The theorem of X11 at a sweep of everything that finished before time
    9, after four submissions, a cancellation and a completion. *)
Lemma cleanup_spec_witness :
  let s := fst (stateAfter happyEnv fifoEvents) in
  let r := cleanup 1 10 s in
  (forall jobId,
     getJob jobId (snd r)
     = match getJob jobId s with
       | Some job => if expired (Z.of_nat 10 - Z.of_nat 1) job then None else Some job
       | None => None
       end)
  /\ (forall jobId job, getJob jobId s = Some job ->
        isOpen (Job.status job) = true -> getJob jobId (snd r) = Some job)
  /\ fst r + Stats.total (getStats (snd r)) = Stats.total (getStats s)
  /\ cleanup 1 10 (snd r) = (0, snd r).
Proof.
  apply (cleanup_spec happyEnv (stateAfter happyEnv fifoEvents) 1 10).
  exists fifoEvents. vm_compute. reflexivity.
Defined.

(** X12.  Whatever a [cancelJob] did, a second [cancelJob] for the same
    identifier is refused and changes nothing. *)
Theorem cancelJob_twice jobId now1 now2 s :
  let r := cancelJob jobId now1 s in
  cancelJob jobId now2 (snd r) = (false, snd r).
Proof.
  simpl. unfold cancelJob at 2 3.
  destruct (jobs s !! jobId) as [l|] eqn:Hj; cbn [snd].
  2: { unfold cancelJob. now rewrite Hj. }
  destruct (heap s !! l) as [job|] eqn:Hl; cbn [snd].
  2: { unfold cancelJob. now rewrite Hj, Hl. }
  case_decide as Hpend; cbn [snd].
  2: { unfold cancelJob. rewrite Hj, Hl. now rewrite decide_False. }
  unfold cancelJob.
  destruct (queueFindIndex jobId s); fields;
    rewrite lookup_insert_eq, list_lookup_alter_eq, Hl; simpl;
    reflexivity.
Qed.

Lemma queue_processJob now l s : queue (processJob now l s) = queue s.
Proof.
  unfold processJob, batchNext, jobFails, jobs_set, updateJob; simpl.
  repeat (case_match; simpl; try reflexivity).
Qed.

Lemma concurrency_processJob now l s :
  concurrency (processJob now l s) = concurrency s.
Proof.
  unfold processJob, batchNext, jobFails, jobs_set, updateJob; simpl.
  repeat (case_match; simpl; try reflexivity).
Qed.

Lemma dispatch_post now s :
  Inv s ->
  (queue (dispatch now s) = []
   \/ activeJobs (dispatch now s) = concurrency (dispatch now s))
  /\ queue (dispatch now s) `suffix_of` queue s.
Proof.
  funelim (dispatch now s); intros HI.
  - split; [|reflexivity]. right. pose proof (inv_active_le s HI). lia.
  - split; [left; assumption | reflexivity].
  - destruct H as [Hfull Hsuf]; [apply Inv_processJob; assumption|].
    split; [exact Hfull|].
    rewrite queue_processJob in Hsuf. simpl in Hsuf.
    rewrite Hq. now apply suffix_cons_r.
Qed.

(** X13.  When a [sleep] of a running [processQueue] has elapsed, no slot
    is left idle while a job waits: afterwards the queue is empty or
    [activeJobs] has reached [concurrency], and what is left of the queue is
    its tail, in the same order. *)
Theorem wake_fills_slots env sys now :
  reachable env sys ->
  isProcessing (fst sys) = true ->
  let s' := wake now (fst sys) in
  (queue s' = [] \/ activeJobs s' = concurrency s')
  /\ queue s' `suffix_of` queue (fst sys).
Proof.
  intros Hreach Hrun. pose proof (reachable_Inv env sys Hreach) as HI.
  destruct sys as [s w]. cbn [fst] in *.
  unfold wake, processQueueLoop. fields. rewrite Hrun. cbn [andb].
  destruct (bool_decide (0 < length (queue s)) || bool_decide (0 < activeJobs s)%Z)
    eqn:Hc; fields.
  - apply (dispatch_post now (set_sleepers (pred (sleepers s)) s)).
    eapply Inv_same; [..|exact HI]; reflexivity.
  - apply orb_false_iff in Hc as [Hq _]. apply bool_decide_eq_false in Hq.
    split; [left|reflexivity]. destruct (queue s); [reflexivity|simpl in Hq; lia].
Qed.

(** The theorem of X13 at a queue with one job in flight and two waiting. *)
Lemma wake_fills_slots_witness :
  let s := fst (stateAfter happyEnv queuedEvents) in
  let s' := wake 4 s in
  (queue s' = [] \/ activeJobs s' = concurrency s')
  /\ queue s' `suffix_of` queue s.
Proof.
  apply (wake_fills_slots happyEnv (stateAfter happyEnv queuedEvents) 4).
  - exists queuedEvents. vm_compute. reflexivity.
  - vm_compute. reflexivity.
Defined.

(** ** Downloads; a queue that was not started *)

Lemma isJobResult_fileName v :
  isJobResult v -> truthy v = true /\ getField "fileName" v = VUndefined.
Proof.
  intros [(results & d & o & ->)|(n & results & ->)]; split; reflexivity.
Qed.



Lemma renderer_processJob now l s :
  renderer (processJob now l s) = renderer s.
Proof.
  unfold processJob, batchNext, jobFails, jobs_set, updateJob; simpl.
  repeat (case_match; simpl; try reflexivity).
Qed.

Lemma renderer_dispatch now s : renderer (dispatch now s) = renderer s.
Proof.
  funelim (dispatch now s); try reflexivity.
  rewrite H, renderer_processJob. reflexivity.
Qed.

Lemma renderer_processQueueLoop now s :
  renderer (processQueueLoop now s) = renderer s.
Proof.
  unfold processQueueLoop. destruct (_ && _); fields; [|reflexivity].
  apply renderer_dispatch.
Qed.

Lemma renderer_resume env now l s w s' w' :
  resume env now l (s, w) = Some (s', w') -> renderer s' = renderer s.
Proof.
  unfold resume.
  destruct (list_find _ (tasks s)) as [[k t]|]; [|discriminate].
  fields. destruct (heap s !! l) as [job|] eqn:Hl; [|discriminate].
  destruct t as [l0|l0 i results].
  - destruct (rendererRenderGLB _ _ _ _ _) as [[result|msg] w1];
      intros [= <- <-]; unfold jobCompletes, jobFails; fields; reflexivity.
  - destruct (Job.files job !! i);
      [destruct (rendererRenderGLB _ _ _ _ _) as [r w1]|]; intros [= <- <-].
    + unfold batchNext. fields. rewrite Hl.
      destruct (_ <? _)%nat; fields; reflexivity.
    + unfold jobCompletes. fields. reflexivity.
Qed.

Lemma Idle_exec env ev sys sys' :
  Idle sys -> exec env ev sys = Some sys' -> Idle sys'.
Proof.
  destruct sys as [s w]. unfold Idle. cbn [fst snd].
  intros HI. destruct ev; cbn [exec].
  - intros [= <-]. cbn [fst]. unfold start, processQueue. fields.
    rewrite renderer_processQueueLoop. discriminate.
  - intros [= <-]. exact HI.
  - destruct (freshId uuid s); [|discriminate]. intros [= <-]. cbn [fst snd].
    unfold addJob. cbn [snd]. fields.
    destruct (isProcessing s).
    + fields. intros Hn. destruct (HI Hn) as (Hs & Ht & He & Hw).
      repeat split; try assumption.
      intros e [Hx| ->%list_elem_of_singleton]%elem_of_app; [auto|]. now left.
    + unfold processQueue. fields.
      destruct (renderer s) eqn:Hr.
      * rewrite renderer_processQueueLoop. fields. rewrite Hr. discriminate.
      * fields. intros _. destruct (HI eq_refl) as (Hs & Ht & He & Hw).
        repeat split; try assumption.
        intros e [Hx| ->%list_elem_of_singleton]%elem_of_app; [auto|]. now left.
  - intros [= <-]. cbn [fst snd]. unfold cancelJob.
    destruct (jobs s !! jobId) as [l|]; [|exact HI].
    destruct (heap s !! l) as [job|]; [|exact HI].
    case_decide; [|exact HI]. cbn [snd].
    destruct (queueFindIndex jobId s); fields; intros Hn;
      destruct (HI Hn) as (Hs & Ht & He & Hw); repeat split; try assumption;
      intros e [Hx| ->%list_elem_of_singleton]%elem_of_app; auto.
  - intros [= <-]. exact HI.
  - case_bool_decide as Hs; [|discriminate]. intros [= <-]. cbn [fst snd].
    intros Hn. exfalso.
    assert (Hr : renderer s = None).
    { revert Hn. unfold wake. rewrite renderer_processQueueLoop. auto. }
    destruct (HI Hr) as (Hs0 & _). lia.
  - destruct (existsb _ _) eqn:Hex; [|discriminate]. intros [= <-].
    cbn [fst snd]. intros Hn. exfalso.
    assert (Hr : renderer s = None).
    { revert Hn. unfold progressCallback. fields. auto. }
    destruct (HI Hr) as (_ & Ht & _). rewrite Ht in Hex. discriminate.
  - intros Hres Hn. exfalso.
    destruct sys' as [s' w']. cbn [fst] in Hn.
    rewrite (renderer_resume env now l s w s' w' Hres) in Hn.
    destruct (HI Hn) as (_ & Ht & _).
    revert Hres. unfold resume. rewrite Ht. discriminate.
Qed.

Lemma Idle_run env evs sys sys' :
  Idle sys -> run env evs sys = Some sys' -> Idle sys'.
Proof.
  revert sys. induction evs as [|ev evs IH]; intros sys; cbn [run].
  - intros HI [= <-]. exact HI.
  - intros HI. destruct (exec env ev sys) as [sys1|] eqn:Hex; [|discriminate].
    apply IH. eapply Idle_exec; eauto.
Qed.

Lemma processingCount_zero h :
  (forall job, job ∈ h -> Job.status job <> processing) ->
  processingCount h = 0.
Proof.
  unfold processingCount. induction h as [|job h IH]; intros H; [reflexivity|].
  rewrite filter_cons_False by (apply H; left).
  apply IH. intros j Hj. apply H. now right.
Qed.

(** X16.  Until [start(renderer)] is called nothing is started: in every
    state the service can reach with no renderer, the host has not been
    called, [activeJobs] is 0, and every job is either pending and in the
    queue or cancelled. *)
Theorem nothing_starts_before_start env sys :
  reachable env sys ->
  renderer (fst sys) = None ->
  snd sys = emptyWorld
  /\ activeJobs (fst sys) = 0%Z
  /\ forall l job, heap (fst sys) !! l = Some job ->
       (Job.status job = pending /\ l ∈ queue (fst sys))
       \/ Job.status job = cancelled.
Proof.
  intros Hreach Hn.
  pose proof (reachable_Inv env sys Hreach) as HI.
  pose proof (reachable_Hist env sys Hreach) as HH.
  destruct Hreach as [evs Hrun].
  assert (H0 : Idle (constructor, emptyWorld)).
  { intros _. simpl. repeat split. intros e H. inversion H. }
  destruct (Idle_run env evs _ sys H0 Hrun Hn) as (Hs & Ht & He & Hw).
  assert (Hst : forall l job, heap (fst sys) !! l = Some job ->
            Job.status job = pending \/ Job.status job = cancelled).
  { intros l job Hl.
    pose proof (hist_events _ _ _ HH l job Hl) as Hev. simpl in Hev.
    assert (Hin : forall e, e ∈ eventsOf l (emitted (fst sys)) ->
                    e = jobAdded \/ e = jobCancelled).
    { intros e (x & -> & Hx%list_elem_of_filter)%list_elem_of_fmap.
      apply He. tauto. }
    rewrite Hev in Hin.
    destruct (Job.status job); auto; exfalso;
      (destruct (Hin jobStarted) as [?|?]; [|discriminate..];
       simpl; rewrite !elem_of_cons; right; left; reflexivity). }
  split; [assumption|]. split.
  - rewrite (inv_active _ HI). rewrite processingCount_zero; [reflexivity|].
    intros job [l Hl]%list_elem_of_lookup_1 Hp.
    destruct (Hst l job Hl); congruence.
  - intros l job Hl. destruct (Hst l job Hl) as [Hp|Hc]; [left|now right].
    split; [assumption|]. now apply (inv_pending _ HI l job Hl).
Qed.

(** The theorem of X16 at a queue that was never started, after a
    submission and its cancellation. *)
Lemma nothing_starts_before_start_witness :
  let sys := stateAfter happyEnv cancelledEvents in
  snd sys = emptyWorld
  /\ activeJobs (fst sys) = 0%Z
  /\ forall l job, heap (fst sys) !! l = Some job ->
       (Job.status job = pending /\ l ∈ queue (fst sys))
       \/ Job.status job = cancelled.
Proof.
  apply (nothing_starts_before_start happyEnv (stateAfter happyEnv cancelledEvents)).
  - exists cancelledEvents. vm_compute. reflexivity.
  - vm_compute. reflexivity.
Defined.

(** ** A queue that is not stopped *)

Lemma isProcessing_processJob now l s :
  isProcessing (processJob now l s) = isProcessing s.
Proof.
  unfold processJob, batchNext, jobFails, jobs_set, updateJob; simpl.
  repeat (case_match; simpl; try reflexivity).
Qed.

Lemma sleepers_processJob now l s :
  sleepers (processJob now l s) = sleepers s.
Proof.
  unfold processJob, batchNext, jobFails, jobs_set, updateJob; simpl.
  repeat (case_match; simpl; try reflexivity).
Qed.

Lemma isProcessing_dispatch now s :
  isProcessing (dispatch now s) = isProcessing s.
Proof.
  funelim (dispatch now s); try reflexivity.
  rewrite H, isProcessing_processJob. reflexivity.
Qed.

Lemma sleepers_dispatch now s : sleepers (dispatch now s) = sleepers s.
Proof.
  funelim (dispatch now s); try reflexivity.
  rewrite H, sleepers_processJob. reflexivity.
Qed.

(** One turn of the outer loop of [processQueue] in a state where
    [isProcessing] may be anything. *)
Lemma Alive_processQueueLoop now s :
  (isProcessing s = false -> renderer s <> None ->
   queue s = [] /\ (activeJobs s <= 0)%Z) ->
  Alive (processQueueLoop now s).
Proof.
  intros Hidle. unfold processQueueLoop, Alive.
  destruct (isProcessing s && _) eqn:Hc; fields.
  - rewrite sleepers_dispatch, isProcessing_dispatch.
    apply andb_true_iff in Hc as [Hp _]. split; [lia|auto].
  - split; [discriminate|]. rewrite ?renderer_dispatch.
    intros Hr Hwork. exfalso.
    apply andb_false_iff in Hc as [Hp|Hc].
    + destruct (Hidle Hp Hr) as [Hq Ha]. destruct Hwork; [contradiction|lia].
    + apply orb_false_iff in Hc as [Hq Ha].
      apply bool_decide_eq_false in Hq, Ha.
      destruct Hwork as [Hw|Hw]; [|lia].
      destruct (queue s); [contradiction|simpl in Hq; lia].
Qed.

Lemma Alive_processQueue now s :
  renderer s <> None -> Alive (processQueue now s).
Proof.
  intros Hr. unfold processQueue.
  destruct (renderer s) eqn:E; [|contradiction].
  apply Alive_processQueueLoop. fields. discriminate.
Qed.

Lemma resume_frame env now l s w s' w' :
  resume env now l (s, w) = Some (s', w') ->
  queue s' = queue s /\ isProcessing s' = isProcessing s
  /\ sleepers s' = sleepers s /\ (activeJobs s' <= activeJobs s)%Z.
Proof.
  unfold resume.
  destruct (list_find _ (tasks s)) as [[k t]|]; [|discriminate].
  fields. destruct (heap s !! l) as [job|] eqn:Hl; [|discriminate].
  destruct t as [l0|l0 i results].
  - destruct (rendererRenderGLB _ _ _ _ _) as [[result|msg] w1];
      intros [= <- <-]; unfold jobCompletes, jobFails; fields;
      repeat split; lia.
  - destruct (Job.files job !! i);
      [destruct (rendererRenderGLB _ _ _ _ _) as [r w1]|]; intros [= <- <-].
    + unfold batchNext. fields. rewrite Hl.
      destruct (_ <? _)%nat; fields; repeat split; lia.
    + unfold jobCompletes. fields. repeat split; lia.
Qed.

Lemma Alive_exec env ev s w s' w' :
  Alive s -> ev <> EvStop -> exec env ev (s, w) = Some (s', w') -> Alive s'.
Proof.
  intros [H1 H2] Hns. destruct ev; cbn [exec]; try contradiction.
  - intros [= <- <-]. unfold start. apply Alive_processQueue.
    fields. discriminate.
  - destruct (freshId uuid s); [|discriminate]. intros [= <- <-].
    unfold addJob. cbn [snd]. fields.
    destruct (isProcessing s) eqn:Hp.
    + split; fields; auto.
    + unfold processQueue. fields.
      destruct (renderer s) eqn:Hr.
      * apply Alive_processQueueLoop. fields. discriminate.
      * split; fields; [rewrite Hp; discriminate|]. rewrite Hr. contradiction.
  - intros [= <- <-]. unfold cancelJob.
    destruct (jobs s !! jobId) as [l|]; [|split; assumption].
    destruct (heap s !! l) as [job|]; [|split; assumption].
    case_decide; [|split; assumption]. cbn [snd].
    destruct (queueFindIndex jobId s) as [k|]; fields;
      (split; fields; [assumption|]); intros Hr Hwork; apply (H2 Hr);
      destruct Hwork as [Hq|Ha]; auto.
    left. intros Hnil. apply Hq. rewrite Hnil. destruct k; reflexivity.
  - intros [= <- <-]. split; assumption.
  - case_bool_decide as Hs; [|discriminate]. intros [= <- <-].
    unfold wake. apply Alive_processQueueLoop. fields.
    intros Hp Hr. destruct (queue s) eqn:Hq.
    + split; [reflexivity|].
      destruct (Z_le_gt_dec (activeJobs s) 0) as [?|Hgt]; [assumption|].
      rewrite H2 in Hp; [discriminate|assumption|right; lia].
    + rewrite H2 in Hp; [discriminate|assumption|left; discriminate].
  - destruct (existsb _ _); [|discriminate]. intros [= <- <-].
    unfold progressCallback. split; fields; assumption.
  - intros Hres. destruct (resume_frame env now l s w s' w' Hres)
      as (Hq & Hp & Hs & Ha).
    pose proof (renderer_resume env now l s w s' w' Hres) as Hr.
    split; rewrite ?Hq, ?Hp, ?Hs, ?Hr; [assumption|].
    intros Hr' [Hw|Hw]; apply H2; auto. right. lia.
Qed.

(** X17.  As long as [stop()] is not called no job is stranded: in every
    state reached from a new queue, when a renderer is set and a job waits
    in the queue or is in flight, [isProcessing] is true and a [sleep(1000)]
    of [processQueue] is pending, so the loop will look at the queue
    again. *)
Theorem no_job_is_stranded env evs sys :
  run env evs (constructor, emptyWorld) = Some sys ->
  neverStopped evs = true ->
  renderer (fst sys) <> None ->
  queue (fst sys) <> [] \/ (0 < activeJobs (fst sys))%Z ->
  isProcessing (fst sys) = true /\ 0 < sleepers (fst sys).
Proof.
  intros Hrun Hns Hr Hwork.
  assert (HA : Alive (fst sys)).
  { clear Hr Hwork.
    assert (H0 : Alive (fst (constructor, emptyWorld))).
    { split; simpl; [discriminate|contradiction]. }
    revert Hrun Hns H0. generalize (constructor, emptyWorld).
    induction evs as [|ev evs IH]; intros [s w]; cbn [run neverStopped forallb].
    - intros [= <-] _ H. exact H.
    - destruct (exec env ev (s, w)) as [[s1 w1]|] eqn:Hex; [|discriminate].
      intros Hrun [Hev Hns]%andb_true_iff HA. apply (IH (s1, w1)); auto.
      cbn [fst] in *. eapply Alive_exec; eauto.
      intros ->. discriminate. }
  destruct HA as [H1 H2]. specialize (H2 Hr Hwork). auto.
Qed.

(** The theorem of X17 at a queue with one job in flight and two waiting. *)
Lemma no_job_is_stranded_witness :
  let sys := stateAfter happyEnv queuedEvents in
  isProcessing (fst sys) = true /\ 0 < sleepers (fst sys).
Proof.
  apply (no_job_is_stranded happyEnv queuedEvents (stateAfter happyEnv queuedEvents)).
  - vm_compute. reflexivity.
  - vm_compute. reflexivity.
  - vm_compute. discriminate.
  - left. vm_compute. discriminate.
Defined.

(** ** Batch jobs *)

Lemma tasks_batchNext l i results s job :
  heap s !! l = Some job ->
  tasks (batchNext l i results s) = tasks s ++ [TBatch l i results]
  /\ exists job', heap (batchNext l i results s) !! l = Some job'
                  /\ Job.files job' = Job.files job.
Proof.
  intros Hl. unfold batchNext. rewrite Hl.
  destruct (i <? length (Job.files job))%nat; fields.
  - split; [reflexivity|]. rewrite list_lookup_alter_eq, Hl. simpl. eauto.
  - split; [reflexivity|]. eauto.
Qed.

Lemma find_after_delete s l k t t' :
  Inv s ->
  list_find (fun t => taskJob t = l) (tasks s) = Some (k, t) ->
  taskJob t' = l ->
  list_find (fun t => taskJob t = l) (delete k (tasks s) ++ [t'])
  = Some (length (delete k (tasks s)), t').
Proof.
  intros HI Hfind Ht'.
  destruct (tasks_find_spec s l k t HI Hfind) as (_ & _ & _ & Hmem).
  apply list_find_snoc_fresh; [|assumption].
  apply Forall_forall. intros x Hx Heq.
  assert (Hin : l ∈ taskJob <$> delete k (tasks s)).
  { apply list_elem_of_fmap. eauto. }
  apply Hmem in Hin. tauto.
Qed.

Lemma batch_step env now l i fs results s w f :
  BatchAt l i fs results s -> fs !! i = Some f ->
  exists s1 w1 entry,
    resume env now l (s, w) = Some (s1, w1)
    /\ BatchAt l (S i) fs (results ++ [entry]) s1.
Proof.
  intros [HI [k Hfind] (job & Hl & Hfs) Hres] Hf.
  destruct (resume env now l (s, w)) as [[s1 w1]|] eqn:Hres1.
  2: { exfalso. revert Hres1. unfold resume. rewrite Hfind. fields.
       rewrite Hl, Hfs, Hf. destruct (rendererRenderGLB _ _ _ _ _). discriminate. }
  pose proof (Inv_resume env now l s w s1 w1 HI Hres1) as HI1.
  revert Hres1. unfold resume. rewrite Hfind. fields. rewrite Hl, Hfs, Hf.
  destruct (rendererRenderGLB env _ f (Job.options job) w) as [r w1'] eqn:Hr.
  intros [= <- <-]. eexists _, _, _. split; [reflexivity|].
  set (s0 := set_tasks (delete k (tasks s)) s) in *.
  destruct (tasks_batchNext l (S i) (results ++ [
              match r with
              | Ret renderResult =>
                  VObj [("fileName", VStr f); ("success", VBool true);
                        ("result", renderResult)]
              | Throw message =>
                  VObj [("fileName", VStr f); ("success", VBool false);
                        ("error", VStr message)]
              end]) s0 job Hl) as (Ht & job' & Hl' & Hfs').
  split.
  - exact HI1.
  - exists (length (delete k (tasks s))). rewrite Ht.
    eapply find_after_delete; eauto.
  - exists job'. split; [assumption | congruence].
  - rewrite (take_S_r _ _ _ Hf). apply Forall2_app; [assumption|].
    constructor; [|constructor].
    destruct r as [renderResult|message]; split; try reflexivity.
    + left. split; [reflexivity|]. simpl.
      apply (f_equal fst) in Hr. simpl in Hr.
      apply rendererRenderGLB_ret_object in Hr. exact Hr.
    + right. split; reflexivity.
Qed.

Lemma batch_end env now l fs results s w :
  BatchAt l (length fs) fs results s ->
  exists s1 job',
    resume env now l (s, w) = Some (s1, w)
    /\ heap s1 !! l = Some job'
    /\ Job.status job' = completed
    /\ Job.completedAt job' = Some now
    /\ Job.result job' = batchResult (length fs) results.
Proof.
  intros [HI [k Hfind] (job & Hl & Hfs) Hres].
  unfold resume. rewrite Hfind. fields. rewrite Hl, Hfs.
  rewrite (proj2 (lookup_ge_None fs (length fs))) by lia.
  eexists _, _. split; [reflexivity|].
  unfold jobCompletes. fields. rewrite list_lookup_alter_eq, Hl. simpl.
  repeat split; reflexivity.
Qed.

Lemma batch_loop env now l fs m :
  forall i results s w,
    BatchAt l i fs results s -> i + m = length fs ->
    exists s' w' results' job',
      run env (replicate (S m) (EvSettle l now)) (s, w) = Some (s', w')
      /\ heap s' !! l = Some job'
      /\ Job.status job' = completed
      /\ Job.completedAt job' = Some now
      /\ Job.result job' = batchResult (length fs) results'
      /\ Forall2 batchEntryOf fs results'.
Proof.
  induction m as [|m IH]; intros i results s w HB Hi.
  - assert (i = length fs) by lia. subst i.
    destruct (batch_end env now l fs results s w HB)
      as (s1 & job' & Hres & Hl & Hst & Hd & Hr).
    exists s1, w, results, job'. cbn [replicate run exec]. rewrite Hres.
    repeat split; try assumption.
    pose proof (ba_results _ _ _ _ _ HB) as H. now rewrite take_ge in H by lia.
  - destruct (lookup_lt_is_Some_2 fs i) as [f Hf]; [lia|].
    destruct (batch_step env now l i fs results s w f HB Hf)
      as (s1 & w1 & entry & Hres & HB1).
    destruct (IH (S i) (results ++ [entry]) s1 w1 HB1) as (s' & w' & rs & job' & H);
      [lia|].
    exists s', w', rs, job'.
    change (replicate (S (S m)) (EvSettle l now))
      with (EvSettle l now :: replicate (S m) (EvSettle l now)).
    cbn [run exec]. rewrite Hres. exact H.
Qed.

Lemma length_filter_split {A} (P : A -> Prop) `{forall x, Decision (P x)}
    (xs : list A) :
  length (filter P xs) + length (filter (fun x => ~ P x) xs) = length xs.
Proof.
  induction xs as [|x xs IH]; [reflexivity|].
  rewrite !filter_cons. repeat case_decide; simpl; try lia; contradiction.
Qed.

(** X14.  A batch job that is dispatched always completes, whatever the
    renders of its files do: once its [processJob] has started and the
    renders of its files have settled one after the other, its status is
    [completed] and its result is the batch summary with [totalFiles] the
    number of files and one entry per file, in the order of the files; an
    entry carries the file name and either [success: true] with the render
    result or [success: false] with the message of the error; the
    successful and the failed entries together are as many as the files. *)
Theorem batch_job_completes env sys l rest job started finished :
  reachable env sys ->
  queue (fst sys) = l :: rest ->
  (activeJobs (fst sys) < concurrency (fst sys))%Z ->
  heap (fst sys) !! l = Some job ->
  Job.type job = "batch" ->
  exists s' w' results job',
    run env (replicate (S (length (Job.files job))) (EvSettle l finished))
        (processJob started l (set_queue rest (fst sys)), snd sys)
    = Some (s', w')
    /\ heap s' !! l = Some job'
    /\ Job.status job' = completed
    /\ Job.result job' = batchResult (length (Job.files job)) results
    /\ Forall2 batchEntryOf (Job.files job) results
    /\ length (filter (fun r => isSuccess r = true) results)
       + length (filter (fun r => isSuccess r <> true) results)
       = length (Job.files job).
Proof.
  intros Hreach Hq Hlt Hl Htype. destruct sys as [s w]. cbn [fst snd] in *.
  pose proof (reachable_Inv env _ Hreach) as HI. cbn [fst] in HI.
  assert (HB : BatchAt l 0 (Job.files job) []
                 (processJob started l (set_queue rest s))).
  { pose proof (Inv_processJob started s l rest HI Hq Hlt) as HI1.
    assert (Hpend : Job.status job = pending).
    { apply (inv_pending s HI l job Hl). rewrite Hq. left. }
    assert (Hnt : Forall (fun t => taskJob t <> l) (tasks s)).
    { apply Forall_forall. intros t Ht Heq.
      assert (Hin : l ∈ taskJobs s) by (apply list_elem_of_fmap; eauto).
      apply (inv_processing s HI l job Hl) in Hin. congruence. }
    revert HI1. unfold processJob.
    change (emit jobStarted l _) with (afterStart started l (set_queue rest s)).
    assert (Hl1 : heap (afterStart started l (set_queue rest s)) !! l
                  = Some (startedJob started job)).
    { unfold afterStart. fields. now rewrite list_lookup_alter_eq, Hl. }
    rewrite Hl1. cbn [startedJob Job.type Job.with_startedAt Job.with_status].
    rewrite Htype. cbn [String.eqb Ascii.eqb Bool.eqb]. intros HI1.
    destruct (tasks_batchNext l 0 [] _ _ Hl1) as (Ht & job' & Hl' & Hfs).
    split.
    - exact HI1.
    - exists (length (tasks s)). rewrite Ht.
      rewrite tasks_afterStart. cbn [tasks set_queue].
      now apply list_find_snoc_fresh.
    - exists job'. split; [assumption|]. exact Hfs.
    - constructor. }
  destruct (batch_loop env finished l (Job.files job) (length (Job.files job))
              0 [] _ w HB eq_refl) as (s' & w' & results & job' & H).
  destruct H as (Hrun & Hl' & Hst & _ & Hr & Hall).
  exists s', w', results, job'. repeat split; try assumption.
  rewrite (length_filter_split (fun r => isSuccess r = true) results).
  symmetry. eapply Forall2_length; eauto.
Qed.

(** The theorem of X14 at a batch of two files that waits behind a render
    job. *)
Lemma batch_job_completes_witness :
  let sys := stateAfter happyEnv batchEvents in
  let job := default noJob (heap (fst sys) !! 1) in
  exists s' w' results job',
    run happyEnv (replicate (S (length (Job.files job))) (EvSettle 1 4))
        (processJob 3 1 (set_queue [] (fst sys)), snd sys)
    = Some (s', w')
    /\ heap s' !! 1 = Some job'
    /\ Job.status job' = completed
    /\ Job.result job' = batchResult (length (Job.files job)) results
    /\ Forall2 batchEntryOf (Job.files job) results
    /\ length (filter (fun r => isSuccess r = true) results)
       + length (filter (fun r => isSuccess r <> true) results)
       = length (Job.files job).
Proof.
  apply (batch_job_completes happyEnv (stateAfter happyEnv batchEvents) 1 []).
  - exists batchEvents. vm_compute. reflexivity.
  - vm_compute. reflexivity.
  - vm_compute. reflexivity.
  - vm_compute. reflexivity.
  - vm_compute. reflexivity.
Defined.
